(** * kydao crawler: a shallow embedding of [scripts/clone_kydao_db.py]

    The script fetches listing pages, walks their pagination, enriches every
    game with the move list found in an embedded frame and upserts players,
    events and games into MongoDB.  This file embeds it function by function:

    - Python [str] values are [string]s of 8-bit code points;
    - the module-level registries ([players], [events], [games],
      [player_queue]) and every object they share live in one [World]
      record that is threaded through all calls;
    - objects that Python passes by reference ([Player], [Event],
      [PlayerGame]) are heap cells addressed by their index;
    - a generator is embedded as a function that receives the body of the
      [for] loop consuming it: [yield x] runs the body on [x];
    - exceptions are a [Raise] outcome, [try]/[except] is a [match] on it;
    - the libraries the script calls into (requests, bs4, urllib, the
      MongoDB server) are the fields of the class [Platform]. *)

From Stdlib Require Import ZArith Lia Ascii QArith_base.
From stdpp Require Import base option list list_numbers gmap sets strings.
From Equations Require Import Equations.

Local Open Scope Z_scope.
Local Set Warnings "-register-all,-clear-no-such-hyp".

(** ** Python string primitives *)

Module Py.

(** [str.isspace] on one code point, which is also what [\s] matches in a
    [str] pattern: TAB..CR, FS..US, SPACE, NEL and NBSP below 256. *)
Definition isspace (c : ascii) : bool :=
  let n := Ascii.N_of_ascii c in
  ((9 <=? n) && (n <=? 13) || (28 <=? n) && (n <=? 32)
   || (n =? 133) || (n =? 160))%N.

Fixpoint lstrip (s : string) : string :=
  match s with
  | String c s' => if isspace c then lstrip s' else s
  | EmptyString => EmptyString
  end.

Fixpoint rstrip (s : string) : string :=
  match s with
  | String c s' =>
      match rstrip s' with
      | EmptyString => if isspace c then EmptyString else String c EmptyString
      | r => String c r
      end
  | EmptyString => EmptyString
  end.

(** [s.strip()] *)
Definition strip (s : string) : string := rstrip (lstrip s).

Fixpoint startswith (pre s : string) : bool :=
  match pre, s with
  | EmptyString, _ => true
  | String a pre', String b s' => if decide (a = b) then startswith pre' s' else false
  | String _ _, EmptyString => false
  end.

(** Left-to-right scan of [s.replace(old, new)] for a non-empty [old];
    [skip] counts the characters of a match still to be dropped. *)
Fixpoint replace_from (old new : string) (skip : nat) (s : string) : string :=
  match s with
  | EmptyString => EmptyString
  | String c s' =>
      match skip with
      | S k => replace_from old new k s'
      | O =>
          if startswith old s
          then new +:+ replace_from old new (String.length old - 1) s'
          else String c (replace_from old new O s')
      end
  end.

(** With an empty [old] Python finds a match before every character and
    one at the end. *)
Fixpoint interleave (new s : string) : string :=
  match s with
  | EmptyString => new
  | String c s' => new +:+ String c (interleave new s')
  end.

(** [s.replace(old, new)] *)
Definition replace (old new s : string) : string :=
  match old with
  | EmptyString => interleave new s
  | String _ _ => replace_from old new O s
  end.

End Py.

(** ** The fragment of [re] the script uses

    Every pattern of the script is a sequence of one-character atoms, each
    taken once, [*] times or [+] times, with one capture group around a
    single atom.  Matching is Python's: leftmost, greedy, backtracking. *)

Module Re.

Inductive atom :=
| Chr (c : ascii)               (* a literal character *)
| Space                         (* \s *)
| OneOf (cs : list ascii)       (* [...] *)
| NoneOf (cs : list ascii).     (* [^...] *)

Inductive quant := Once | Star | Plus.

Record item := Item { it_atom : atom; it_quant : quant; it_group : bool }.

Definition atom_matches (a : atom) (c : ascii) : bool :=
  match a with
  | Chr d => bool_decide (c = d)
  | Space => Py.isspace c
  | OneOf cs => bool_decide (c ∈ cs)
  | NoneOf cs => negb (bool_decide (c ∈ cs))
  end.

Definition keep (g : bool) (c : ascii) (r : string) : string :=
  if g then String c r else r.

(** [a*] followed by the continuation [k]: longest run first, giving
    characters back one by one while [k] fails. *)
Fixpoint match_star (a : atom) (g : bool) (k : string → option string)
    (s : string) : option string :=
  match s with
  | String c s' =>
      if atom_matches a c then
        match match_star a g k s' with
        | Some r => Some (keep g c r)
        | None => k s
        end
      else k s
  | EmptyString => k EmptyString
  end.

Definition match_once (a : atom) (g : bool) (k : string → option string)
    (s : string) : option string :=
  match s with
  | String c s' => if atom_matches a c then keep g c <$> k s' else None
  | EmptyString => None
  end.

(** Match the whole pattern at the start of the text; the result is the
    text of group 1. *)
Fixpoint match_here (p : list item) : string → option string :=
  match p with
  | [] => λ _, Some EmptyString
  | Item a q g :: p' =>
      match q with
      | Once => match_once a g (match_here p')
      | Star => match_star a g (match_here p')
      | Plus => match_once a g (match_star a g (match_here p'))
      end
  end.

(** [re.search(p, s)], reduced to [m.group(1)] of the match found. *)
Fixpoint search (p : list item) (s : string) : option string :=
  match match_here p s with
  | Some g => Some g
  | None =>
      match s with
      | String _ s' => search p s'
      | EmptyString => None
      end
  end.

Fixpoint lit (s : string) : list item :=
  match s with
  | String c s' => Item (Chr c) Once false :: lit s'
  | EmptyString => []
  end.

Definition dquote : ascii := Eval cbv in ascii_of_nat 34.

Definition quotes : list ascii := ["'"%char; dquote].

(** The pattern NAME\s*=\s*[Q]([^Q]+)[Q], where the class Q holds the
    single and the double quote. *)
Definition assignment (name : string) : list item :=
  lit name ++
  [ Item Space Star false; Item (Chr "="%char) Once false;
    Item Space Star false; Item (OneOf quotes) Once false;
    Item (NoneOf quotes) Plus true; Item (OneOf quotes) Once false ].

(** The pattern StartBoard\(q([^q]+)q, where q is the single quote. *)
Definition start_board : list item :=
  lit "StartBoard(" ++
  [ Item (Chr "'"%char) Once false;
    Item (NoneOf ["'"%char]) Plus true;
    Item (Chr "'"%char) Once false ].

End Re.

(** ** Exceptions and outcomes *)

Inductive exn :=
| RequestException (code : nat)      (* raised by [session.get] *)
| HTTPError (status : Z)             (* raised by [resp.raise_for_status()] *)
| ValueError (msg : string)
| RuntimeError (msg : string) (cause : option exn)  (* [raise ... from cause] *)
| PyMongoError (code : nat)
| OtherException (code : nat).

Definition is_PyMongoError (e : exn) : bool :=
  match e with PyMongoError _ => true | _ => false end.

Inductive res (A : Type) :=
| Ok (a : A)
| Raise (e : exn).
Arguments Ok {A} a.
Arguments Raise {A} e.

(** ** The data classes *)

(** A MongoDB [ObjectId].  The script keeps [str(_id)]; [str] is injective
    on object ids, so the embedding keeps the id itself. *)
Abbreviation oid := nat.

(** The address of an object on one of the three heaps. *)
Abbreviation addr := nat.

Record Player := mkPlayer {
  p_name : string;
  p_url : string;
  p_id : option oid }.

Record Event := mkEvent {
  e_name : string;
  e_id : option oid }.

Record PlayerGame := mkPlayerGame {
  red_player : string;
  black_player : string;
  event : string;
  url : string;
  result : string;
  id : option oid;
  red_player_id : option oid;
  black_player_id : option oid;
  event_id : option oid;
  move_list : option string;
  begin_fen : option string;
  start_color : option string }.

Record GameList := mkGameList {
  gl_html : string;
  gl_url : string }.

(** [PlayerGame(red_player=..., black_player=..., event=..., url=..., result=...)] *)
Definition PlayerGame_init (red black ev u r : string) : PlayerGame :=
  mkPlayerGame red black ev u r None None None None None None None.

Global Instance PlayerGame_inhabited : Inhabited PlayerGame :=
  populate (PlayerGame_init EmptyString EmptyString EmptyString EmptyString EmptyString).

(** The tuple [(g.red_player, g.black_player, g.event, g.url)]. *)
Definition game_key (g : PlayerGame) : string * string * string * string :=
  (red_player g, black_player g, event g, url g).

(** ** What the script does to the outside, in order *)

Inductive level := DEBUG | INFO | WARNING.

(** The argument of [time.sleep]: [base ** exponent], left unevaluated. *)
Record duration := Pow { pow_base : Q; pow_exponent : Z }.

Inductive collection := PlayersCol | EventsCol | GamesCol.

(** What a log line is formatted from. *)
Inductive log_arg :=
| AStr (s : string)
| AInt (n : Z)
| AExn (e : exn)
| AId (i : option oid).

Inductive event_ :=
| EGet (u : string) (timeout : Z)            (* [session.get(u, timeout=...)] *)
| ESleep (d : duration)                      (* [time.sleep(d)] *)
| EMongo (c : collection) (key : string)     (* one round trip to the store *)
| ELog (lvl : level) (fmt : string) (args : list log_arg).

(** The part of a [requests.Response] the script reads. *)
Record Response := mkResponse {
  status_code : Z;
  encoding : option string;
  apparent_encoding : string;
  text : string → string  (* the body decoded with the given encoding *) }.

(** ** The MongoDB database *)

Record PlayerDoc := mkPlayerDoc {
  pd_id : oid;
  pd_name : string;
  pd_url : string }.

Record EventDoc := mkEventDoc {
  ed_id : oid;
  ed_name : string }.

(** The fields of [game_doc], and [_id]. *)
Record GameDoc := mkGameDoc {
  gd_id : oid;
  gd_red_player_id : oid;
  gd_black_player_id : oid;
  gd_event_id : oid;
  gd_url : string;
  gd_result : string;
  gd_move_list : option string;
  gd_begin_fen : option string;
  gd_start_color : option string }.

Record Store := mkStore {
  players_col : list PlayerDoc;
  events_col : list EventDoc;
  games_col : list GameDoc;
  next_oid : oid }.

(** ** The state of a run *)

Record World := mkWorld {
  trace : list event_;              (* most recent first *)
  store : Store;
  player_heap : list Player;
  event_heap : list Event;
  game_heap : list PlayerGame;
  players : gmap string addr;       (* [players: Dict[str, Player]] *)
  games : gset (string * string * string * string);  (* [games: Set[tuple]] *)
  events : gmap string addr;        (* [events: Dict[str, Event]] *)
  player_queue : list addr;         (* [player_queue: List[Player]] *)
  enqueued : list addr              (* history: every address ever appended
                                       to [player_queue], oldest first *) }.

Definition upd_trace (f : list event_ → list event_) (w : World) : World :=
  mkWorld (f (trace w)) (store w) (player_heap w) (event_heap w) (game_heap w)
    (players w) (games w) (events w) (player_queue w) (enqueued w).
Definition upd_store (f : Store → Store) (w : World) : World :=
  mkWorld (trace w) (f (store w)) (player_heap w) (event_heap w) (game_heap w)
    (players w) (games w) (events w) (player_queue w) (enqueued w).
Definition upd_player_heap (f : list Player → list Player) (w : World) : World :=
  mkWorld (trace w) (store w) (f (player_heap w)) (event_heap w) (game_heap w)
    (players w) (games w) (events w) (player_queue w) (enqueued w).
Definition upd_event_heap (f : list Event → list Event) (w : World) : World :=
  mkWorld (trace w) (store w) (player_heap w) (f (event_heap w)) (game_heap w)
    (players w) (games w) (events w) (player_queue w) (enqueued w).
Definition upd_game_heap (f : list PlayerGame → list PlayerGame) (w : World) : World :=
  mkWorld (trace w) (store w) (player_heap w) (event_heap w) (f (game_heap w))
    (players w) (games w) (events w) (player_queue w) (enqueued w).
Definition upd_players (f : gmap string addr → gmap string addr) (w : World) : World :=
  mkWorld (trace w) (store w) (player_heap w) (event_heap w) (game_heap w)
    (f (players w)) (games w) (events w) (player_queue w) (enqueued w).
Definition upd_games (f : gset (string * string * string * string) →
                          gset (string * string * string * string)) (w : World) : World :=
  mkWorld (trace w) (store w) (player_heap w) (event_heap w) (game_heap w)
    (players w) (f (games w)) (events w) (player_queue w) (enqueued w).
Definition upd_events (f : gmap string addr → gmap string addr) (w : World) : World :=
  mkWorld (trace w) (store w) (player_heap w) (event_heap w) (game_heap w)
    (players w) (games w) (f (events w)) (player_queue w) (enqueued w).
Definition upd_player_queue (f : list addr → list addr) (w : World) : World :=
  mkWorld (trace w) (store w) (player_heap w) (event_heap w) (game_heap w)
    (players w) (games w) (events w) (f (player_queue w)) (enqueued w).
Definition upd_enqueued (f : list addr → list addr) (w : World) : World :=
  mkWorld (trace w) (store w) (player_heap w) (event_heap w) (game_heap w)
    (players w) (games w) (events w) (player_queue w) (f (enqueued w)).

(** A fresh interpreter: empty registries, nothing allocated, and the
    database as it was left by earlier runs. *)
Definition World_init (db : Store) : World :=
  mkWorld [] db [] [] [] ∅ ∅ ∅ [] [].

(** Computations of the script: a state-and-exception monad over [World]. *)
Definition M (A : Type) : Type := World → res A * World.

Definition raise {A} (e : exn) : M A := λ w, (Raise e, w).

Global Instance M_ret : MRet M := λ A a w, (Ok a, w).
Global Instance M_bind : MBind M := λ A B k m w,
  match m w with
  | (Ok a, w') => k a w'
  | (Raise e, w') => (Raise e, w')
  end.

(** [try: m except Exception as e: h e] *)
Definition try_except {A} (m : M A) (h : exn → M A) : M A :=
  λ w, match m w with
       | (Ok a, w') => (Ok a, w')
       | (Raise e, w') => h e w'
       end.
Definition modify (f : World → World) : M unit := λ w, (Ok tt, f w).
Definition gets {A} (f : World → A) : M A := λ w, (Ok (f w), w).

Definition emit (ev : event_) : M unit := modify (upd_trace (cons ev)).

(** [logging.<lvl>(fmt, *args)] *)
Definition logged (lvl : level) (fmt : string) (args : list log_arg) (w : World) : World :=
  upd_trace (cons (ELog lvl fmt args)) w.
Definition log (lvl : level) (fmt : string) (args : list log_arg) : M unit :=
  modify (logged lvl fmt args).

(** What a generator leaves behind: the values it yielded, how it ended,
    and the state at that point. *)
Definition GenRes (Y : Type) : Type := list Y * res unit * World.

(** Run [m], then go on as a generator; an exception ends the generator. *)
Definition run_then {A Y} (m : M A) (k : A → World → GenRes Y) : World → GenRes Y :=
  λ w, match m w with
       | (Ok a, w') => k a w'
       | (Raise e, w') => ([], Raise e, w')
       end.

(** [yield y], then go on with [k]: the consumer's loop body runs on [y];
    an exception in it abandons the generator. *)
Definition yield_then {Y} (body : Y → M unit) (y : Y) (k : World → GenRes Y) :
    World → GenRes Y :=
  λ w, match body y w with
       | (Ok _, w') => let '(ys, r, w'') := k w' in (y :: ys, r, w'')
       | (Raise e, w') => ([y], Raise e, w')
       end.

(** [for y in gen: body(y)] as a computation. *)
Definition for_each {Y} (gen : (Y → M unit) → World → GenRes Y) (body : Y → M unit) : M unit :=
  λ w, let '(_, r, w') := gen body w in (r, w').

(** [list(gen)]: the loop body does nothing. *)
Definition collect {Y} (gen : (Y → M unit) → World → GenRes Y) : World → GenRes Y :=
  gen (λ _, mret tt).

(** ** The libraries and the network *)

Class Platform := {
  (** requests: the outcome of [session.get], given everything the script
      has done so far. *)
  session_get : list event_ → string → Z → exn + Response;
  (** [urllib.parse.urljoin] *)
  urljoin : string → string → string;
  (** bs4: the parsed document and the four queries the script makes. *)
  Tag : Type;
  BeautifulSoup : string → Tag;            (* [BeautifulSoup(html, "html.parser")] *)
  select : string → Tag → list Tag;        (* [t.select(css)] *)
  select_one : string → Tag → option Tag;  (* [t.select_one(css)] *)
  tag_get : Tag → string → option string;  (* [t.get(attr)] *)
  get_text : Tag → string;                 (* [t.get_text(" ", strip=True)] *)
  (** pymongo: whether the import fails, whether [MongoClient(uri)] fails,
      and whether the next round trip to the server fails. *)
  pymongo_import : option exn;
  MongoClient : option exn;
  mongo_fault : list event_ → option nat }.

Section Crawler.
Context `{Platform}.

(** ** [fetch_html] *)

(** The body of the [try] block: one request. *)
Definition attempt_get (u : string) (timeout : Z) : M string := λ w,
  let w1 := upd_trace (cons (EGet u timeout)) w in
  match session_get (trace w) u timeout with
  | inl e => (Raise e, w1)
  | inr resp =>
      (* [resp.raise_for_status()] *)
      if (400 <=? status_code resp) && (status_code resp <? 600)
      then (Raise (HTTPError (status_code resp)), w1)
      else
        let enc := match encoding resp with
                   | None | Some EmptyString => apparent_encoding resp
                   | Some e => e
                   end in
        (Ok (text resp enc), w1)
  end.

(** The [for attempt in range(1, retries + 1)] loop, and the [raise] that
    follows it. *)
Fixpoint fetch_loop (u : string) (timeout retries : Z) (backoff : Q)
    (range : list Z) (last_err : option exn) : M string :=
  match range with
  | [] => raise (RuntimeError ("Failed to fetch " +:+ u) last_err)
  | attempt :: range' =>
      try_except (attempt_get u timeout) (λ e,
        if attempt <? retries then
          emit (ESleep (Pow backoff (attempt - 1)));;
          fetch_loop u timeout retries backoff range' (Some e)
        else raise e)
  end.

Definition fetch_html_with (u : string) (timeout retries : Z) (backoff : Q) : M string :=
  fetch_loop u timeout retries backoff (seqZ 1 retries) None.

(** [fetch_html(url)] with the defaults [timeout=20, retries=3, backoff=1.5],
    which is how every caller in the script uses it. *)
Definition fetch_html (u : string) : M string :=
  fetch_html_with u 20 3 (3 # 2)%Q.

(** ** MongoDB operations *)

(** One round trip: it is recorded, and it raises when the server or the
    connection fails. *)
Definition round_trip (c : collection) (key : string) : M unit := λ w,
  let w1 := upd_trace (cons (EMongo c key)) w in
  match mongo_fault (trace w) with
  | Some code => (Raise (PyMongoError code), w1)
  | None => (Ok tt, w1)
  end.

Definition set_players_col (c : list PlayerDoc) (s : Store) : Store :=
  mkStore c (events_col s) (games_col s) (next_oid s).
Definition set_events_col (c : list EventDoc) (s : Store) : Store :=
  mkStore (players_col s) c (games_col s) (next_oid s).
Definition set_games_col (c : list GameDoc) (s : Store) : Store :=
  mkStore (players_col s) (events_col s) c (next_oid s).
Definition bump_oid (s : Store) : Store :=
  mkStore (players_col s) (events_col s) (games_col s) (S (next_oid s)).

(** [players_col.find_one_and_update({"name": n},
      {"$setOnInsert": {"name": n, "url": u}}, upsert=True,
      return_document=ReturnDocument.AFTER)] on the server. *)
Definition players_find_one_and_update (n u : string) (s : Store) : PlayerDoc * Store :=
  match list_find (λ d, pd_name d = n) (players_col s) with
  | Some (_, d) => (d, s)
  | None =>
      let d := mkPlayerDoc (next_oid s) n u in
      (d, bump_oid (set_players_col (players_col s ++ [d]) s))
  end.

(** [events_col.find_one_and_update({"name": n}, {"$setOnInsert": {"name": n}},
      upsert=True, return_document=ReturnDocument.AFTER)] *)
Definition events_find_one_and_update (n : string) (s : Store) : EventDoc * Store :=
  match list_find (λ d, ed_name d = n) (events_col s) with
  | Some (_, d) => (d, s)
  | None =>
      let d := mkEventDoc (next_oid s) n in
      (d, bump_oid (set_events_col (events_col s ++ [d]) s))
  end.

(** [games_col.update_one({"url": u}, {"$set": game_doc}, upsert=True)];
    [game_doc] is given as a function of the [_id] it is stored under, and
    the result is [res.upserted_id]. *)
Definition games_update_one (u : string) (game_doc : oid → GameDoc) (s : Store) :
    option oid * Store :=
  match list_find (λ d, gd_url d = u) (games_col s) with
  | Some (i, d) => (None, set_games_col (<[i := game_doc (gd_id d)]> (games_col s)) s)
  | None =>
      (Some (next_oid s),
       bump_oid (set_games_col (games_col s ++ [game_doc (next_oid s)]) s))
  end.

(** [games_col.find_one({"url": u})] *)
Definition games_find_one (u : string) (s : Store) : option GameDoc :=
  snd <$> list_find (λ d, gd_url d = u) (games_col s).

(** A server operation as a computation: round trip, then the effect. *)
Definition on_store {A} (c : collection) (key : string) (op : Store → A * Store) : M A :=
  round_trip c key;;
  ((λ w, let '(a, s) := op (store w) in (Ok a, upd_store (λ _, s) w)) : M A).

(** ** Attribute access on heap objects *)

Global Instance Player_inhabited : Inhabited Player :=
  populate (mkPlayer EmptyString EmptyString None).

(** [game.f] *)
Definition attr {A} (f : PlayerGame → A) (game : addr) : M A :=
  gets (λ w, f (game_heap w !!! game)).

(** [game.f = v], [f] being given by its setter. *)
Definition set_attr (game : addr) (setter : PlayerGame → PlayerGame) : M unit :=
  modify (upd_game_heap (alter setter game)).

Definition set_id (v : option oid) (g : PlayerGame) : PlayerGame :=
  mkPlayerGame (red_player g) (black_player g) (event g) (url g) (result g)
    v (red_player_id g) (black_player_id g) (event_id g)
    (move_list g) (begin_fen g) (start_color g).
Definition set_red_player_id (v : option oid) (g : PlayerGame) : PlayerGame :=
  mkPlayerGame (red_player g) (black_player g) (event g) (url g) (result g)
    (id g) v (black_player_id g) (event_id g)
    (move_list g) (begin_fen g) (start_color g).
Definition set_black_player_id (v : option oid) (g : PlayerGame) : PlayerGame :=
  mkPlayerGame (red_player g) (black_player g) (event g) (url g) (result g)
    (id g) (red_player_id g) v (event_id g)
    (move_list g) (begin_fen g) (start_color g).
Definition set_event_id (v : option oid) (g : PlayerGame) : PlayerGame :=
  mkPlayerGame (red_player g) (black_player g) (event g) (url g) (result g)
    (id g) (red_player_id g) (black_player_id g) v
    (move_list g) (begin_fen g) (start_color g).
Definition set_move_list (v : option string) (g : PlayerGame) : PlayerGame :=
  mkPlayerGame (red_player g) (black_player g) (event g) (url g) (result g)
    (id g) (red_player_id g) (black_player_id g) (event_id g)
    v (begin_fen g) (start_color g).
Definition set_begin_fen (v : option string) (g : PlayerGame) : PlayerGame :=
  mkPlayerGame (red_player g) (black_player g) (event g) (url g) (result g)
    (id g) (red_player_id g) (black_player_id g) (event_id g)
    (move_list g) v (start_color g).
Definition set_start_color (v : option string) (g : PlayerGame) : PlayerGame :=
  mkPlayerGame (red_player g) (black_player g) (event g) (url g) (result g)
    (id g) (red_player_id g) (black_player_id g) (event_id g)
    (move_list g) (begin_fen g) v.

Definition set_p_id (v : option oid) (p : Player) : Player :=
  mkPlayer (p_name p) (p_url p) v.

(** Object construction: the new object goes on its heap, the value is its
    address. *)
Definition new_player (p : Player) : M addr := λ w,
  (Ok (length (player_heap w)), upd_player_heap (λ h, h ++ [p]) w).
Definition new_event (e : Event) : M addr := λ w,
  (Ok (length (event_heap w)), upd_event_heap (λ h, h ++ [e]) w).
Definition new_game (g : PlayerGame) : M addr := λ w,
  (Ok (length (game_heap w)), upd_game_heap (λ h, h ++ [g]) w).

(** ** [save_game] *)

(** [players.get(name).url if players.get(name) else ''] *)
Definition registered_url (name : string) (w : World) : string :=
  match players w !! name with
  | Some a => p_url (player_heap w !!! a)
  | None => EmptyString
  end.

(** [if name in players: players[name].id = v] *)
Definition cache_player_id (name : string) (v : option oid) : M unit :=
  modify (λ w, match players w !! name with
               | Some a => upd_player_heap (alter (set_p_id v) a) w
               | None => w
               end).

(** [if name not in events: events[name] = Event(name=name, id=v)] *)
Definition cache_event (name : string) (v : option oid) : M unit :=
  present ← gets (λ w, bool_decide (is_Some (events w !! name)));
  if present : bool then mret tt
  else a ← new_event (mkEvent name v); modify (upd_events <[name := a]>).

(** Lines 136-142, and 145-151 for the other side: upsert the player
    named by [game.<side>] and keep the [_id] of the document in
    [game.<side>_id]. *)
Definition upsert_player (side : PlayerGame → string)
    (set_side_id : option oid → PlayerGame → PlayerGame) (game : addr) : M PlayerDoc :=
  name ← attr side game;
  u ← gets (registered_url name);
  doc ← on_store PlayersCol name (players_find_one_and_update name u);
  set_attr game (set_side_id (Some (pd_id doc)));;
  mret doc.

(** Lines 154-160. *)
Definition upsert_event (game : addr) : M EventDoc :=
  ev ← attr event game;
  doc ← on_store EventsCol ev (events_find_one_and_update ev);
  set_attr game (set_event_id (Some (ed_id doc)));;
  mret doc.

(** Lines 163-179. *)
Definition upsert_game (game : addr) (red_doc black_doc : PlayerDoc)
    (event_doc : EventDoc) : M unit :=
  g ← attr (λ g, g) game;
  let game_doc := λ i,
    mkGameDoc i (pd_id red_doc) (pd_id black_doc) (ed_id event_doc)
      (url g) (result g) (move_list g) (begin_fen g) (start_color g) in
  upserted_id ← on_store GamesCol (url g) (games_update_one (url g) game_doc);
  match upserted_id with
  | Some i => set_attr game (set_id (Some i))
  | None =>
      existing ← on_store GamesCol (url g) (λ s, (games_find_one (url g) s, s));
      match existing with
      | Some d => set_attr game (set_id (Some (gd_id d)))
      | None => mret tt
      end
  end.

(** Lines 182-187. *)
Definition update_caches (game : addr) : M unit :=
  red ← attr red_player game;
  rid ← attr red_player_id game;
  cache_player_id red rid;;
  black ← attr black_player game;
  bid ← attr black_player_id game;
  cache_player_id black bid;;
  ev ← attr event game;
  eid ← attr event_id game;
  cache_event ev eid.

(** The [try] block of [save_game]. *)
Definition save_game_try (game : addr) : M unit :=
  red_doc ← upsert_player red_player set_red_player_id game;
  black_doc ← upsert_player black_player set_black_player_id game;
  event_doc ← upsert_event game;
  upsert_game game red_doc black_doc event_doc;;
  update_caches game;;
  gid ← attr id game;
  log INFO "Saved game %s" [AId gid].

Definition save_game (game : addr) : M unit :=
  match pymongo_import with
  | Some e =>
      u ← attr url game;
      log WARNING "pymongo not available; skipping saving game %s: %s" [AStr u; AExn e]
  | None =>
      match MongoClient with
      | Some e => raise e
      | None =>
          λ w, match save_game_try game w with
               | (Raise e, w') =>
                   if is_PyMongoError e then
                     (u ← attr url game;
                      log WARNING "MongoDB error while saving game %s: %s" [AStr u; AExn e]) w'
                   else (Raise e, w')
               | r => r
               end
      end
  end.

(** ** [parse_game] *)

(** The marker that [moves_str.replace(marker, nonce)] looks for: the
    script passes the empty string. *)
Definition PLACEHOLDER : string := EmptyString.

(** Lines 208-217: the move list. *)
Definition extract_move_list (frame_html : string) (game : addr) : M unit :=
  (* strMoveList may be single- or double-quoted; allow both *)
  match Re.search (Re.assignment "strMoveList") frame_html with
  | Some group1 =>
      let moves_str := Py.strip group1 in
      let nonce := default EmptyString (Re.search Re.start_board frame_html) in
      let moves_str := Py.replace PLACEHOLDER nonce moves_str in
      set_attr game (set_move_list (Some moves_str))
  | None => set_attr game (set_move_list None)
  end.

(** Lines 219-221. *)
Definition extract_begin_fen (frame_html : string) (game : addr) : M unit :=
  match Re.search (Re.assignment "beginFEN") frame_html with
  | Some group1 => set_attr game (set_begin_fen (Some group1))
  | None => mret tt
  end.

(** Lines 223-225. *)
Definition extract_start_color (frame_html : string) (game : addr) : M unit :=
  match Re.search (Re.assignment "startColor") frame_html with
  | Some group1 => set_attr game (set_start_color (Some group1))
  | None => mret tt
  end.

(** Lines 207-227: what [parse_game] does with the frame document. *)
Definition enrich (frame_html : string) (game : addr) : M addr :=
  extract_move_list frame_html game;;
  extract_begin_fen frame_html game;;
  extract_start_color frame_html game;;
  save_game game;;
  mret game.

Definition parse_game (html base_url : string) (game : addr) : M addr :=
  let soup := BeautifulSoup html in
  let game_frame := select_one "#game" soup in
  match game_frame ≫= (λ t, tag_get t "src") with
  | None | Some EmptyString =>
      raise (ValueError ("No #game iframe with src found on " +:+ base_url))
  | Some src =>
      let frame_url := Py.strip src in
      let frame_abs_url := urljoin base_url frame_url in
      frame_html ← fetch_html frame_abs_url;
      enrich frame_html game
  end.

(** ** [parse_game_links] *)

(** One turn of the [for game_div in ...] loop up to its [yield]:
    [None] when the entry is skipped ([continue]), the game otherwise. *)
Definition game_entry (base_url : string) (game_div : Tag) : M (option addr) :=
  match select_one "div.red > a" game_div, select_one "div.black > a" game_div,
        select_one "div.result > a" game_div, select_one "div.event > a" game_div with
  | Some a_red, Some a_black, Some a_result, Some a_event =>
      let red := get_text a_red in
      let black := get_text a_black in
      let res_text := get_text a_result in
      let game_url := Py.strip (default EmptyString (tag_get a_result "href")) in
      match game_url with
      | EmptyString => log WARNING "Game link missing href; skipping." [];; mret None
      | String _ _ =>
          let abs_game_url := urljoin base_url game_url in
          let ev := get_text a_event in
          game ← new_game (PlayerGame_init red black ev abs_game_url res_text);
          try_except
            (game_html ← fetch_html abs_game_url;
             parse_game game_html abs_game_url game;;
             mret tt)
            (λ e, log WARNING "Failed to parse game %s: %s" [AStr abs_game_url; AExn e]);;
          mret (Some game)
      end
  | _, _, _, _ =>
      log WARNING "Skipping malformed game entry on %s" [AStr base_url];; mret None
  end.

Fixpoint game_links_loop (base_url : string) (body : addr → M unit)
    (divs : list Tag) : World → GenRes addr :=
  match divs with
  | [] => λ w, ([], Ok tt, w)
  | game_div :: divs' =>
      run_then (game_entry base_url game_div) (λ entry,
        match entry with
        | Some game => yield_then body game (game_links_loop base_url body divs')
        | None => game_links_loop base_url body divs'
        end)
  end.

Definition parse_game_links (base_url : string) (body : addr → M unit) :
    World → GenRes addr :=
  run_then (fetch_html base_url) (λ html,
    let soup := BeautifulSoup html in
    game_links_loop base_url body (select "div.game" soup)).

(** ** [parse_pagination_links] *)

(** The [while True] loop.  It goes round again only after
    [pages_fetched < max_pages] was checked, and [pages_fetched] grows. *)
Equations? pagination_loop (base_url : string) (max_pages : Z)
    (body : GameList → M unit) (soup : Tag) (pages_fetched : Z)
    (seen : gset string) (w : World) : GenRes GameList
  by wf (Z.to_nat (max_pages - pages_fetched)) lt :=
pagination_loop base_url max_pages body soup pages_fetched seen w :=
  match select_one "#Content_pager_lblnext > a" soup with
  | None => ([], Ok tt, w)
  | Some a =>
      match Py.strip (default EmptyString (tag_get a "href")) with
      | EmptyString => ([], Ok tt, w)
      | String c href' =>
          let abs_url := urljoin base_url (String c href') in
          match decide (abs_url ∈ seen ∨ pages_fetched >= max_pages) with
          | left _ =>
              ([], Ok tt,
               logged INFO "Reached seen page or max_pages (%d). Stopping pagination."
                 [AInt max_pages] w)
          | right _ =>
              match fetch_html abs_url w with
              | (Raise e, w1) =>
                  ([], Ok tt,
                   logged WARNING "Failed to fetch page %s: %s" [AStr abs_url; AExn e] w1)
              | (Ok html, w1) =>
                  yield_then body (mkGameList html abs_url)
                    (λ w2, pagination_loop base_url max_pages body (BeautifulSoup html)
                             (pages_fetched + 1) (seen ∪ {[abs_url]}) w2)
                    w1
              end
          end
      end
  end.
Proof. lia. Qed.

Definition parse_pagination_links (base_url : string) (max_pages : Z)
    (body : GameList → M unit) : World → GenRes GameList :=
  run_then (fetch_html base_url) (λ html,
    let soup := BeautifulSoup html in
    let pages_fetched := 1 in
    yield_then body (mkGameList html base_url)
      (let seen := {[base_url]} in
       pagination_loop base_url max_pages body soup pages_fetched seen)).

(** ** [parse_home_page] *)

Definition known (registry : World → gmap string addr) (name : string) : M bool :=
  gets (λ w, bool_decide (is_Some (registry w !! name))).

(** The statement that occurs four times in [parse_home_page]:
    [if name not in players:] log,
    [players[name] = Player(name=name, url=u)],
    [player_queue.append(players[name])]. *)
Definition register_player (name u : string) : M unit :=
  is_known ← known players name;
  if is_known : bool then mret tt
  else
    log INFO "Add player %s" [AStr name];;
    a ← new_player (mkPlayer name u None);
    modify (upd_players <[name := a]>);;
    modify (upd_player_queue (λ q, q ++ [a]));;
    modify (upd_enqueued (λ q, q ++ [a])).

(** [if name not in events:] log, [events[name] = Event(name=name)]. *)
Definition register_event (name : string) : M unit :=
  is_known ← known events name;
  if is_known : bool then mret tt
  else
    log INFO "Add event %s" [AStr name];;
    a ← new_event (mkEvent name None);
    modify (upd_events <[name := a]>).

(** [urljoin(base_url, href) if href else ''] *)
Definition join_if (base_url href : string) : string :=
  match href with
  | EmptyString => EmptyString
  | String _ _ => urljoin base_url href
  end.

(** One turn of the first loop of [parse_home_page]. *)
Definition seed_entry (base_url : string) (game_div : Tag) : M unit :=
  match select_one "div.red > a" game_div, select_one "div.black > a" game_div with
  | Some a_red, Some a_black =>
      let red := get_text a_red in
      let black := get_text a_black in
      let red_url := Py.strip (default EmptyString (tag_get a_red "href")) in
      let black_url := Py.strip (default EmptyString (tag_get a_black "href")) in
      register_player red (join_if base_url red_url);;
      register_player black (join_if base_url black_url)
  | _, _ => log DEBUG "Skipping malformed player entry on %s" [AStr base_url]
  end.

Fixpoint seed_loop (base_url : string) (divs : list Tag) : M unit :=
  match divs with
  | [] => mret tt
  | game_div :: divs' => seed_entry base_url game_div;; seed_loop base_url divs'
  end.

(** Lines 328-335: a game whose identity is new goes into the dedup set,
    is logged and saved. *)
Definition announce (g : addr) : M unit :=
  game_id ← attr game_key g;
  seen ← gets (λ w, bool_decide (game_id ∈ games w));
  if seen : bool then mret tt
  else
    modify (upd_games (λ s, s ∪ {[game_id]}));;
    log INFO "Found game: %s vs %s Event: %s URL: %s"
      [AStr game_id.1.1.1; AStr game_id.1.1.2; AStr game_id.1.2; AStr game_id.2];;
    try_except (save_game g) (λ e,
      u ← attr url g;
      log WARNING "Failed to save game %s: %s" [AStr u; AExn e]).

(** The body of [for g in games_on_page]. *)
Definition game_body (g : addr) : M unit :=
  announce g;;
  red ← attr red_player g;
  register_player red EmptyString;;
  black ← attr black_player g;
  register_player black EmptyString;;
  ev ← attr event g;
  register_event ev.

(** The body of [for page in parse_pagination_links(player.url)]. *)
Definition page_body (page : GameList) : M unit :=
  for_each (parse_game_links (gl_url page)) game_body.

(** One turn of [while player_queue], after the [pop(0)]. *)
Definition visit_player (player : addr) : M unit :=
  p ← gets (λ w, player_heap w !!! player);
  log INFO "Fetching player games %s" [AStr (p_name p)];;
  match p_url p with
  | EmptyString => mret tt
  | String _ _ => for_each (parse_pagination_links (p_url p) 100) page_body
  end.

(** How far a run got: the queue was drained, an exception escaped, or the
    run is still going after [fuel] players. *)
Inductive status := Finished | Raised (e : exn) | Running.

Fixpoint drain_queue (fuel : nat) (w : World) : status * World :=
  match player_queue w with
  | [] => (Finished, w)
  | player :: queue' =>
      match fuel with
      | O => (Running, w)
      | S fuel' =>
          match visit_player player (upd_player_queue (λ _, queue') w) with
          | (Ok _, w') => drain_queue fuel' w'
          | (Raise e, w') => (Raised e, w')
          end
      end
  end.

(** Lines 299-318: the players named on the start page. *)
Definition seed (base_url : string) : M unit :=
  html ← fetch_html base_url;
  let soup := BeautifulSoup html in
  seed_loop base_url (select "div.game" soup).

Definition parse_home_page (fuel : nat) (base_url : string) (w : World) : status * World :=
  match seed base_url w with
  | (Ok _, w') => drain_queue fuel w'
  | (Raise e, w') => (Raised e, w')
  end.

End Crawler.

(** ** A small platform to run the script on

    The theorems below hold for every [Platform].  To run the embedding
    on concrete pages, [Toy.platform web doms] serves the table [web]
    (URL to body, status 200; any other URL fails), parses a body into
    the tree [doms] gives for it, answers a CSS query with the subtrees
    filed under that query, resolves a link to itself, and has a MongoDB
    server that never fails. *)

Module Toy.

Inductive tag :=
| Node (attrs : list (string * string)) (txt : string) (sub : list (string * tag)).

Definition attrs_of (t : tag) := match t with Node a _ _ => a end.
Definition text_of (t : tag) := match t with Node _ x _ => x end.
Definition sub_of (t : tag) := match t with Node _ _ s => s end.

Fixpoint assoc {A} (k : string) (l : list (string * A)) : option A :=
  match l with
  | [] => None
  | (k', v) :: l' => if decide (k = k') then Some v else assoc k l'
  end.

Definition query (css : string) (t : tag) : list tag :=
  (filter (λ kv, kv.1 = css) (sub_of t)).*2.

Definition get (web : list (string * string)) (u : string) : exn + Response :=
  match assoc u web with
  | Some body => inr (mkResponse 200 (Some "utf-8") "utf-8" (λ _, body))
  | None => inl (RequestException 0)
  end.

Definition platform (web : list (string * string)) (doms : list (string * tag)) : Platform :=
  {| session_get := λ _ u _, get web u;
     urljoin := λ _ href, href;
     Tag := tag;
     BeautifulSoup := λ html, default (Node [] EmptyString []) (assoc html doms);
     select := query;
     select_one := λ css t, head (query css t);
     tag_get := λ t a, assoc a (attrs_of t);
     get_text := text_of;
     pymongo_import := None;
     MongoClient := None;
     mongo_fault := λ _, None |}.

Definition link (href : string) (txt : string) : tag := Node [("href", href)] txt [].

(** A [div.game] entry with its four links.  The page of the red player
    is the first listing page; the black player has no page. *)
Definition game_div (red black res_text href ev : string) : tag :=
  Node [] EmptyString
    [("div.red > a", link "/p1" red); ("div.black > a", link EmptyString black);
     ("div.result > a", link href res_text); ("div.event > a", link "/event" ev)].

(** The same entry without the event link. *)
Definition game_div_no_event (red black res_text href : string) : tag :=
  Node [] EmptyString
    [("div.red > a", link "/p1" red); ("div.black > a", link EmptyString black);
     ("div.result > a", link href res_text)].

(** A listing page: its entries and, if any, the pager link. *)
Definition listing (divs : list tag) (next : option string) : tag :=
  Node [] EmptyString
    (((λ d, ("div.game", d)) <$> divs) ++
     match next with
     | Some href => [("#Content_pager_lblnext > a", link href "next")]
     | None => []
     end).

(** A detail page with a frame. *)
Definition detail (src : string) : tag :=
  Node [] EmptyString [("#game", Node [("src", src)] EmptyString [])].

Definition empty_db : Store := mkStore [] [] [] 0%nat.

(** The state a run starts in. *)
Definition world0 : World := World_init empty_db.

(** A site: three listing pages whose pagers go round in a circle.  The
    first lists one complete game and one entry without event link, and
    the detail page of that game frames a script; the second lists a game
    whose detail page has no frame. *)
Definition web : list (string * string) :=
  [ ("/p1", "<p1>"); ("/p2", "<p2>"); ("/p3", "<p3>"); ("/g1", "<g1>");
    ("/g2", "<g2>");
    ("/f1", "var strMoveList = ' abc'; StartBoard('N', 3); var beginFEN='fen';") ].

Definition doms : list (string * tag) :=
  [ ("<p1>", listing [game_div "A" "B" "1-0" "/g1" "E";
                      game_div_no_event "C" "D" "0-1" "/g2"] (Some "/p2"));
    ("<p2>", listing [game_div "C" "D" "0-1" "/g2" "F"] (Some "/p3"));
    ("<p3>", listing [] (Some "/p1"));
    ("<g1>", detail " /f1 ");
    ("<g2>", Node [] "no frame here" []) ].

Definition site : Platform := platform web doms.

(** The stub of the game listed on the first page, and a world that holds
    it at address 0 and a later reading of the same game at address 1. *)
Definition stub1 : PlayerGame := PlayerGame_init "A" "B" "E" "/g1" "1-0".
Definition stub1_later : PlayerGame :=
  set_move_list (Some "a1b2") (PlayerGame_init "A" "B" "E" "/g1" "0-1").
Definition world1 : World :=
  upd_game_heap (λ _, [stub1; stub1_later]) world0.

(** The stub of the game listed on the second page. *)
Definition stub2 : PlayerGame := PlayerGame_init "C" "D" "F" "/g2" "0-1".

(** The same site behind a network that answers the first request of a
    run and fails every later one. *)
Fixpoint requested (tr : list event_) : bool :=
  match tr with
  | [] => false
  | EGet _ _ :: _ => true
  | _ :: tr' => requested tr'
  end.

Definition flaky : Platform :=
  {| session_get := λ tr u _, if requested tr then inl (RequestException 1) else get web u;
     urljoin := λ _ href, href;
     Tag := tag;
     BeautifulSoup := λ html, default (Node [] EmptyString []) (assoc html doms);
     select := query;
     select_one := λ css t, head (query css t);
     tag_get := λ t a, assoc a (attrs_of t);
     get_text := text_of;
     pymongo_import := None;
     MongoClient := None;
     mongo_fault := λ _, None |}.

(** A site of one listing page whose pager leads nowhere. *)
Definition site_broken : Platform :=
  platform [("/q1", "<q1>")] [("<q1>", listing [] (Some "/gone"))].

(** A state in which one player without URL has been created. *)
Definition world_found : World :=
  upd_player_heap (λ _, [mkPlayer "B" EmptyString None]) world0.

(** A state in which player A, whose page is the first listing page, is
    the one player queued. *)
Definition world_queued : World :=
  upd_enqueued (λ _, [0%nat])
    (upd_player_queue (λ _, [0%nat])
       (upd_players (λ _, {["A" := 0%nat]})
          (upd_player_heap (λ _, [mkPlayer "A" "/p1" None]) world0))).

Definition page1 : GameList := mkGameList "<p1>" "/p1".
Definition page2 : GameList := mkGameList "<p2>" "/p2".
Definition page3 : GameList := mkGameList "<p3>" "/p3".

End Toy.

(** ** Vocabulary of the statements *)

(** A relation between the state before and the state after that every
    step of a computation respects, whatever the outcome.  Taking
    [R w w' := I w → I w'] makes it an invariant. *)
Definition steps (R : World → World → Prop) {A} (m : M A) : Prop :=
  ∀ w, R w (m w).2.
Definition gsteps (R : World → World → Prop) {Y} (g : World → GenRes Y) : Prop :=
  ∀ w, R w (g w).2.

(** The fields of a game that come from the listing page. *)
Definition same_stub (g g' : PlayerGame) : Prop :=
  red_player g' = red_player g ∧ black_player g' = black_player g ∧
  event g' = event g ∧ url g' = url g ∧ result g' = result g.

(** Every game object is still there and has kept the fields [keeps] is
    about. *)
Definition games_keep (keeps : PlayerGame → PlayerGame → Prop) (w w' : World) : Prop :=
  ∀ a g, game_heap w !! a = Some g → ∃ g', game_heap w' !! a = Some g' ∧ keeps g g'.

(** Every request to [u] fails: [session.get] raises, or the status is an
    error status. *)
Definition always_fails `{Platform} (u : string) (timeout : Z) : Prop :=
  ∀ w, ∃ e, (attempt_get u timeout w).1 = Raise e.

Definition is_get (ev : event_) : bool :=
  match ev with EGet _ _ => true | _ => false end.

(** The arguments of the [time.sleep] calls among some events. *)
Definition sleeps (evs : list event_) : list duration :=
  omap (λ ev, match ev with ESleep d => Some d | _ => None end) evs.

(** What a run of failing attempts does, oldest first: a request per
    attempt, and a sleep after each one but the last. *)
Definition retry_events (u : string) (timeout retries : Z) (backoff : Q)
    (range : list Z) : list event_ :=
  range ≫= λ attempt,
    EGet u timeout ::
    if attempt <? retries then [ESleep (Pow backoff (attempt - 1))] else [].

(** Lines 274-280: the URL the pager of a page leads to, if it has one. *)
Definition next_url `{Platform} (base_url html : string) : option string :=
  a ← select_one "#Content_pager_lblnext > a" (BeautifulSoup html);
  match Py.strip (default EmptyString (tag_get a "href")) with
  | EmptyString => None
  | String c href' => Some (urljoin base_url (String c href'))
  end.

(** [fetch_html(u)] returns [html], whenever it is called. *)
Definition serves `{Platform} (u html : string) : Prop :=
  ∀ w, (fetch_html u w).1 = Ok html.

(** Every page but the last has a pager that leads to the page after it. *)
Fixpoint chain `{Platform} (base_url : string) (pages : list GameList) : Prop :=
  match pages with
  | p :: (q :: _) as pages' =>
      next_url base_url (gl_html p) = Some (gl_url q) ∧ chain base_url pages'
  | _ => True
  end.

(** A loop body that raises no exception. *)
Definition never_raises {Y} (body : Y → M unit) : Prop :=
  ∀ y w, (body y w).1 = Ok tt.

(** Why the walk ends at a page: it has no pager link, or the link leads
    to a page of [visited], or [n] pages reach the ceiling. *)
Definition stops_at `{Platform} (base_url : string) (max_pages n : Z)
    (visited : gset string) (html : string) : Prop :=
  match next_url base_url html with
  | None => True
  | Some abs_url => abs_url ∈ visited ∨ n >= max_pages
  end.

(** The test of line 201: the page has a [#game] element whose [src]
    attribute is not empty. *)
Definition has_frame `{Platform} (html : string) : bool :=
  match select_one "#game" (BeautifulSoup html) ≫= (λ t, tag_get t "src") with
  | None | Some EmptyString => false
  | Some (String _ _) => true
  end.

(** The test of line 241: one of the four links is absent. *)
Definition missing_link `{Platform} (game_div : Tag) : bool :=
  match select_one "div.red > a" game_div, select_one "div.black > a" game_div,
        select_one "div.result > a" game_div, select_one "div.event > a" game_div with
  | Some _, Some _, Some _, Some _ => false
  | _, _, _, _ => true
  end.

(** The entries that get past lines 241 and 249: all four links are
    there and the result link has a target. *)
Definition well_formed `{Platform} (game_div : Tag) : bool :=
  negb (missing_link game_div) &&
  match select_one "div.result > a" game_div with
  | Some a_result =>
      match Py.strip (default EmptyString (tag_get a_result "href")) with
      | EmptyString => false
      | String _ _ => true
      end
  | None => false
  end.

(** The stub line 255 builds from an entry. *)
Definition stub_of `{Platform} (base_url : string) (game_div : Tag) : option PlayerGame :=
  a_red ← select_one "div.red > a" game_div;
  a_black ← select_one "div.black > a" game_div;
  a_result ← select_one "div.result > a" game_div;
  a_event ← select_one "div.event > a" game_div;
  match Py.strip (default EmptyString (tag_get a_result "href")) with
  | EmptyString => None
  | String c href' =>
      Some (PlayerGame_init (get_text a_red) (get_text a_black) (get_text a_event)
              (urljoin base_url (String c href')) (get_text a_result))
  end.

Definition same_move_list (g g' : PlayerGame) : Prop := move_list g' = move_list g.

(** Nothing but the trace differs. *)
Definition only_trace (w w' : World) : Prop := w' = upd_trace (λ _, trace w') w.

(** pymongo is installed, the client can be built and no operation on
    the server fails. *)
Definition mongo_up `{Platform} : Prop :=
  pymongo_import = None ∧ MongoClient = None ∧ ∀ tr, mongo_fault tr = None.

(** No two documents of a collection share their natural key. *)
Definition unique_keys (s : Store) : Prop :=
  NoDup (pd_name <$> players_col s) ∧ NoDup (ed_name <$> events_col s) ∧
  NoDup (gd_url <$> games_col s).

(** The database after the four upserts of one [save_game] of the game [g],
    the players being registered under the given URLs. *)
Definition store_after_save (g : PlayerGame) (red_url black_url : string) (s : Store) : Store :=
  let '(red_doc, s1) := players_find_one_and_update (red_player g) red_url s in
  let '(black_doc, s2) := players_find_one_and_update (black_player g) black_url s1 in
  let '(event_doc, s3) := events_find_one_and_update (event g) s2 in
  (games_update_one (url g)
     (λ i, mkGameDoc i (pd_id red_doc) (pd_id black_doc) (ed_id event_doc)
             (url g) (result g) (move_list g) (begin_fen g) (start_color g)) s3).2.

(** The fields of a game that [save_game] reads and does not assign. *)
Definition core (g : PlayerGame) :=
  (red_player g, black_player g, event g, url g, result g,
   move_list g, begin_fen g, start_color g).

(** What the upserts of [save_game] leave alone in memory. *)
Definition save_frame (game : addr) (w w' : World) : Prop :=
  core (game_heap w' !!! game) = core (game_heap w !!! game) ∧
  players w' = players w ∧ player_heap w' = player_heap w.

(** The registries and the objects they point to agree: a name leads to
    the one object of that name, every object is registered, no two
    objects share a name, and the players were appended to the queue in
    the order they were created, each once. *)
Definition heaps_ok (w : World) : Prop :=
  (∀ n a, players w !! n = Some a → p_name <$> player_heap w !! a = Some n) ∧
  (∀ p, p ∈ player_heap w → is_Some (players w !! p_name p)) ∧
  NoDup (p_name <$> player_heap w) ∧
  enqueued w = seq 0 (length (player_heap w)) ∧
  (∀ n a, events w !! n = Some a → e_name <$> event_heap w !! a = Some n) ∧
  (∀ e, e ∈ event_heap w → is_Some (events w !! e_name e)) ∧
  NoDup (e_name <$> event_heap w).

(** The players and the event of every game of the dedup set are
    registered. *)
Definition dedup_closed (w : World) : Prop :=
  ∀ r b e u, (r, b, e, u) ∈ games w →
    is_Some (players w !! r) ∧ is_Some (players w !! b) ∧ is_Some (events w !! e).

Definition registry_ok (w : World) : Prop := heaps_ok w ∧ dedup_closed w.

(** A step that keeps the heaps in order, forgets no name and leaves the
    dedup set alone. *)
Definition quiet (w w' : World) : Prop :=
  (heaps_ok w → heaps_ok w') ∧
  dom (players w) ⊆ dom (players w') ∧ dom (events w) ⊆ dom (events w') ∧
  games w' = games w.

(** ... and that leaves the identity of the game at [g] alone. *)
Definition quiet_at (g : addr) (w w' : World) : Prop :=
  quiet w w' ∧ game_key (game_heap w' !!! g) = game_key (game_heap w !!! g).

Definition keeps_registry (w w' : World) : Prop := registry_ok w → registry_ok w'.

(** Every character of a string satisfies [P]. *)
Fixpoint every_char (P : ascii → Prop) (s : string) : Prop :=
  match s with
  | EmptyString => True
  | String c s' => P c ∧ every_char P s'
  end.

(** A character that the capture group of a pattern can hold: an atom
    inside the group matches it. *)
Definition captured_by (p : list Re.item) (c : ascii) : Prop :=
  Exists (λ it, Re.it_group it = true ∧ Re.atom_matches (Re.it_atom it) c = true) p.

(** The least number of characters the capture group of a pattern holds:
    one for each grouped atom taken once or [+] times. *)
Fixpoint group_floor (p : list Re.item) : nat :=
  match p with
  | [] => 0
  | it :: p' =>
      ((if Re.it_group it
        then match Re.it_quant it with Re.Star => 0 | _ => 1 end
        else 0) + group_floor p')%nat
  end.


(** What one call of [fetch_html] may do: a request for [u], or the pause
    after a failed attempt that is not the last. *)
Definition fetch_event (u : string) (timeout retries : Z) (backoff : Q)
    (ev : event_) : Prop :=
  ev = EGet u timeout ∨
  ∃ attempt, 1 ≤ attempt < retries ∧ ev = ESleep (Pow backoff (attempt - 1)).

(** A response that [raise_for_status] lets through. *)
Definition status_ok (resp : Response) : Prop :=
  status_code resp < 400 ∨ 600 ≤ status_code resp.


(** Every exception that leaves a computation satisfies [P]. *)
Definition raises_only (P : exn → Prop) {A} (m : M A) : Prop :=
  ∀ w e, (m w).1 = Raise e → P e.


(** The assignments the script makes to the fields of a game it has
    built: the four ids in [save_game], the three parsed fields in
    [parse_game]. *)
Inductive assigns : (PlayerGame → PlayerGame) → Prop :=
| assigns_id v : assigns (set_id v)
| assigns_red_player_id v : assigns (set_red_player_id v)
| assigns_black_player_id v : assigns (set_black_player_id v)
| assigns_event_id v : assigns (set_event_id v)
| assigns_move_list v : assigns (set_move_list v)
| assigns_begin_fen v : assigns (set_begin_fen v)
| assigns_start_color v : assigns (set_start_color v).


(** The database has lost nothing: the player and event documents are
    there as they were, in front of the new ones; so are the URLs and the
    [_id]s of the game documents; and keys that were unique still are. *)
Definition store_grows (s s' : Store) : Prop :=
  players_col s `prefix_of` players_col s' ∧
  events_col s `prefix_of` events_col s' ∧
  (gd_url <$> games_col s) `prefix_of` (gd_url <$> games_col s') ∧
  (gd_id <$> games_col s) `prefix_of` (gd_id <$> games_col s') ∧
  (unique_keys s → unique_keys s').

Definition db_grows (w w' : World) : Prop := store_grows (store w) (store w').

(** The [Player] objects have kept their name and their URL, and those
    created since have no URL. *)
Definition players_settled (w w' : World) : Prop :=
  (∀ a p, player_heap w !! a = Some p →
     ∃ p', player_heap w' !! a = Some p' ∧ p_name p' = p_name p ∧ p_url p' = p_url p) ∧
  (∀ a p, player_heap w' !! a = Some p → (length (player_heap w) ≤ a)%nat →
     p_url p = EmptyString).

(** The queue is what is left of the players appended so far. *)
Definition queue_pending (w : World) : Prop :=
  ∃ popped, enqueued w = popped ++ player_queue w.


(** As many game objects as before. *)
Definition same_game_count (w w' : World) : Prop :=
  length (game_heap w') = length (game_heap w).


(** Nothing was forgotten: the games seen and the names registered. *)
Definition remembers (w w' : World) : Prop :=
  games w ⊆ games w' ∧ dom (players w) ⊆ dom (players w') ∧
  dom (events w) ⊆ dom (events w').

(** The names the first loop of [parse_home_page] reads off the entries
    of the start page: those of the entries with both player links. *)
Fixpoint seed_names `{Platform} (divs : list Tag) : gset string :=
  match divs with
  | [] => ∅
  | game_div :: divs' =>
      match select_one "div.red > a" game_div, select_one "div.black > a" game_div with
      | Some a_red, Some a_black => {[get_text a_red; get_text a_black]}
      | _, _ => ∅
      end ∪ seed_names divs'
  end.


(** * The string primitives at work *)

Example strip_both_ends : Py.strip "  a b  " = "a b".
Proof. reflexivity. Qed.

Example replace_marker :
  Py.replace "ab" "X" "cabaabb" = "cXaXb" ∧ Py.replace EmptyString "-" "abc" = "-a-b-c-".
Proof. split; reflexivity. Qed.

Example search_single_quoted :
  Re.search (Re.assignment "strMoveList") "var strMoveList = 'a1b2 ';x" = Some "a1b2 ".
Proof. by vm_compute. Qed.

Example search_double_quoted :
  Re.search (Re.assignment "beginFEN")
    ("beginFEN=" +:+ String Re.dquote ("rnb w" +:+ String Re.dquote ";")) = Some "rnb w".
Proof. by vm_compute. Qed.

Example search_nonce :
  Re.search Re.start_board "x; StartBoard('k9', 'board', 1);" = Some "k9".
Proof. by vm_compute. Qed.

Example search_nothing_quoted :
  Re.search (Re.assignment "strMoveList") "strMoveList = '';" = None.
Proof. by vm_compute. Qed.

(** * Reasoning about computations *)

Arguments Re.search : simpl never.
Arguments Py.strip : simpl never.
Arguments Py.replace : simpl never.

Section Steps.
Context `{Platform}.
Variable R : World → World → Prop.
Hypothesis R_refl : ∀ w, R w w.
Hypothesis R_trans : ∀ w1 w2 w3, R w1 w2 → R w2 w3 → R w1 w3.

Local Abbreviation steps := (steps R).
Local Abbreviation gsteps := (gsteps R).

Lemma steps_ret {A} (a : A) : steps (mret a).
Proof. intros w. apply R_refl. Qed.

Lemma steps_raise {A} (e : exn) : steps (raise (A:=A) e).
Proof. intros w. apply R_refl. Qed.

Lemma steps_gets {A} (f : World → A) : steps (gets f).
Proof. intros w. apply R_refl. Qed.

Lemma steps_modify (f : World → World) : (∀ w, R w (f w)) → steps (modify f).
Proof. intros Hf w. apply Hf. Qed.

Lemma steps_bind {A B} (m : M A) (k : A → M B) :
  steps m → (∀ a, steps (k a)) → steps (m ≫= k).
Proof.
  intros Hm Hk w. specialize (Hm w). unfold mbind, M_bind.
  destruct (m w) as [[a|e] w']; simpl in *; [|done].
  eapply R_trans; [exact Hm|apply Hk].
Qed.

Lemma steps_try {A} (m : M A) (h : exn → M A) :
  steps m → (∀ e, steps (h e)) → steps (try_except m h).
Proof.
  intros Hm Hh w. specialize (Hm w). unfold try_except.
  destruct (m w) as [[a|e] w']; simpl in *; [done|].
  eapply R_trans; [exact Hm|apply Hh].
Qed.

Lemma gsteps_run_then {A Y} (m : M A) (k : A → World → GenRes Y) :
  steps m → (∀ a, gsteps (k a)) → gsteps (run_then m k).
Proof.
  intros Hm Hk w. specialize (Hm w). unfold run_then.
  destruct (m w) as [[a|e] w']; simpl in *; [|done].
  eapply R_trans; [exact Hm|apply Hk].
Qed.

Lemma gsteps_yield_then {Y} (body : Y → M unit) (y : Y) (k : World → GenRes Y) :
  steps (body y) → gsteps k → gsteps (yield_then body y k).
Proof.
  intros Hb Hk w. specialize (Hb w). unfold yield_then.
  destruct (body y w) as [[a|e] w']; simpl in *; [|done].
  specialize (Hk w'). destruct (k w') as [[ys r] w'']; simpl in *.
  eapply R_trans; [exact Hb|exact Hk].
Qed.

Lemma steps_for_each {Y} (gen : (Y → M unit) → World → GenRes Y) (body : Y → M unit) :
  gsteps (gen body) → steps (for_each gen body).
Proof.
  intros Hg w. specialize (Hg w). unfold for_each.
  by destruct (gen body w) as [[ys r] w'].
Qed.

Lemma steps_attr {A} (f : PlayerGame → A) game : steps (attr f game).
Proof. apply steps_gets. Qed.

(** One syntax-directed step of a proof of [steps m]. *)
Ltac steps_step :=
  lazymatch goal with
  | |- steps (mbind _ _) => apply steps_bind; [|intros ?]
  | |- steps (mret _) => apply steps_ret
  | |- steps (raise _) => apply steps_raise
  | |- steps (gets _) => apply steps_gets
  | |- steps (attr _ _) => apply steps_attr
  | |- steps (try_except _ _) => apply steps_try; [|intros ?]
  | |- steps (match ?x with _ => _ end) => destruct x
  end.

(** *** Computations that only talk to the network *)

Hypothesis R_trace : ∀ f w, R w (upd_trace f w).

Lemma steps_emit ev : steps (emit ev).
Proof. apply steps_modify. intros w. apply R_trace. Qed.

Lemma steps_log lvl fmt args : steps (log lvl fmt args).
Proof. apply steps_modify. intros w. apply R_trace. Qed.

Lemma steps_attempt_get u timeout : steps (attempt_get u timeout).
Proof.
  intros w. unfold attempt_get.
  destruct (session_get _ _ _) as [e|resp]; [apply R_trace|].
  destruct (_ && _); apply R_trace.
Qed.

Lemma steps_fetch_loop u timeout retries backoff range last_err :
  steps (fetch_loop u timeout retries backoff range last_err).
Proof.
  revert last_err. induction range as [|attempt range IH]; intros last_err; simpl.
  - apply steps_raise.
  - apply steps_try; [apply steps_attempt_get|]. intros e.
    destruct (attempt <? retries); [|apply steps_raise].
    apply steps_bind; [apply steps_emit|]. intros _. apply IH.
Qed.

Lemma steps_fetch_html u : steps (fetch_html u).
Proof. apply steps_fetch_loop. Qed.

(** *** [save_game] and [parse_game] *)

Hypothesis R_store : ∀ f w, R w (upd_store f w).
Hypothesis R_set_id : ∀ a v w, R w (upd_game_heap (alter (set_id v) a) w).
Hypothesis R_set_red_player_id :
  ∀ a v w, R w (upd_game_heap (alter (set_red_player_id v) a) w).
Hypothesis R_set_black_player_id :
  ∀ a v w, R w (upd_game_heap (alter (set_black_player_id v) a) w).
Hypothesis R_set_event_id : ∀ a v w, R w (upd_game_heap (alter (set_event_id v) a) w).
Hypothesis R_cache_player_id : ∀ name v, steps (cache_player_id name v).
Hypothesis R_cache_event : ∀ name v, steps (cache_event name v).

Lemma steps_on_store {A} c key (op : Store → A * Store) : steps (on_store c key op).
Proof.
  apply steps_bind.
  - intros w. unfold round_trip. destruct (mongo_fault _); apply R_trace.
  - intros _ w. cbn. destruct (op (store w)) as [a s]. apply R_store.
Qed.

Lemma steps_save_game_try game : steps (save_game_try game).
Proof.
  unfold save_game_try, upsert_player, upsert_event, upsert_game, update_caches.
  repeat first
    [ steps_step | apply steps_log | apply steps_on_store
    | apply R_cache_player_id | apply R_cache_event
    | apply steps_modify; solve [auto] ].
Qed.

Lemma steps_save_game game : steps (save_game game).
Proof.
  unfold save_game. destruct pymongo_import.
  { apply steps_bind; [apply steps_gets|]. intros ?. apply steps_log. }
  destruct MongoClient; [apply steps_raise|].
  intros w. pose proof (steps_save_game_try game w) as Hw.
  destruct (save_game_try game w) as [[a|e] w']; simpl in *; [done|].
  destruct (is_PyMongoError e); simpl; [|done].
  eapply R_trans; [exact Hw|]. apply R_trace.
Qed.

Hypothesis R_set_move_list : ∀ a v w, R w (upd_game_heap (alter (set_move_list v) a) w).
Hypothesis R_set_begin_fen : ∀ a v w, R w (upd_game_heap (alter (set_begin_fen v) a) w).
Hypothesis R_set_start_color :
  ∀ a v w, R w (upd_game_heap (alter (set_start_color v) a) w).

Lemma steps_extract_begin_fen frame_html game : steps (extract_begin_fen frame_html game).
Proof.
  unfold extract_begin_fen. destruct (Re.search _ _); [|apply steps_ret].
  apply steps_modify. auto.
Qed.

Lemma steps_extract_start_color frame_html game :
  steps (extract_start_color frame_html game).
Proof.
  unfold extract_start_color. destruct (Re.search _ _); [|apply steps_ret].
  apply steps_modify. auto.
Qed.

Lemma steps_extract_move_list frame_html game : steps (extract_move_list frame_html game).
Proof.
  unfold extract_move_list. destruct (Re.search _ _); apply steps_modify; auto.
Qed.

Lemma steps_enrich frame_html game : steps (enrich frame_html game).
Proof.
  unfold enrich.
  repeat first
    [ steps_step | apply steps_extract_move_list | apply steps_extract_begin_fen
    | apply steps_extract_start_color | apply steps_save_game ].
Qed.

Lemma steps_parse_game html base_url game : steps (parse_game html base_url game).
Proof.
  unfold parse_game. destruct (_ ≫= _) as [[|c src]|]; try apply steps_raise.
  apply steps_bind; [apply steps_fetch_html|]. intros ?. apply steps_enrich.
Qed.

End Steps.

(** * What [parse_game] leaves alone *)

Section GamesKeep.
Context `{Platform}.
Variable keeps : PlayerGame → PlayerGame → Prop.
Hypothesis keeps_refl : ∀ g, keeps g g.
Hypothesis keeps_trans : ∀ g1 g2 g3, keeps g1 g2 → keeps g2 g3 → keeps g1 g3.

Lemma games_keep_refl w : games_keep keeps w w.
Proof. intros a g Hg. eauto. Qed.

Lemma games_keep_trans w1 w2 w3 :
  games_keep keeps w1 w2 → games_keep keeps w2 w3 → games_keep keeps w1 w3.
Proof.
  intros H12 H23 a g Hg. destruct (H12 a g Hg) as (g2 & Hg2 & K12).
  destruct (H23 a g2 Hg2) as (g3 & Hg3 & K23). eauto.
Qed.

Lemma games_keep_same_heap w w' : game_heap w' = game_heap w → games_keep keeps w w'.
Proof. intros E a g Hg. rewrite E. eauto. Qed.

Lemma games_keep_alter setter a w :
  (∀ g, keeps g (setter g)) → games_keep keeps w (upd_game_heap (alter setter a) w).
Proof.
  intros Hs b g Hg. simpl. destruct (decide (a = b)) as [->|Hne].
  - exists (setter g). split; [|apply Hs]. by rewrite list_lookup_alter_eq, Hg.
  - exists g. split; [|apply keeps_refl]. by rewrite list_lookup_alter_ne.
Qed.

Lemma games_keep_cache_player_id name v : steps (games_keep keeps) (cache_player_id name v).
Proof.
  intros w. apply games_keep_same_heap. cbn. by destruct (players w !! name).
Qed.

Lemma games_keep_cache_event name v : steps (games_keep keeps) (cache_event name v).
Proof.
  intros w. apply games_keep_same_heap.
  unfold cache_event, mbind, M_bind, gets. by case_bool_decide.
Qed.

(** [save_game] assigns the four id fields and nothing else. *)
Lemma games_keep_save_game game :
  (∀ v g, keeps g (set_id v g)) → (∀ v g, keeps g (set_red_player_id v g)) →
  (∀ v g, keeps g (set_black_player_id v g)) → (∀ v g, keeps g (set_event_id v g)) →
  steps (games_keep keeps) (save_game game).
Proof.
  intros K1 K2 K3 K4.
  apply steps_save_game;
    eauto using games_keep_refl, games_keep_trans, games_keep_same_heap,
      games_keep_alter, games_keep_cache_player_id, games_keep_cache_event.
Qed.

End GamesKeep.

Lemma same_stub_refl g : same_stub g g.
Proof. by repeat split. Qed.

Lemma same_stub_trans g1 g2 g3 : same_stub g1 g2 → same_stub g2 g3 → same_stub g1 g3.
Proof. unfold same_stub. intros (?&?&?&?&?) (?&?&?&?&?). repeat split; congruence. Qed.

Section ParseGameFrame.
Context `{Platform}.

Lemma parse_game_keeps_stub html base_url game :
  steps (games_keep same_stub) (parse_game html base_url game).
Proof.
  apply steps_parse_game;
    eauto using games_keep_refl, games_keep_trans, games_keep_same_heap,
      games_keep_cache_player_id, games_keep_cache_event, same_stub_refl,
      same_stub_trans;
    intros; apply games_keep_alter; auto using same_stub_refl; intros; by repeat split.
Qed.

Lemma enrich_returns frame_html game w a : (enrich frame_html game w).1 = Ok a → a = game.
Proof.
  unfold enrich, mbind, M_bind.
  repeat match goal with
         | |- context [match ?m ?w with _ => _ end] =>
             lazymatch type of w with World => destruct (m w) as [[?|?] ?] end
         end; simpl; congruence.
Qed.

Lemma parse_game_returns html base_url game w a :
  (parse_game html base_url game w).1 = Ok a → a = game.
Proof.
  unfold parse_game. destruct (_ ≫= _) as [[|c src]|]; try discriminate.
  unfold mbind at 1, M_bind at 1. destruct (fetch_html _ w) as [[fh|e] w1]; [|discriminate].
  apply enrich_returns.
Qed.

(** C10.  [parse_game] leaves [red_player], [black_player], [event], [url]
    and [result] of the game it is given as they were, however it ends,
    and when it returns it returns that same object. *)
Theorem parse_game_frame html base_url game w g :
  game_heap w !! game = Some g →
  ∃ g', game_heap (parse_game html base_url game w).2 !! game = Some g' ∧
        red_player g' = red_player g ∧ black_player g' = black_player g ∧
        event g' = event g ∧ url g' = url g ∧ result g' = result g ∧
        ∀ a, (parse_game html base_url game w).1 = Ok a → a = game.
Proof.
  intros Hg. destruct (parse_game_keeps_stub html base_url game w game g Hg)
    as (g' & Hg' & ? & ? & ? & ? & ?).
  exists g'. repeat split; try done. intros a. apply parse_game_returns.
Qed.

End ParseGameFrame.

(** * [fetch_html] against an endpoint that always fails *)

Section Retries.
Context `{Platform}.
Variables (u : string) (timeout retries : Z) (backoff : Q).
Hypothesis Hfails : always_fails u timeout.

Lemma attempt_get_trace w : trace (attempt_get u timeout w).2 = EGet u timeout :: trace w.
Proof.
  unfold attempt_get. destruct (session_get _ _ _); [done|]. by destruct (_ && _).
Qed.

(** The loop over a range whose last attempt is number [retries]. *)
Lemma fetch_loop_fails early last_err w :
  Forall (λ attempt, attempt < retries) early →
  ∃ e w_last,
    fetch_loop u timeout retries backoff (early ++ [retries]) last_err w
      = attempt_get u timeout w_last ∧
    (attempt_get u timeout w_last).1 = Raise e ∧
    trace (attempt_get u timeout w_last).2
      = rev (retry_events u timeout retries backoff (early ++ [retries])) ++ trace w.
Proof.
  intros Hearly. revert last_err w.
  induction Hearly as [|attempt early Hlt _ IH]; intros last_err w; simpl.
  - destruct (Hfails w) as [e He]. exists e, w. unfold try_except.
    pose proof (attempt_get_trace w) as Ht.
    destruct (attempt_get u timeout w) as [[a|e'] w'] eqn:E; simpl in *; [done|].
    rewrite Z.ltb_irrefl. cbn. by rewrite Ht.
  - destruct (Hfails w) as [e He]. unfold try_except at 1.
    pose proof (attempt_get_trace w) as Ht.
    destruct (attempt_get u timeout w) as [[a|e'] w'] eqn:E; simpl in *; [done|].
    assert ((attempt <? retries) = true) as -> by lia.
    unfold mbind at 1, M_bind at 1. cbn -[fetch_loop retry_events].
    destruct (IH (Some e') (upd_trace (cons (ESleep (Pow backoff (attempt - 1)))) w'))
      as (e2 & w_last & Heq & Hraise & Htr).
    exists e2, w_last. split; [done|]. split; [done|].
    rewrite Htr. cbn. rewrite Ht, <- !app_assoc. done.
Qed.

Lemma retry_events_gets range :
  length (filter is_get (retry_events u timeout retries backoff range)) = length range.
Proof.
  induction range as [|attempt range IH]; [done|].
  unfold retry_events in *. cbn [mbind list_bind]. rewrite filter_app, length_app, IH.
  by destruct (attempt <? retries).
Qed.

Lemma retry_events_sleeps early :
  Forall (λ attempt, attempt < retries) early →
  sleeps (retry_events u timeout retries backoff (early ++ [retries]))
    = (λ attempt, Pow backoff (attempt - 1)) <$> early.
Proof.
  induction 1 as [|attempt early Hlt _ IH]; unfold retry_events, sleeps in *; cbn.
  - by rewrite Z.ltb_irrefl.
  - assert ((attempt <? retries) = true) as -> by lia. cbn. by rewrite IH.
Qed.

End Retries.

Lemma range_split (n : Z) :
  1 ≤ n → seqZ 1 n = seqZ 1 (n - 1) ++ [n] ∧ Forall (λ attempt, attempt < n) (seqZ 1 (n - 1)).
Proof.
  intros Hn. split.
  - replace n with ((n - 1) + 1) at 1 by lia. rewrite seqZ_app by lia.
    f_equal. replace (1 + (n - 1)) with n by lia. by rewrite seqZ_cons, seqZ_nil by lia.
  - apply Forall_forall. intros a Ha%list_elem_of_lookup. destruct Ha as [i Hi].
    apply lookup_seqZ in Hi. lia.
Qed.

(** With [retries <= 0] the loop body never runs: no request is made and
    the [raise] after the loop is reached, with no cause. *)
Lemma fetch_html_no_attempt `{Platform} (u : string) (timeout n : Z) (backoff : Q) w :
  n ≤ 0 →
  fetch_html_with u timeout n backoff w
    = (Raise (RuntimeError ("Failed to fetch " +:+ u) None), w).
Proof. intros Hn. unfold fetch_html_with. by rewrite seqZ_nil. Qed.


(** * The pages of one pagination walk *)

Section Pagination.
Context `{Platform}.

Lemma yield_then_yields {Y} (body : Y → M unit) (y : Y) (k : World → GenRes Y) w :
  ∃ ys, (yield_then body y k w).1.1 = y :: ys ∧
        (ys = [] ∨ ∃ w', ys = (k w').1.1).
Proof.
  unfold yield_then. destruct (body y w) as [[a|e] w']; simpl.
  - destruct (k w') as [[ys r] w''] eqn:E. exists ys. split; [done|]. right.
    exists w'. by rewrite E.
  - exists []. auto.
Qed.

(** The loop yields only pages whose URL is not in [seen], each once. *)
Lemma pagination_loop_fresh base_url max_pages body soup pages_fetched seen w :
  NoDup (gl_url <$> (pagination_loop base_url max_pages body soup pages_fetched seen w).1.1) ∧
  ∀ y, y ∈ (pagination_loop base_url max_pages body soup pages_fetched seen w).1.1 →
       gl_url y ∉ seen.
Proof.
  funelim (pagination_loop base_url max_pages body soup pages_fetched seen w).
  destruct (select_one _ soup) as [a|]; [|split; [constructor|set_solver]].
  destruct (Py.strip _) as [|c href']; [split; [constructor|set_solver]|].
  destruct (decide _) as [Hstop|Hgo]; [split; [constructor|set_solver]|].
  destruct (fetch_html _ w) as [[html|e] w1] eqn:Hfetch;
    [|split; [constructor|set_solver]].
  destruct (yield_then_yields body (mkGameList html (urljoin base_url (String c href')))
              (λ w2, pagination_loop base_url max_pages body (BeautifulSoup html)
                       (pages_fetched + 1) (seen ∪ {[urljoin base_url (String c href')]}) w2)
              w1) as (ys & -> & Hys).
  assert (NoDup (gl_url <$> ys) ∧
          ∀ y, y ∈ ys → gl_url y ∉ seen ∪ {[urljoin base_url (String c href')]}) as [Hnd Hfresh].
  { destruct Hys as [->|[w' ->]]; [split; [constructor|set_solver]|].
    match goal with
    | IH : context [NoDup] |- _ => apply (IH a c href' Hgo (Ok html) w1)
    end. }
  split.
  - cbn. constructor; [|done]. intros Hin%list_elem_of_fmap.
    destruct Hin as (y & Hy & Hin). specialize (Hfresh y Hin). set_solver.
  - intros y [->|Hin]%elem_of_cons; cbn; [tauto|].
    specialize (Hfresh y Hin). set_solver.
Qed.

(** C9.  The pages yielded by one call of [parse_pagination_links] have
    pairwise distinct URLs, whatever the site serves and whatever the
    consumer does between two pages. *)
Theorem pagination_urls_distinct base_url max_pages body w :
  NoDup (gl_url <$> (parse_pagination_links base_url max_pages body w).1.1).
Proof.
  unfold parse_pagination_links, run_then.
  destruct (fetch_html base_url w) as [[html|e] w1]; [|constructor].
  cbn zeta.
  destruct (yield_then_yields body (mkGameList html base_url)
              (pagination_loop base_url max_pages body (BeautifulSoup html) 1 {[base_url]})
              w1) as (ys & -> & Hys).
  cbn. destruct Hys as [->|[w' ->]]; [repeat constructor; set_solver|].
  destruct (pagination_loop_fresh base_url max_pages body (BeautifulSoup html) 1
              {[base_url]} w') as [Hnd Hfresh].
  constructor; [|done]. intros Hin%list_elem_of_fmap.
  destruct Hin as (y & Hy & Hin). specialize (Hfresh y Hin). set_solver.
Qed.

Lemma pagination_loop_next base_url max_pages body html pages_fetched seen w :
  pagination_loop base_url max_pages body (BeautifulSoup html) pages_fetched seen w =
  match next_url base_url html with
  | None => ([], Ok tt, w)
  | Some abs_url =>
      if decide (abs_url ∈ seen ∨ pages_fetched >= max_pages) then
        ([], Ok tt,
         logged INFO "Reached seen page or max_pages (%d). Stopping pagination."
           [AInt max_pages] w)
      else
        match fetch_html abs_url w with
        | (Raise e, w1) =>
            ([], Ok tt,
             logged WARNING "Failed to fetch page %s: %s" [AStr abs_url; AExn e] w1)
        | (Ok html', w1) =>
            yield_then body (mkGameList html' abs_url)
              (pagination_loop base_url max_pages body (BeautifulSoup html')
                 (pages_fetched + 1) (seen ∪ {[abs_url]})) w1
        end
  end.
Proof.
  rewrite pagination_loop_equation_1. unfold next_url.
  destruct (select_one _ _) as [a|]; [|done]. cbn.
  by destruct (Py.strip _).
Qed.

(** The loop, started on page [p] of a chain: it yields the pages after
    [p] and stops at the last one. *)
Lemma pagination_loop_chain base_url max_pages body :
  never_raises body →
  ∀ rest p pages_fetched seen w final,
    chain base_url (p :: rest) →
    last (p :: rest) = Some final →
    Forall (λ q, serves (gl_url q) (gl_html q)) rest →
    NoDup (gl_url <$> rest) →
    (∀ q, q ∈ rest → gl_url q ∉ seen) →
    pages_fetched + Z.of_nat (length rest) ≤ max_pages ∨ rest = [] →
    stops_at base_url max_pages (pages_fetched + Z.of_nat (length rest))
      (seen ∪ list_to_set (gl_url <$> rest)) (gl_html final) →
    (pagination_loop base_url max_pages body (BeautifulSoup (gl_html p))
       pages_fetched seen w).1 = (rest, Ok tt).
Proof.
  intros Hbody rest. induction rest as [|q rest IH];
    intros p pages_fetched seen w final Hchain Hlast Hserves Hnd Hfresh Hroom Hstop;
    rewrite pagination_loop_next.
  - injection Hlast as <-. unfold stops_at in Hstop. cbn in Hstop.
    destruct (next_url base_url (gl_html p)) as [abs_url|]; [|done].
    rewrite decide_True; [done|]. destruct Hstop; [left; set_solver|right; lia].
  - destruct Hchain as [-> Hchain]. destruct Hroom as [Hroom|?]; [|done].
    cbn [length] in Hroom.
    rewrite decide_False.
    2:{ intros [Hin|Hge]; [|lia]. apply (Hfresh q); [left|done]. }
    apply Forall_cons in Hserves as [Hq Hserves]. specialize (Hq w).
    destruct (fetch_html (gl_url q) w) as [[html'|e] w1]; cbn [fst] in Hq; [|done].
    injection Hq as ->. unfold yield_then.
    specialize (Hbody (mkGameList (gl_html q) (gl_url q)) w1).
    destruct (body _ w1) as [[[]|e] w2]; cbn [fst] in Hbody; [|done].
    rewrite fmap_cons in Hnd. apply NoDup_cons in Hnd as [Hq_fresh Hnd].
    rewrite last_cons_cons in Hlast.
    specialize (IH q (pages_fetched + 1) (seen ∪ {[gl_url q]}) w2 final Hchain Hlast
                  Hserves Hnd).
    destruct (pagination_loop _ _ _ _ _ _ w2) as [[ys r] w3]. cbn [fst snd] in *.
    destruct q as [qh qu]. cbn [gl_html gl_url] in *.
    enough ((ys, r) = (rest, Ok ())) as E by congruence.
    apply IH.
    + intros q' Hq'. specialize (Hfresh q' (list_elem_of_further _ _ _ Hq')).
      assert (gl_url q' ≠ qu); [|set_solver].
      intros <-. apply Hq_fresh. by apply list_elem_of_fmap_2.
    + destruct rest; [by right|left]. cbn [length] in *. lia.
    + replace (pages_fetched + 1 + Z.of_nat (length rest))
        with (pages_fetched + Z.of_nat (S (length rest))) by lia.
      replace (seen ∪ {[qu]} ∪ list_to_set (gl_url <$> rest))
        with (seen ∪ list_to_set (gl_url <$> (mkGameList qh qu) :: rest)) by set_solver.
      exact Hstop.
Qed.

(** The whole walk over a chain that starts at [base_url]. *)
Lemma pagination_walk base_url max_pages body p rest final w :
  never_raises body →
  gl_url p = base_url →
  chain base_url (p :: rest) →
  last (p :: rest) = Some final →
  Forall (λ q, serves (gl_url q) (gl_html q)) (p :: rest) →
  NoDup (gl_url <$> p :: rest) →
  Z.of_nat (length (p :: rest)) ≤ max_pages ∨ rest = [] →
  stops_at base_url max_pages (Z.of_nat (length (p :: rest)))
    (list_to_set (gl_url <$> p :: rest)) (gl_html final) →
  (parse_pagination_links base_url max_pages body w).1 = (p :: rest, Ok tt).
Proof.
  intros Hbody Hp Hchain Hlast Hserves Hnd Hroom Hstop.
  apply Forall_cons in Hserves as [Hserve Hserves]. rewrite Hp in Hserve.
  specialize (Hserve w). unfold parse_pagination_links, run_then.
  destruct (fetch_html base_url w) as [[html|e] w1]; cbn [fst] in Hserve; [|done].
  injection Hserve as ->. cbn zeta. unfold yield_then.
  pose proof (Hbody (mkGameList (gl_html p) base_url) w1) as Hb.
  destruct (body _ w1) as [[[]|e] w2]; cbn [fst] in Hb; [|done].
  rewrite fmap_cons in Hnd, Hstop. apply NoDup_cons in Hnd as [Hp_fresh Hnd].
  pose proof (pagination_loop_chain base_url max_pages body Hbody rest p 1
                {[base_url]} w2 final Hchain Hlast Hserves Hnd) as Hloop.
  destruct (pagination_loop _ _ _ _ _ _ w2) as [[ys r] w3]. cbn [fst snd] in *.
  destruct p as [ph pu]. cbn [gl_html gl_url] in *. subst pu.
  enough ((ys, r) = (rest, Ok ())) as E by congruence.
  apply Hloop.
  - intros q Hq. assert (gl_url q ≠ base_url); [|set_solver].
    intros E. apply Hp_fresh. rewrite <- E. by apply list_elem_of_fmap_2.
  - destruct Hroom as [Hroom| ->]; [left|by right]. cbn [length] in Hroom. lia.
  - replace (1 + Z.of_nat (length rest)) with (Z.of_nat (length (mkGameList ph base_url :: rest)))
      by (cbn [length]; lia).
    exact Hstop.
Qed.

(** The start page is yielded before [max_pages] is looked at: with a
    ceiling of one page or less the walk is that page. *)
Lemma pagination_floor base_url max_pages body w html :
  never_raises body →
  max_pages ≤ 1 →
  serves base_url html →
  (parse_pagination_links base_url max_pages body w).1
    = ([mkGameList html base_url], Ok tt).
Proof.
  intros Hbody Hmax Hserves.
  apply (pagination_walk _ _ _ _ _ (mkGameList html base_url)); try done.
  - by constructor.
  - apply NoDup_singleton.
  - by right.
  - unfold stops_at. destruct (next_url _ _); [right; cbn; lia|done].
Qed.

(** C4.  Along a chain of servable pages with pairwise distinct URLs, each
    linked to the next by its pager, a walk with [max_pages = m] yields
    exactly the first [m] pages: [m] of them, the page at the starting URL
    first, and then ends normally. *)
Theorem pagination_ceiling base_url (m : Z) body w p rest :
  never_raises body →
  1 ≤ m →
  Z.of_nat (length (p :: rest)) = m →
  gl_url p = base_url →
  Forall (λ q, serves (gl_url q) (gl_html q)) (p :: rest) →
  chain base_url (p :: rest) →
  NoDup (gl_url <$> p :: rest) →
  let ys := (parse_pagination_links base_url m body w).1.1 in
  ys = p :: rest ∧ Z.of_nat (length ys) = m ∧
  gl_url <$> head ys = Some base_url ∧
  (parse_pagination_links base_url m body w).1.2 = Ok tt.
Proof.
  intros Hbody Hm Hlen Hp Hserves Hchain Hnd ys.
  destruct (last (p :: rest)) as [final|] eqn:Hlast.
  2:{ by apply last_None in Hlast. }
  assert ((parse_pagination_links base_url m body w).1 = (p :: rest, Ok tt)) as E.
  { eapply pagination_walk; eauto; [left; lia|].
    unfold stops_at. destruct (next_url _ _); [right; lia|done]. }
  subst ys. rewrite E. cbn [fst snd head fmap option_fmap option_map]. by rewrite Hp.
Qed.

(** C5.  When the pager of some page of the walk leads back to a page
    already visited, the walk ends there: the pages up to that one are
    yielded, each once, and the generator returns. *)
Theorem pagination_cycle base_url max_pages body w p rest final back :
  never_raises body →
  gl_url p = base_url →
  Forall (λ q, serves (gl_url q) (gl_html q)) (p :: rest) →
  chain base_url (p :: rest) →
  NoDup (gl_url <$> p :: rest) →
  Z.of_nat (length (p :: rest)) ≤ max_pages →
  last (p :: rest) = Some final →
  next_url base_url (gl_html final) = Some back →
  back ∈ gl_url <$> p :: rest →
  (parse_pagination_links base_url max_pages body w).1 = (p :: rest, Ok tt).
Proof.
  intros Hbody Hp Hserves Hchain Hnd Hlen Hlast Hnext Hback.
  eapply pagination_walk; eauto.
  unfold stops_at. rewrite Hnext. left. by apply elem_of_list_to_set.
Qed.

End Pagination.

(** * Game entries and their enrichment *)

Section Entries.
Context `{Platform}.

Lemma only_trace_refl w : only_trace w w.
Proof. by destruct w. Qed.

Lemma only_trace_trans w1 w2 w3 : only_trace w1 w2 → only_trace w2 w3 → only_trace w1 w3.
Proof. unfold only_trace. intros -> ->. by destruct w1. Qed.

Lemma only_trace_upd f w : only_trace w (upd_trace f w).
Proof. by destruct w. Qed.

Lemma fetch_html_only_trace u w : only_trace w (fetch_html u w).2.
Proof.
  apply (steps_fetch_html only_trace only_trace_refl only_trace_trans only_trace_upd).
Qed.

Lemma fetch_html_game_heap u w : game_heap (fetch_html u w).2 = game_heap w.
Proof. by rewrite (fetch_html_only_trace u w). Qed.

(** Without a frame [parse_game] raises at once. *)
Lemma parse_game_raises html base_url game w :
  has_frame html = false →
  parse_game html base_url game w
    = (Raise (ValueError ("No #game iframe with src found on " +:+ base_url)), w).
Proof.
  unfold has_frame, parse_game. by destruct (_ ≫= _) as [[|c src]|].
Qed.

(** What [game_entry] does with an entry that has its four links and a
    target, in terms of what fetching and parsing the detail page do. *)
Lemma game_entry_stub base_url game_div stub w :
  stub_of base_url game_div = Some stub →
  game_entry base_url game_div w =
    let game := length (game_heap w) in
    let w1 := upd_game_heap (λ h, h ++ [stub]) w in
    match fetch_html (url stub) w1 with
    | (Ok game_html, w2) =>
        match parse_game game_html (url stub) game w2 with
        | (Ok _, w3) => (Ok (Some game), w3)
        | (Raise e, w3) =>
            (Ok (Some game),
             logged WARNING "Failed to parse game %s: %s" [AStr (url stub); AExn e] w3)
        end
    | (Raise e, w2) =>
        (Ok (Some game),
         logged WARNING "Failed to parse game %s: %s" [AStr (url stub); AExn e] w2)
    end.
Proof.
  unfold stub_of, game_entry. intros Hstub.
  destruct (select_one "div.red > a" game_div) as [a_red|]; [|done].
  destruct (select_one "div.black > a" game_div) as [a_black|]; [|done].
  destruct (select_one "div.result > a" game_div) as [a_result|]; [|done].
  destruct (select_one "div.event > a" game_div) as [a_event|]; [|done].
  cbn in Hstub. destruct (Py.strip _) as [|c href']; [done|].
  injection Hstub as <-. cbn [url PlayerGame_init].
  unfold mbind, M_bind, try_except, new_game. cbn zeta.
  destruct (fetch_html _ _) as [[game_html|e] w2]; [|done].
  by destruct (parse_game _ _ _ w2) as [[?|e] w3].
Qed.

(** C3.  A detail page without a [#game] element carrying a non-empty
    [src] makes [parse_game] raise the not-found error before anything is
    fetched or changed; [parse_game_links] catches it, logs a warning and
    yields the stub as it was built from the listing entry, with
    [move_list], [begin_fen] and [start_color] unset. *)
Theorem parse_game_no_frame html base_url game_div divs' body stub w w2 :
  has_frame html = false →
  stub_of base_url game_div = Some stub →
  fetch_html (url stub) (upd_game_heap (λ h, h ++ [stub]) w) = (Ok html, w2) →
  let game := length (game_heap w) in
  let e := ValueError ("No #game iframe with src found on " +:+ url stub) in
  let w3 := logged WARNING "Failed to parse game %s: %s" [AStr (url stub); AExn e] w2 in
  (∀ base_url' game' w',
     parse_game html base_url' game' w'
       = (Raise (ValueError ("No #game iframe with src found on " +:+ base_url')), w')) ∧
  game_links_loop base_url body (game_div :: divs') w
    = yield_then body game (game_links_loop base_url body divs') w3 ∧
  game_heap w3 !! game = Some stub ∧
  move_list stub = None ∧ begin_fen stub = None ∧ start_color stub = None.
Proof.
  intros Hframe Hstub Hfetch game e w3.
  pose proof (parse_game_raises html (url stub) game w2 Hframe) as Hraise.
  split; [intros; by apply parse_game_raises|]. split; [|split].
  - cbn [game_links_loop]. unfold run_then.
    rewrite (game_entry_stub _ _ _ _ Hstub). cbn zeta. rewrite Hfetch.
    fold game. by rewrite Hraise.
  - subst w3 game. cbn [logged game_heap upd_trace].
    pose proof (fetch_html_game_heap (url stub) (upd_game_heap (λ h, h ++ [stub]) w)) as E.
    rewrite Hfetch in E. cbn in E. rewrite E. by rewrite list_lookup_middle.
  - unfold stub_of in Hstub.
    destruct (select_one "div.red > a" game_div) as [a_red|]; [|done].
    destruct (select_one "div.black > a" game_div) as [a_black|]; [|done].
    destruct (select_one "div.result > a" game_div) as [a_result|]; [|done].
    destruct (select_one "div.event > a" game_div) as [a_event|]; [|done].
    cbn in Hstub. destruct (Py.strip _) as [|c href']; [done|].
    by injection Hstub as <-.
Qed.

Lemma game_entry_skip base_url game_div w :
  missing_link game_div = true →
  game_entry base_url game_div w
    = (Ok None, logged WARNING "Skipping malformed game entry on %s" [AStr base_url] w).
Proof.
  unfold missing_link, game_entry. intros Hmiss.
  destruct (select_one "div.red > a" game_div) as [a_red|]; [|done].
  destruct (select_one "div.black > a" game_div) as [a_black|]; [|done].
  destruct (select_one "div.result > a" game_div) as [a_result|]; [|done].
  by destruct (select_one "div.event > a" game_div) as [a_event|].
Qed.

(** No exception leaves [game_entry], and it comes back with a game
    exactly for the well-formed entries. *)
Lemma game_entry_ok base_url game_div w :
  ∃ entry w', game_entry base_url game_div w = (Ok entry, w') ∧
              (if well_formed game_div then is_Some entry else entry = None).
Proof.
  destruct (stub_of base_url game_div) as [stub|] eqn:Hstub.
  - rewrite (game_entry_stub _ _ _ _ Hstub). cbn zeta.
    assert (well_formed game_div = true) as ->.
    { unfold stub_of in Hstub. unfold well_formed, missing_link.
      destruct (select_one "div.red > a" game_div) as [a_red|]; [|done].
      destruct (select_one "div.black > a" game_div) as [a_black|]; [|done].
      destruct (select_one "div.result > a" game_div) as [a_result|]; [|done].
      destruct (select_one "div.event > a" game_div) as [a_event|]; [|done].
      cbn in *. by destruct (Py.strip _). }
    destruct (fetch_html _ _) as [[game_html|e] w2]; [|eauto].
    destruct (parse_game _ _ _ w2) as [[?|e] w3]; eauto.
  - unfold stub_of in Hstub. unfold well_formed, missing_link, game_entry.
    destruct (select_one "div.red > a" game_div) as [a_red|]; [|cbn; eauto].
    destruct (select_one "div.black > a" game_div) as [a_black|]; [|cbn; eauto].
    destruct (select_one "div.result > a" game_div) as [a_result|]; [|cbn; eauto].
    destruct (select_one "div.event > a" game_div) as [a_event|]; [|cbn; eauto].
    cbn in *. destruct (Py.strip _); [cbn; eauto|done].
Qed.

(** The loop yields one game per well-formed entry. *)
Lemma game_links_loop_count base_url body divs w :
  never_raises body →
  length (game_links_loop base_url body divs w).1.1 = length (filter (λ d, well_formed d) divs) ∧
  (game_links_loop base_url body divs w).1.2 = Ok tt.
Proof.
  intros Hbody. revert w. induction divs as [|game_div divs IH]; intros w; [done|].
  cbn [game_links_loop]. unfold run_then.
  destruct (game_entry_ok base_url game_div w) as (entry & w' & -> & Hwf).
  rewrite filter_cons. destruct (well_formed game_div).
  - destruct Hwf as [game ->]. rewrite decide_True by done. unfold yield_then.
    specialize (Hbody game w'). destruct (body game w') as [[[]|e] w'']; [|done].
    specialize (IH w''). destruct (game_links_loop _ _ _ w'') as [[ys r] w3].
    cbn in *. destruct IH as [-> ->]. done.
  - subst entry. rewrite decide_False by (by intros []). apply IH.
Qed.


End Entries.

(** * The move list *)

Lemma interleave_empty s : Py.interleave EmptyString s = s.
Proof. induction s as [|c s IH]; [done|]. cbn. by rewrite IH. Qed.

(** Without a nonce the substitution changes nothing. *)
Lemma replace_placeholder_empty s : Py.replace PLACEHOLDER EmptyString s = s.
Proof. apply interleave_empty. Qed.

(** With the marker the script passes, the nonce goes in front of every
    character and at the end. *)
Lemma replace_placeholder nonce s :
  Py.replace PLACEHOLDER nonce s = Py.interleave nonce s.
Proof. done. Qed.

Section MoveList.
Context `{Platform}.

Lemma same_move_list_refl g : same_move_list g g.
Proof. done. Qed.

Lemma same_move_list_trans g1 g2 g3 :
  same_move_list g1 g2 → same_move_list g2 g3 → same_move_list g1 g3.
Proof. unfold same_move_list. congruence. Qed.

(** What follows the assignment of [move_list] in [parse_game] leaves it
    as assigned. *)
Lemma after_move_list frame_html game :
  steps (games_keep same_move_list)
    (extract_begin_fen frame_html game;;
     extract_start_color frame_html game;;
     save_game game;;
     mret game).
Proof.
  pose proof (games_keep_refl same_move_list same_move_list_refl) as Hrefl.
  pose proof (games_keep_trans same_move_list same_move_list_trans) as Htrans.
  pose proof (games_keep_alter same_move_list same_move_list_refl) as Halter.
  repeat (apply steps_bind; [done| |intros ?]).
  - apply steps_extract_begin_fen; [done|]. intros. by apply Halter.
  - apply steps_extract_start_color; [done|]. intros. by apply Halter.
  - apply games_keep_save_game;
      [apply same_move_list_refl|apply same_move_list_trans|done..].
  - by apply steps_ret.
Qed.


End MoveList.

(** * Upserts *)

Section Keys.
Context {A K : Type} `{EqDecision K} (key : A → K).

Lemma filter_key_absent (k : K) (l : list A) :
  k ∉ key <$> l → filter (λ y, key y = k) l = [].
Proof.
  induction l as [|y l IH]; [done|]. rewrite fmap_cons, not_elem_of_cons.
  intros [Hne Hnotin]. rewrite filter_cons, decide_False by done. by apply IH.
Qed.

(** With unique keys, the documents under the key of [x] are [x] alone. *)
Lemma filter_unique_key (x : A) (l : list A) :
  NoDup (key <$> l) → x ∈ l → filter (λ y, key y = key x) l = [x].
Proof.
  induction l as [|y l IH]; [by intros _ ?%elem_of_nil|].
  rewrite fmap_cons, NoDup_cons. intros [Hy Hnd] Hin. rewrite filter_cons.
  apply elem_of_cons in Hin as [<-|Hin].
  - rewrite decide_True by done. by rewrite filter_key_absent.
  - rewrite decide_False; [by apply IH|].
    intros E. apply Hy. rewrite E. by apply list_elem_of_fmap_2.
Qed.

Lemma unique_key_eq (x y : A) (l : list A) :
  NoDup (key <$> l) → x ∈ l → y ∈ l → key y = key x → x = y.
Proof.
  intros Hnd Hx Hy E.
  assert (y ∈ filter (λ z, key z = key x) l) as Hin by by apply list_elem_of_filter.
  rewrite (filter_unique_key x l Hnd Hx) in Hin. by apply list_elem_of_singleton in Hin.
Qed.

Lemma find_key_absent (k : K) (l : list A) :
  list_find (λ y, key y = k) l = None → k ∉ key <$> l.
Proof.
  intros Hnone%list_find_None Hin. apply list_elem_of_fmap in Hin as (y & -> & Hin).
  rewrite Forall_forall in Hnone. by apply (Hnone y).
Qed.

End Keys.

Section StoreOps.

(** Insert-if-absent: the collection keeps every document it had; at most
    one is added, under a name that was not there. *)
Lemma players_find_one_and_update_spec n u s :
  let '(d, s') := players_find_one_and_update n u s in
  pd_name d = n ∧ d ∈ players_col s' ∧
  players_col s `prefix_of` players_col s' ∧
  (NoDup (pd_name <$> players_col s) → NoDup (pd_name <$> players_col s')) ∧
  events_col s' = events_col s ∧ games_col s' = games_col s.
Proof.
  unfold players_find_one_and_update.
  destruct (list_find _ _) as [[i d]|] eqn:Hfind.
  - apply list_find_Some in Hfind as (Hi & Hn & _).
    repeat split; try done. by eapply list_elem_of_lookup_2.
  - apply find_key_absent in Hfind. cbn. repeat split; try done.
    + set_solver.
    + by apply prefix_app_r.
    + intros Hnd. rewrite fmap_app. apply NoDup_app. repeat split; [done| |apply NoDup_singleton].
      intros k Hk ->%list_elem_of_singleton. done.
Qed.

Lemma events_find_one_and_update_spec n s :
  let '(d, s') := events_find_one_and_update n s in
  ed_name d = n ∧ d ∈ events_col s' ∧
  events_col s `prefix_of` events_col s' ∧
  (NoDup (ed_name <$> events_col s) → NoDup (ed_name <$> events_col s')) ∧
  players_col s' = players_col s ∧ games_col s' = games_col s.
Proof.
  unfold events_find_one_and_update.
  destruct (list_find _ _) as [[i d]|] eqn:Hfind.
  - apply list_find_Some in Hfind as (Hi & Hn & _).
    repeat split; try done. by eapply list_elem_of_lookup_2.
  - apply find_key_absent in Hfind. cbn. repeat split; try done.
    + set_solver.
    + by apply prefix_app_r.
    + intros Hnd. rewrite fmap_app. apply NoDup_app. repeat split; [done| |apply NoDup_singleton].
      intros k Hk ->%list_elem_of_singleton. done.
Qed.

(** Insert-or-replace: afterwards the document under [u] is [doc i], where
    [i] is the [_id] of the document that was under [u], if there was one;
    the keys of the collection stay unique. *)
Lemma games_update_one_spec u doc s :
  (∀ i, gd_url (doc i) = u) →
  NoDup (gd_url <$> games_col s) →
  let s' := (games_update_one u doc s).2 in
  NoDup (gd_url <$> games_col s') ∧
  (∃ i, doc i ∈ games_col s' ∧ ∀ d, d ∈ games_col s → gd_url d = u → gd_id d = i) ∧
  players_col s' = players_col s ∧ events_col s' = events_col s.
Proof.
  intros Hdoc Hnd. unfold games_update_one.
  destruct (list_find _ _) as [[i d]|] eqn:Hfind; cbn.
  - apply list_find_Some in Hfind as (Hi & Hu & _).
    split; [|split; [|done]].
    + rewrite list_fmap_insert, list_insert_id; [done|].
      by rewrite list_lookup_fmap, Hi, Hdoc; cbn; rewrite Hu.
    + exists (gd_id d). split.
      * eapply list_elem_of_lookup_2. apply list_lookup_insert_eq.
        by eapply lookup_lt_Some.
      * intros d' Hd' Hu'. f_equal. symmetry.
        eapply (unique_key_eq gd_url); eauto; [by eapply list_elem_of_lookup_2|congruence].
  - apply find_key_absent in Hfind. split; [|split; [|done]].
    + rewrite fmap_app. apply NoDup_app. repeat split; [done| |apply NoDup_singleton].
      intros k Hk ->%list_elem_of_singleton. cbn in Hk. by rewrite Hdoc in Hk.
    + exists (next_oid s). split; [set_solver|].
      intros d Hd Hu. exfalso. apply Hfind. rewrite <- Hu. by apply list_elem_of_fmap_2.
Qed.

End StoreOps.

(** * Running [save_game] *)

Section Run.
Context `{Platform}.
Hypothesis Hfault : ∀ tr, mongo_fault tr = None.

Lemma run_bind {A B} (m : M A) (k : A → M B) w a w' :
  m w = (Ok a, w') → (m ≫= k) w = k a w'.
Proof. intros E. unfold mbind, M_bind. by rewrite E. Qed.

Lemma run_gets {A B} (f : World → A) (k : A → M B) w : (gets f ≫= k) w = k (f w) w.
Proof. done. Qed.

Lemma run_attr {A B} (f : PlayerGame → A) game (k : A → M B) w :
  (attr f game ≫= k) w = k (f (game_heap w !!! game)) w.
Proof. done. Qed.

Lemma run_set_attr {B} game setter (k : unit → M B) w :
  (set_attr game setter ≫= k) w = k tt (upd_game_heap (alter setter game) w).
Proof. done. Qed.

Lemma run_on_store {A B} c key (op : Store → A * Store) (k : A → M B) w :
  (on_store c key op ≫= k) w
    = k (op (store w)).1
        (upd_store (λ _, (op (store w)).2) (upd_trace (cons (EMongo c key)) w)).
Proof.
  unfold on_store, round_trip, mbind, M_bind. rewrite Hfault.
  cbn. by destruct (op (store w)).
Qed.

(** A setter that leaves a field alone leaves it alone on the heap. *)
Lemma field_alter {A} (f : PlayerGame → A) setter a b (heap : list PlayerGame) :
  (∀ g, f (setter g) = f g) → f (alter setter a heap !!! b) = f (heap !!! b).
Proof.
  intros Hf. rewrite !list_lookup_total_alt. destruct (decide (a = b)) as [->|Hne].
  - rewrite list_lookup_alter_eq. destruct (heap !! b); cbn; [apply Hf|done].
  - by rewrite list_lookup_alter_ne.
Qed.

Lemma save_frame_refl game w : save_frame game w w.
Proof. done. Qed.

Lemma save_frame_trans game w1 w2 w3 :
  save_frame game w1 w2 → save_frame game w2 w3 → save_frame game w1 w3.
Proof. unfold save_frame. intros (?&?&?) (?&?&?). repeat split; congruence. Qed.

Lemma save_frame_registered_url game name w w' :
  save_frame game w w' → registered_url name w' = registered_url name w.
Proof. intros (_ & Hp & Hh). unfold registered_url. by rewrite Hp, Hh. Qed.

Lemma upsert_player_run side set_side_id game w :
  (∀ v g, core (set_side_id v g) = core g) →
  let name := side (game_heap w !!! game) in
  let op := players_find_one_and_update name (registered_url name w) (store w) in
  ∃ w', upsert_player side set_side_id game w = (Ok op.1, w') ∧
        store w' = op.2 ∧ save_frame game w w'.
Proof.
  intros Hset name op. unfold upsert_player.
  rewrite run_attr, run_gets, run_on_store, run_set_attr. eexists. split; [done|].
  split; [done|]. split; [|done]. cbn. by apply field_alter.
Qed.

Lemma upsert_event_run game w :
  let op := events_find_one_and_update (event (game_heap w !!! game)) (store w) in
  ∃ w', upsert_event game w = (Ok op.1, w') ∧ store w' = op.2 ∧ save_frame game w w'.
Proof.
  intros op. unfold upsert_event.
  rewrite run_attr, run_on_store, run_set_attr. eexists. split; [done|].
  split; [done|]. split; [|done]. cbn. by apply field_alter.
Qed.

Lemma upsert_game_run game red_doc black_doc event_doc w :
  let g := game_heap w !!! game in
  let game_doc := λ i,
    mkGameDoc i (pd_id red_doc) (pd_id black_doc) (ed_id event_doc)
      (url g) (result g) (move_list g) (begin_fen g) (start_color g) in
  ∃ w', upsert_game game red_doc black_doc event_doc w = (Ok tt, w') ∧
        store w' = (games_update_one (url g) game_doc (store w)).2.
Proof.
  intros g game_doc. unfold upsert_game. rewrite run_attr. cbv zeta.
  rewrite run_on_store. fold g. fold game_doc.
  destruct (games_update_one (url g) game_doc (store w)) as [[i|] s']; cbn [fst snd].
  - eexists. split; done.
  - rewrite run_on_store. cbn [fst snd].
    destruct (games_find_one _ _); eexists; split; done.
Qed.

Lemma run_cache_player_id {B} name v (k : unit → M B) w :
  ∃ w', (cache_player_id name v ≫= k) w = k tt w' ∧ store w' = store w.
Proof.
  unfold cache_player_id. eexists. split; [done|]. by destruct (players w !! name).
Qed.

Lemma cache_event_run name v w :
  ∃ w', cache_event name v w = (Ok tt, w') ∧ store w' = store w.
Proof.
  unfold cache_event. rewrite run_gets. case_bool_decide; eexists; split; done.
Qed.

Lemma update_caches_run game w :
  ∃ w', update_caches game w = (Ok tt, w') ∧ store w' = store w.
Proof.
  unfold update_caches. rewrite !run_attr.
  destruct (run_cache_player_id (red_player (game_heap w !!! game))
              (red_player_id (game_heap w !!! game))
              (λ _, black ← attr black_player game;
                    bid ← attr black_player_id game;
                    cache_player_id black bid;;
                    ev ← attr event game;
                    eid ← attr event_id game;
                    cache_event ev eid) w) as (w1 & -> & Hs1).
  rewrite !run_attr.
  destruct (run_cache_player_id (black_player (game_heap w1 !!! game))
              (black_player_id (game_heap w1 !!! game))
              (λ _, ev ← attr event game;
                    eid ← attr event_id game;
                    cache_event ev eid) w1) as (w2 & -> & Hs2).
  rewrite !run_attr.
  destruct (cache_event_run (event (game_heap w2 !!! game))
              (event_id (game_heap w2 !!! game)) w2) as (w3 & -> & Hs3).
  exists w3. split; [done|]. congruence.
Qed.

(** With the server up, the [try] block runs to its end, and the database
    ends up as the four upserts leave it. *)
Lemma save_game_try_store game w :
  let g := game_heap w !!! game in
  ∃ w', save_game_try game w = (Ok tt, w') ∧
        store w' = store_after_save g (registered_url (red_player g) w)
                     (registered_url (black_player g) w) (store w).
Proof.
  intros g. unfold save_game_try.
  destruct (upsert_player_run red_player set_red_player_id game w)
    as (w1 & E1 & Hs1 & F1); [done|].
  rewrite (run_bind _ _ _ _ _ E1).
  destruct (upsert_player_run black_player set_black_player_id game w1)
    as (w2 & E2 & Hs2 & F2); [done|].
  rewrite (run_bind _ _ _ _ _ E2).
  destruct (upsert_event_run game w2) as (w3 & E3 & Hs3 & F3).
  rewrite (run_bind _ _ _ _ _ E3).
  pose proof (save_frame_trans _ _ _ _ F1 F2) as F12.
  pose proof (save_frame_trans _ _ _ _ F12 F3) as F13.
  match goal with
  | |- context [upsert_game game ?r ?b ?e] =>
      destruct (upsert_game_run game r b e w3) as (w4 & E4 & Hs4)
  end.
  rewrite (run_bind _ _ _ _ _ E4).
  destruct (update_caches_run game w4) as (w5 & E5 & Hs5).
  rewrite (run_bind _ _ _ _ _ E5). rewrite run_attr. eexists. split; [done|].
  cbn [logged store upd_trace]. rewrite Hs5, Hs4, Hs3, Hs2, Hs1.
  rewrite (save_frame_registered_url _ _ _ _ F1).
  destruct F1 as (C1 & _), F12 as (C2 & _), F13 as (C3 & _).
  unfold core in C1, C2, C3.
  injection C1 as _ Hblack _ _ _ _ _ _. injection C2 as _ _ Hevent _ _ _ _ _.
  injection C3 as _ _ _ Hurl Hresult Hmoves Hfen Hcolor.
  rewrite Hblack, Hevent, Hurl, Hresult, Hmoves, Hfen, Hcolor.
  unfold store_after_save. subst g.
  destruct (players_find_one_and_update _ _ (store w)) as [red_doc s1].
  cbn [fst snd].
  destruct (players_find_one_and_update _ _ s1) as [black_doc s2].
  cbn [fst snd].
  by destruct (events_find_one_and_update _ s2) as [event_doc s3].
Qed.

End Run.

Section Idempotence.
Context `{Platform}.

Lemma save_game_store game w :
  mongo_up →
  let g := game_heap w !!! game in
  (save_game game w).1 = Ok tt ∧
  store (save_game game w).2
    = store_after_save g (registered_url (red_player g) w)
        (registered_url (black_player g) w) (store w).
Proof.
  intros (Himport & Hclient & Hfault) g. unfold save_game. rewrite Himport, Hclient.
  destruct (save_game_try_store Hfault game w) as (w' & -> & Hs). done.
Qed.

(** One [save_game] on the database: keys stay unique, no player or event
    document is touched, the documents of the two players and the event
    are there, and the document under the URL of the game holds the
    fields of the game, under the [_id] it had if it was there before. *)
Lemma store_after_save_spec g red_url black_url s :
  unique_keys s →
  let s' := store_after_save g red_url black_url s in
  unique_keys s' ∧
  players_col s `prefix_of` players_col s' ∧
  events_col s `prefix_of` events_col s' ∧
  (∃ red_doc black_doc event_doc d,
     red_doc ∈ players_col s' ∧ pd_name red_doc = red_player g ∧
     black_doc ∈ players_col s' ∧ pd_name black_doc = black_player g ∧
     event_doc ∈ events_col s' ∧ ed_name event_doc = event g ∧
     d ∈ games_col s' ∧
     d = mkGameDoc (gd_id d) (pd_id red_doc) (pd_id black_doc) (ed_id event_doc)
           (url g) (result g) (move_list g) (begin_fen g) (start_color g) ∧
     ∀ d0, d0 ∈ games_col s → gd_url d0 = url g → gd_id d0 = gd_id d).
Proof.
  intros (Hp & He & Hg) s'. subst s'. unfold store_after_save.
  pose proof (players_find_one_and_update_spec (red_player g) red_url s) as H1.
  destruct (players_find_one_and_update (red_player g) red_url s) as [red_doc s1].
  destruct H1 as (Hn1 & Hin1 & Hpre1 & Hnd1 & He1 & Hg1).
  pose proof (players_find_one_and_update_spec (black_player g) black_url s1) as H2.
  destruct (players_find_one_and_update (black_player g) black_url s1) as [black_doc s2].
  destruct H2 as (Hn2 & Hin2 & Hpre2 & Hnd2 & He2 & Hg2).
  pose proof (events_find_one_and_update_spec (event g) s2) as H3.
  destruct (events_find_one_and_update (event g) s2) as [event_doc s3].
  destruct H3 as (Hn3 & Hin3 & Hpre3 & Hnd3 & Hp3 & Hg3).
  set (game_doc := λ i, mkGameDoc i _ _ _ _ _ _ _ _).
  destruct (games_update_one_spec (url g) game_doc s3) as (Hnd4 & (i & Hin4 & Hid) & Hp4 & He4);
    [done|by rewrite Hg3, Hg2, Hg1|].
  set (s4 := (games_update_one (url g) game_doc s3).2) in *.
  assert (players_col s4 = players_col s2) as Hp42 by congruence.
  split; [|split; [|split]].
  - repeat split; [rewrite Hp42; auto|rewrite He4; apply Hnd3; congruence|done].
  - rewrite Hp42. by etrans.
  - rewrite He4. by rewrite <- He1, <- He2.
  - exists red_doc, black_doc, event_doc, (game_doc i).
    rewrite Hp42, He4. repeat split; try done.
    + destruct Hpre2 as [k ->]. set_solver.
    + intros d0 Hd0 Hu. apply Hid; [|done]. by rewrite Hg3, Hg2, Hg1.
Qed.

(** C7.  With the server up and natural keys unique in the database, two
    [save_game] calls for the same URL leave one game document under that
    URL: the one the first call stored, with the [_id] it was given and
    the fields of the second call.  Player and event documents are only
    ever added, under names that were not there: what a call finds is
    neither changed nor duplicated. *)
Theorem save_game_idempotent g1 g2 w :
  mongo_up →
  unique_keys (store w) →
  let w1 := (save_game g1 w).2 in
  let w2 := (save_game g2 w1).2 in
  let first := game_heap w !!! g1 in
  let latest := game_heap w1 !!! g2 in
  url latest = url first →
  (∃ d1 d2,
     filter (λ d, gd_url d = url first) (games_col (store w1)) = [d1] ∧
     filter (λ d, gd_url d = url first) (games_col (store w2)) = [d2] ∧
     gd_id d2 = gd_id d1 ∧
     gd_result d2 = result latest ∧ gd_move_list d2 = move_list latest ∧
     gd_begin_fen d2 = begin_fen latest ∧ gd_start_color d2 = start_color latest) ∧
  (∃ red_doc black_doc event_doc,
     red_doc ∈ players_col (store w1) ∧ pd_name red_doc = red_player first ∧
     black_doc ∈ players_col (store w1) ∧ pd_name black_doc = black_player first ∧
     event_doc ∈ events_col (store w1) ∧ ed_name event_doc = event first) ∧
  players_col (store w) `prefix_of` players_col (store w1) ∧
  players_col (store w1) `prefix_of` players_col (store w2) ∧
  events_col (store w) `prefix_of` events_col (store w1) ∧
  events_col (store w1) `prefix_of` events_col (store w2) ∧
  unique_keys (store w1) ∧ unique_keys (store w2).
Proof.
  intros Hup Huniq w1 w2 first latest Hurl.
  destruct (save_game_store g1 w Hup) as [_ Hs1].
  destruct (save_game_store g2 w1 Hup) as [_ Hs2].
  fold w1 in Hs1. fold w2 in Hs2. fold first in Hs1. fold latest in Hs2.
  destruct (store_after_save_spec first (registered_url (red_player first) w)
              (registered_url (black_player first) w) (store w) Huniq)
    as (Hu1 & Hpp1 & Hpe1 & (rd1 & bd1 & ed1 & d1 & ? & ? & ? & ? & ? & ? & Hd1 & Ed1 & _)).
  rewrite <- Hs1 in *.
  destruct (store_after_save_spec latest (registered_url (red_player latest) w1)
              (registered_url (black_player latest) w1) (store w1) Hu1)
    as (Hu2 & Hpp2 & Hpe2 & (rd2 & bd2 & ed2 & d2 & _ & _ & _ & _ & _ & _ & Hd2 & Ed2 & Hid)).
  rewrite <- Hs2 in *.
  assert (gd_url d1 = url first) as Hu_d1 by (by rewrite Ed1).
  assert (gd_url d2 = url first) as Hu_d2 by (by rewrite Ed2).
  split; [|split; [by exists rd1, bd1, ed1|done]].
  exists d1, d2. split; [|split; [|split]].
  - rewrite <- Hu_d1. apply filter_unique_key; [apply Hu1|done].
  - rewrite <- Hu_d2. apply filter_unique_key; [apply Hu2|done].
  - symmetry. apply Hid; [done|congruence].
  - by rewrite Ed2.
Qed.

End Idempotence.

(** * The registries *)

Section Registry.
Context `{Platform}.

(** The four parts of a [quiet] goal. *)
Ltac quiet_parts := unfold quiet; split; [|split; [|split]].

Lemma quiet_refl w : quiet w w.
Proof. quiet_parts; done. Qed.

Lemma quiet_trans w1 w2 w3 : quiet w1 w2 → quiet w2 w3 → quiet w1 w3.
Proof.
  intros (H1 & P1 & E1 & G1) (H2 & P2 & E2 & G2).
  quiet_parts; [auto|set_solver|set_solver|congruence].
Qed.

Lemma quiet_trace f w : quiet w (upd_trace f w).
Proof. quiet_parts; done. Qed.

Lemma quiet_store f w : quiet w (upd_store f w).
Proof. quiet_parts; done. Qed.

Lemma quiet_game_heap f w : quiet w (upd_game_heap f w).
Proof. quiet_parts; done. Qed.

Lemma quiet_player_queue f w : quiet w (upd_player_queue f w).
Proof. quiet_parts; done. Qed.

Lemma quiet_cache_player_id name v : steps quiet (cache_player_id name v).
Proof.
  intros w. unfold cache_player_id. cbn.
  destruct (players w !! name) as [a|]; [|apply quiet_refl].
  quiet_parts; try done. intros (Hp & Hreg & Hnd & Hq & He & Hereg & Hend).
  assert (p_name <$> alter (set_p_id v) a (player_heap w) = p_name <$> player_heap w) as Hnames.
  { rewrite (list_fmap_alter p_name (set_p_id v) (λ n, n)) by by apply Forall_true.
    by apply list_alter_id. }
  unfold heaps_ok. cbn [player_heap upd_player_heap players enqueued events event_heap].
  rewrite Hnames, length_alter. split_and!; try done.
  - intros n b Hb. rewrite <- list_lookup_fmap, Hnames, list_lookup_fmap. by apply Hp.
  - intros p Hin. apply (list_elem_of_fmap_2 p_name) in Hin. rewrite Hnames in Hin.
    apply list_elem_of_fmap in Hin as (q & -> & Hq_in). by apply Hreg.
Qed.

(** A new event under a name that is not registered. *)
Lemma heaps_ok_new_event name v w :
  events w !! name = None →
  heaps_ok w →
  heaps_ok (upd_events <[name := length (event_heap w)]>
              (upd_event_heap (λ h, h ++ [mkEvent name v]) w)).
Proof.
  intros Hfresh (Hp & Hreg & Hnd & Hq & He & Hereg & Hend).
  unfold heaps_ok. cbn [player_heap upd_events upd_event_heap players enqueued events event_heap].
  split_and!; try done.
  - intros n a. destruct (decide (n = name)) as [->|Hne].
    + rewrite lookup_insert_eq. intros [= <-]. by rewrite list_lookup_middle.
    + rewrite lookup_insert_ne by done. intros Ha. specialize (He n a Ha).
      rewrite lookup_app_l; [done|]. apply fmap_Some in He as (e & He & _).
      by eapply lookup_lt_Some.
  - intros e [Hin| ->%list_elem_of_singleton]%elem_of_app.
    + apply lookup_insert_is_Some'. right. by apply Hereg.
    + cbn. by rewrite lookup_insert_eq.
  - rewrite fmap_app. apply NoDup_app. repeat split; [done| |apply NoDup_singleton].
    intros n Hn ->%list_elem_of_singleton. apply list_elem_of_fmap in Hn as (e & Hname & Hin).
    cbn in Hname. destruct (Hereg e Hin) as [a Ha]. congruence.
Qed.

(** A new player under a name that is not registered. *)
Lemma heaps_ok_new_player name u w f :
  players w !! name = None →
  heaps_ok w →
  heaps_ok (upd_enqueued (λ q, q ++ [length (player_heap w)])
              (upd_player_queue f
                 (upd_players <[name := length (player_heap w)]>
                    (upd_player_heap (λ h, h ++ [mkPlayer name u None]) w)))).
Proof.
  intros Hfresh (Hp & Hreg & Hnd & Hq & He & Hereg & Hend).
  unfold heaps_ok.
  cbn [player_heap upd_enqueued upd_player_queue upd_players upd_player_heap players
       enqueued events event_heap].
  split_and!; try done.
  - intros n a. destruct (decide (n = name)) as [->|Hne].
    + rewrite lookup_insert_eq. intros [= <-]. by rewrite list_lookup_middle.
    + rewrite lookup_insert_ne by done. intros Ha. specialize (Hp n a Ha).
      rewrite lookup_app_l; [done|]. apply fmap_Some in Hp as (p & Hp & _).
      by eapply lookup_lt_Some.
  - intros p [Hin| ->%list_elem_of_singleton]%elem_of_app.
    + apply lookup_insert_is_Some'. right. by apply Hreg.
    + cbn. by rewrite lookup_insert_eq.
  - rewrite fmap_app. apply NoDup_app. repeat split; [done| |apply NoDup_singleton].
    intros n Hn ->%list_elem_of_singleton. apply list_elem_of_fmap in Hn as (p & Hname & Hin).
    cbn in Hname. destruct (Hreg p Hin) as [a Ha]. congruence.
  - rewrite Hq, length_app. cbn [length]. rewrite Nat.add_1_r. by rewrite seq_S.
Qed.

Lemma quiet_cache_event name v : steps quiet (cache_event name v).
Proof.
  intros w. unfold cache_event. rewrite run_gets.
  case_bool_decide as Hknown; [apply quiet_refl|].
  apply eq_None_not_Some in Hknown. cbn.
  quiet_parts; [by apply heaps_ok_new_event|done|set_solver|done].
Qed.

(** After [register_event] the name is registered; an object was created
    only if it was not. *)
Lemma register_event_run name w :
  ∃ w', register_event name w = (Ok tt, w') ∧ quiet w w' ∧
        is_Some (events w' !! name) ∧ game_heap w' = game_heap w ∧
        (is_Some (events w !! name) → w' = w).
Proof.
  unfold register_event, known. rewrite run_gets.
  case_bool_decide as Hknown.
  - exists w. split_and!; first [done|apply quiet_refl].
  - apply eq_None_not_Some in Hknown. eexists. split; [done|]. cbn.
    split; [|split; [|split]].
    + quiet_parts; [|done|set_solver|done]. intros Hok.
      by apply (heaps_ok_new_event name None (logged INFO "Add event %s" [AStr name] w)).
    + by rewrite lookup_insert_eq.
    + done.
    + rewrite Hknown. by intros [].
Qed.

Lemma register_player_run name u w :
  ∃ w', register_player name u w = (Ok tt, w') ∧ quiet w w' ∧
        is_Some (players w' !! name) ∧ game_heap w' = game_heap w ∧
        (is_Some (players w !! name) → w' = w).
Proof.
  unfold register_player, known. rewrite run_gets.
  case_bool_decide as Hknown.
  - exists w. split_and!; first [done|apply quiet_refl].
  - apply eq_None_not_Some in Hknown. eexists. split; [done|]. cbn.
    split; [|split; [|split]].
    + quiet_parts; [|set_solver|done|done]. intros Hok.
      by apply (heaps_ok_new_player name u (logged INFO "Add player %s" [AStr name] w)
                  (λ q, q ++ [_])).
    + by rewrite lookup_insert_eq.
    + done.
    + rewrite Hknown. by intros [].
Qed.

End Registry.

(** * Generators step by step *)

Section GenSteps.
Context `{Platform}.
Variable R : World → World → Prop.
Hypothesis R_refl : ∀ w, R w w.
Hypothesis R_trans : ∀ w1 w2 w3, R w1 w2 → R w2 w3 → R w1 w3.
Hypothesis R_trace : ∀ f w, R w (upd_trace f w).

Lemma gsteps_pagination_loop base_url max_pages body soup pages_fetched seen :
  (∀ y, steps R (body y)) →
  gsteps R (pagination_loop base_url max_pages body soup pages_fetched seen).
Proof.
  intros Hbody w.
  funelim (pagination_loop base_url max_pages body soup pages_fetched seen w).
  destruct (select_one _ soup) as [a|]; [|apply R_refl].
  destruct (Py.strip _) as [|c href']; [apply R_refl|].
  destruct (decide _) as [Hstop|Hgo]; [apply R_trace|].
  pose proof (steps_fetch_html R R_refl R_trans R_trace
                (urljoin base_url (String c href')) w) as Hfetch.
  destruct (fetch_html _ w) as [[html|e] w1] eqn:E; cbn [snd] in Hfetch.
  2:{ eapply R_trans; [exact Hfetch|apply R_trace]. }
  eapply R_trans; [exact Hfetch|].
  apply (gsteps_yield_then R R_trans); [apply Hbody|].
  intros w2.
  match goal with
  | IH : context [R _ _] |- _ => by apply (IH a c href' Hgo (Ok html) w1)
  end.
Qed.

Lemma gsteps_parse_pagination_links base_url max_pages body :
  (∀ y, steps R (body y)) →
  gsteps R (parse_pagination_links base_url max_pages body).
Proof.
  intros Hbody. apply (gsteps_run_then R R_trans).
  - by apply steps_fetch_html.
  - intros html. apply (gsteps_yield_then R R_trans); [apply Hbody|].
    by apply gsteps_pagination_loop.
Qed.

End GenSteps.

Section RegistrySteps.
Context `{Platform}.

Lemma quiet_keeps w w' : quiet w w' → keeps_registry w w'.
Proof.
  intros (Hheaps & Hp & He & Hg) [Hok Hclosed]. split; [auto|].
  intros r b e u Hin. rewrite Hg in Hin. destruct (Hclosed r b e u Hin) as (Hr & Hb & Hev).
  rewrite <- !elem_of_dom in *. set_solver.
Qed.

Lemma keeps_registry_refl w : keeps_registry w w.
Proof. by intros ?. Qed.

Lemma keeps_registry_trans w1 w2 w3 :
  keeps_registry w1 w2 → keeps_registry w2 w3 → keeps_registry w1 w3.
Proof. unfold keeps_registry. auto. Qed.

Lemma quiet_steps_keep {A} (m : M A) : steps quiet m → steps keeps_registry m.
Proof. intros Hm w. apply quiet_keeps, Hm. Qed.

Lemma fetch_html_quiet u : steps quiet (fetch_html u).
Proof. apply steps_fetch_html; [exact quiet_refl|exact quiet_trans|exact quiet_trace]. Qed.

Lemma parse_game_quiet html base_url game : steps quiet (parse_game html base_url game).
Proof.
  apply steps_parse_game;
    first [ exact quiet_refl | exact quiet_trans | exact quiet_trace | exact quiet_store
          | exact quiet_cache_player_id | exact quiet_cache_event
          | intros; apply quiet_game_heap ].
Qed.

Lemma quiet_at_refl g w : quiet_at g w w.
Proof. split; [apply quiet_refl|done]. Qed.

Lemma quiet_at_trans g w1 w2 w3 : quiet_at g w1 w2 → quiet_at g w2 w3 → quiet_at g w1 w3.
Proof. intros [Q1 K1] [Q2 K2]. split; [by eapply quiet_trans|congruence]. Qed.

Lemma quiet_at_same_games g w w' :
  quiet w w' → game_heap w' = game_heap w → quiet_at g w w'.
Proof. intros Hq E. split; [done|by rewrite E]. Qed.

Lemma quiet_at_alter g setter a w :
  (∀ x, game_key (setter x) = game_key x) →
  quiet_at g w (upd_game_heap (alter setter a) w).
Proof. intros Hs. split; [apply quiet_game_heap|]. cbn. by apply field_alter. Qed.

Lemma save_game_quiet_at g game : steps (quiet_at g) (save_game game).
Proof.
  apply steps_save_game;
    first [ exact (quiet_at_refl g) | exact (quiet_at_trans g)
          | by (intros; apply quiet_at_alter)
          | by (intros; apply quiet_at_same_games;
                  [first [apply quiet_trace|apply quiet_store]|])
          | idtac ].
  - intros name v w. apply quiet_at_same_games; [apply quiet_cache_player_id|].
    unfold cache_player_id. cbn. by destruct (players w !! name).
  - intros name v w. apply quiet_at_same_games; [apply quiet_cache_event|].
    unfold cache_event. rewrite run_gets. by case_bool_decide.
Qed.

Lemma game_entry_quiet base_url game_div : steps quiet (game_entry base_url game_div).
Proof.
  pose proof quiet_refl. pose proof quiet_trans. pose proof quiet_trace.
  unfold game_entry.
  repeat first
    [ apply steps_log; done
    | apply fetch_html_quiet | apply parse_game_quiet
    | apply steps_ret; done
    | apply steps_bind; [done| |intros ?]
    | apply steps_try; [done| |intros ?]
    | match goal with
      | |- steps _ (new_game _) => intros w; apply quiet_game_heap
      | |- steps _ (match ?x with _ => _ end) => destruct x
      end ].
Qed.

Lemma game_links_loop_keeps base_url body divs :
  (∀ y, steps keeps_registry (body y)) →
  gsteps keeps_registry (game_links_loop base_url body divs).
Proof.
  intros Hbody. induction divs as [|game_div divs IH]; cbn [game_links_loop].
  - intros w. apply keeps_registry_refl.
  - apply (gsteps_run_then _ keeps_registry_trans).
    + apply quiet_steps_keep, game_entry_quiet.
    + intros [game|]; [|done].
      by apply (gsteps_yield_then _ keeps_registry_trans).
Qed.

Lemma parse_game_links_keeps base_url body :
  (∀ y, steps keeps_registry (body y)) →
  gsteps keeps_registry (parse_game_links base_url body).
Proof.
  intros Hbody. apply (gsteps_run_then _ keeps_registry_trans).
  - apply quiet_steps_keep, fetch_html_quiet.
  - intros html. by apply game_links_loop_keeps.
Qed.

End RegistrySteps.

Section GameBody.
Context `{Platform}.

Lemma announce_run g w :
  let key := game_key (game_heap w !!! g) in
  ∃ w', announce g w = (Ok tt, w') ∧
        (heaps_ok w → heaps_ok w') ∧
        dom (players w) ⊆ dom (players w') ∧ dom (events w) ⊆ dom (events w') ∧
        games w' = games w ∪ {[key]} ∧
        game_key (game_heap w' !!! g) = key ∧
        (key ∈ games w → w' = w).
Proof.
  intros key. unfold announce. rewrite run_attr, run_gets. fold key.
  case_bool_decide as Hseen.
  - exists w. split_and!; try done. set_solver.
  - set (w_a := logged INFO "Found game: %s vs %s Event: %s URL: %s"
                  [AStr key.1.1.1; AStr key.1.1.2; AStr key.1.2; AStr key.2]
                  (upd_games (λ s, s ∪ {[key]}) w)).
    pose proof (save_game_quiet_at g g w_a) as [(Hok & Hp & He & Hg) Hkey].
    assert (∃ w', (w' = (save_game g w_a).2 ∨
                   ∃ fmt args, w' = logged WARNING fmt args (save_game g w_a).2) ∧
                  try_except (save_game g)
                    (λ e, u ← attr url g;
                          log WARNING "Failed to save game %s: %s" [AStr u; AExn e]) w_a
                    = (Ok tt, w')) as (w' & Hw' & Hrun).
    { unfold try_except. destruct (save_game g w_a) as [[[]|e] w1]; cbn [snd].
      - exists w1. auto.
      - eexists. split; [right; eauto|done]. }
    exists w'. split; [exact Hrun|].
    assert (heaps_ok w' = heaps_ok (save_game g w_a).2 ∧
            players w' = players (save_game g w_a).2 ∧
            events w' = events (save_game g w_a).2 ∧
            games w' = games (save_game g w_a).2 ∧
            game_heap w' = game_heap (save_game g w_a).2) as (E1 & E2 & E3 & E4 & E5).
    { by destruct Hw' as [->|(fmt & args & ->)]. }
    rewrite E1, E2, E3, E4, E5. by split_and!.
Qed.

Lemma game_body_run g w :
  let key := game_key (game_heap w !!! g) in
  ∃ w', game_body g w = (Ok tt, w') ∧
        (heaps_ok w → heaps_ok w') ∧
        dom (players w) ⊆ dom (players w') ∧ dom (events w) ⊆ dom (events w') ∧
        games w' = games w ∪ {[key]} ∧
        game_key (game_heap w' !!! g) = key ∧
        is_Some (players w' !! key.1.1.1) ∧ is_Some (players w' !! key.1.1.2) ∧
        is_Some (events w' !! key.1.2) ∧
        (key ∈ games w → is_Some (players w !! key.1.1.1) →
         is_Some (players w !! key.1.1.2) → is_Some (events w !! key.1.2) → w' = w).
Proof.
  intros key. unfold game_body.
  destruct (announce_run g w) as (w1 & E1 & Hok1 & Hp1 & He1 & Hg1 & Hk1 & Hsame1).
  fold key in Hg1, Hk1, Hsame1.
  rewrite (run_bind _ _ _ _ _ E1), run_attr.
  assert (red_player (game_heap w1 !!! g) = key.1.1.1) as -> by by rewrite <- Hk1.
  destruct (register_player_run key.1.1.1 EmptyString w1)
    as (w2 & E2 & (Hok2 & Hp2 & He2 & Hg2) & Hred & Hheap2 & Hsame2).
  rewrite (run_bind _ _ _ _ _ E2), run_attr, Hheap2.
  assert (black_player (game_heap w1 !!! g) = key.1.1.2) as -> by by rewrite <- Hk1.
  destruct (register_player_run key.1.1.2 EmptyString w2)
    as (w3 & E3 & (Hok3 & Hp3 & He3 & Hg3) & Hblack & Hheap3 & Hsame3).
  rewrite (run_bind _ _ _ _ _ E3), run_attr, Hheap3, Hheap2.
  assert (event (game_heap w1 !!! g) = key.1.2) as -> by by rewrite <- Hk1.
  destruct (register_event_run key.1.2 w3)
    as (w4 & E4 & (Hok4 & Hp4 & He4 & Hg4) & Hev & Hheap4 & Hsame4).
  exists w4. split; [exact E4|]. split_and!.
  - auto.
  - set_solver.
  - set_solver.
  - congruence.
  - by rewrite Hheap4, Hheap3, Hheap2.
  - rewrite <- elem_of_dom in *. set_solver.
  - rewrite <- elem_of_dom in *. set_solver.
  - done.
  - intros Hseen Hr Hb He. rewrite (Hsame1 Hseen) in *.
    rewrite (Hsame2 Hr) in *. rewrite (Hsame3 Hb) in *. by rewrite (Hsame4 He).
Qed.

Lemma game_body_keeps g : steps keeps_registry (game_body g).
Proof.
  intros w [Hok Hclosed].
  destruct (game_body_run g w) as (w' & -> & Hok' & Hp & He & Hg & _ & Hr & Hb & Hev & _).
  cbn [snd]. split; [auto|]. intros r b e u Hin. rewrite Hg in Hin.
  apply elem_of_union in Hin as [Hin|Hin%elem_of_singleton].
  - destruct (Hclosed r b e u Hin) as (? & ? & ?).
    rewrite <- !elem_of_dom in *. set_solver.
  - destruct (game_key (game_heap w !!! g)) as [[[r' b'] e'] u'].
    injection Hin as -> -> -> ->. done.
Qed.

End GameBody.

Section Driver.
Context `{Platform}.

Lemma keeps_registry_trace f w : keeps_registry w (upd_trace f w).
Proof. apply quiet_keeps, quiet_trace. Qed.

Lemma register_player_quiet name u : steps quiet (register_player name u).
Proof. intros w. by destruct (register_player_run name u w) as (w' & -> & ? & _). Qed.

Lemma seed_entry_quiet base_url game_div : steps quiet (seed_entry base_url game_div).
Proof.
  unfold seed_entry.
  destruct (select_one "div.red > a" game_div) as [a_red|];
    [|apply steps_log; [exact quiet_trace]].
  destruct (select_one "div.black > a" game_div) as [a_black|];
    [|apply steps_log; [exact quiet_trace]].
  apply (steps_bind _ quiet_trans); [|intros _]; apply register_player_quiet.
Qed.

Lemma seed_loop_quiet base_url divs : steps quiet (seed_loop base_url divs).
Proof.
  induction divs as [|game_div divs IH]; cbn [seed_loop].
  - apply steps_ret. exact quiet_refl.
  - apply (steps_bind _ quiet_trans); [apply seed_entry_quiet|by intros _].
Qed.

Lemma page_body_keeps page : steps keeps_registry (page_body page).
Proof.
  apply steps_for_each, parse_game_links_keeps. apply game_body_keeps.
Qed.

Lemma visit_player_keeps player : steps keeps_registry (visit_player player).
Proof.
  unfold visit_player.
  apply (steps_bind _ keeps_registry_trans); [apply steps_gets, keeps_registry_refl|].
  intros p. apply (steps_bind _ keeps_registry_trans);
    [apply steps_log, keeps_registry_trace|].
  intros _. destruct (p_url p) as [|c u]; [apply steps_ret, keeps_registry_refl|].
  apply steps_for_each.
  apply gsteps_parse_pagination_links;
    [exact keeps_registry_refl|exact keeps_registry_trans|exact keeps_registry_trace|].
  apply page_body_keeps.
Qed.

Lemma drain_queue_keeps fuel w : keeps_registry w (drain_queue fuel w).2.
Proof.
  revert w. induction fuel as [|fuel IH]; intros w; cbn [drain_queue].
  - destruct (player_queue w); apply keeps_registry_refl.
  - destruct (player_queue w) as [|player queue'] eqn:Hq; [apply keeps_registry_refl|].
    pose proof (visit_player_keeps player (upd_player_queue (λ _, queue') w)) as Hvisit.
    destruct (visit_player player _) as [[[]|e] w']; cbn [snd] in *.
    + eapply keeps_registry_trans; [|apply IH].
      eapply keeps_registry_trans; [|exact Hvisit]. apply quiet_keeps, quiet_player_queue.
    + eapply keeps_registry_trans; [|exact Hvisit]. apply quiet_keeps, quiet_player_queue.
Qed.

Lemma parse_home_page_keeps fuel base_url w :
  keeps_registry w (parse_home_page fuel base_url w).2.
Proof.
  unfold parse_home_page.
  assert (steps quiet (seed base_url)) as Hseed.
  { apply (steps_bind _ quiet_trans); [apply fetch_html_quiet|].
    intros html. apply seed_loop_quiet. }
  specialize (Hseed w). apply quiet_keeps in Hseed.
  destruct (seed base_url w) as [[[]|e] w']; cbn [snd] in *; [|done].
  eapply keeps_registry_trans; [exact Hseed|apply drain_queue_keeps].
Qed.

Lemma registry_ok_init db : registry_ok (World_init db).
Proof.
  split; [|by intros r b e u Hin%elem_of_empty].
  unfold heaps_ok, World_init. cbn. split_and!; try done; try constructor.
  - by intros p Hp%elem_of_nil.
  - by intros e He%elem_of_nil.
Qed.

Lemma lookups_of_seq {A} `{Inhabited A} (f : A → string) (l : list A) :
  (λ a, f (l !!! a)) <$> seq 0 (length l) = f <$> l.
Proof.
  apply list_eq. intros i. rewrite !list_lookup_fmap.
  destruct (l !! i) as [x|] eqn:Hi.
  - rewrite lookup_seq_lt by by eapply lookup_lt_Some. cbn.
    by rewrite (list_lookup_total_correct _ _ _ Hi).
  - rewrite lookup_seq_ge; [done|]. by apply lookup_ge_None.
Qed.

(** C8.  In every state a run goes through between two players: no two
    [Player] objects share a name and [players] leads from a name to the
    object of that name; every object was appended to the queue once, so
    no name was appended twice; the same holds of [Event] objects and
    [events]; and a game whose identity is in the dedup set is found seen:
    the loop body creates nothing and changes nothing for it. *)
Theorem registry_unique fuel base_url db :
  let w := (parse_home_page fuel base_url (World_init db)).2 in
  NoDup (p_name <$> player_heap w) ∧
  (∀ n a, players w !! n = Some a → p_name <$> player_heap w !! a = Some n) ∧
  NoDup ((λ a, p_name (player_heap w !!! a)) <$> enqueued w) ∧
  NoDup (e_name <$> event_heap w) ∧
  (∀ n a, events w !! n = Some a → e_name <$> event_heap w !! a = Some n) ∧
  (∀ g, game_key (game_heap w !!! g) ∈ games w → game_body g w = (Ok tt, w)).
Proof.
  intros w.
  destruct (parse_home_page_keeps fuel base_url (World_init db) (registry_ok_init db))
    as [(Hp & Hreg & Hnd & Hq & He & Hereg & Hend) Hclosed].
  fold w in Hp, Hreg, Hnd, Hq, He, Hereg, Hend, Hclosed.
  split_and!; try done.
  - by rewrite Hq, lookups_of_seq.
  - intros g Hseen.
    destruct (game_body_run g w) as (w' & -> & _ & _ & _ & _ & _ & _ & _ & _ & Hsame).
    destruct (game_key (game_heap w !!! g)) as [[[r b] e] u] eqn:Hkey.
    destruct (Hclosed r b e u Hseen) as (? & ? & ?). by rewrite Hsame.
Qed.

End Driver.

(** * What the patterns capture *)

Lemma every_char_impl (P Q : ascii → Prop) s :
  (∀ c, P c → Q c) → every_char P s → every_char Q s.
Proof. intros HPQ. induction s as [|c s IH]; [done|]. intros [? ?]. split; auto. Qed.

Lemma length_append (s1 s2 : string) :
  String.length (s1 +:+ s2) = (String.length s1 + String.length s2)%nat.
Proof. induction s1 as [|c s1 IH]; [done|]. cbn. by rewrite <- IH. Qed.

Lemma search_unfold p s :
  Re.search p s =
    match Re.match_here p s with
    | Some g => Some g
    | None => match s with String _ s' => Re.search p s' | EmptyString => None end
    end.
Proof. by destruct s. Qed.

(** A match found by [search] is a match of the pattern at some position. *)
Lemma search_match_here p s g :
  Re.search p s = Some g → ∃ s', Re.match_here p s' = Some g.
Proof.
  induction s as [|c s IH]; rewrite search_unfold.
  - destruct (Re.match_here p EmptyString) eqn:E; [|done]. intros [= <-]. eauto.
  - destruct (Re.match_here p (String c s)) eqn:E; [|exact IH]. intros [= <-]. eauto.
Qed.

Section Captures.
Variable P : ascii → Prop.
Variables (a : Re.atom) (g : bool) (k : string → option string) (n : nat).
Hypothesis Ha : ∀ c, g = true → Re.atom_matches a c = true → P c.
Hypothesis Hk : ∀ s r, k s = Some r → every_char P r ∧ (n ≤ String.length r)%nat.

Lemma keep_captures c r :
  Re.atom_matches a c = true → every_char P r →
  every_char P (Re.keep g c r) ∧
  String.length (Re.keep g c r) = ((if g then 1 else 0) + String.length r)%nat.
Proof. intros Hc Hr. destruct g; cbn; auto. Qed.

Lemma match_star_captures s r :
  Re.match_star a g k s = Some r → every_char P r ∧ (n ≤ String.length r)%nat.
Proof.
  revert r. induction s as [|c s IH]; intros r; simpl; [apply Hk|].
  destruct (Re.atom_matches a c) eqn:Hc; [|apply Hk].
  destruct (Re.match_star a g k s) as [r'|]; [|apply Hk].
  intros [= <-]. destruct (IH r' eq_refl) as [Hr Hn].
  destruct (keep_captures c r' Hc Hr) as [? ->]. split; [done|lia].
Qed.

Lemma match_once_captures s r :
  Re.match_once a g k s = Some r →
  every_char P r ∧ ((if g then 1 else 0) + n ≤ String.length r)%nat.
Proof.
  destruct s as [|c s]; simpl; [done|].
  destruct (Re.atom_matches a c) eqn:Hc; [|done].
  destruct (k s) as [r'|] eqn:E; [|done]. intros [= <-].
  destruct (Hk s r' E) as [Hr Hn].
  destruct (keep_captures c r' Hc Hr) as [? ->]. split; [done|lia].
Qed.

End Captures.

(** The text of group 1 is made of characters the grouped atom matches,
    and there are at least as many as the pattern demands. *)
Lemma match_here_captures p s r :
  Re.match_here p s = Some r →
  every_char (captured_by p) r ∧ (group_floor p ≤ String.length r)%nat.
Proof.
  revert s r. induction p as [|[a q g] p IH]; intros s r.
  { intros [= <-]. split; [done|]. cbn. lia. }
  assert (∀ c, g = true → Re.atom_matches a c = true →
               captured_by (Re.Item a q g :: p) c) as Ha.
  { intros c Hg Hc. by apply Exists_cons_hd. }
  assert (∀ s r, Re.match_here p s = Some r →
            every_char (captured_by (Re.Item a q g :: p)) r ∧
            (group_floor p ≤ String.length r)%nat) as Hk.
  { intros s' r' E. destruct (IH s' r' E) as [Hr Hn]. split; [|done].
    eapply every_char_impl; [|exact Hr]. intros c Hc. by apply Exists_cons_tl. }
  cbn [Re.match_here group_floor Re.it_group Re.it_quant]. destruct q.
  - intros E. destruct (match_once_captures _ a g _ _ Ha Hk s r E). by destruct g.
  - intros E. destruct (match_star_captures _ a g _ _ Ha Hk s r E). by destruct g.
  - intros E.
    destruct (match_once_captures _ a g _ _ Ha
                (match_star_captures _ a g _ _ Ha Hk) s r E).
    by destruct g.
Qed.

Lemma captured_by_app p1 p2 c : captured_by (p1 ++ p2) c ↔ captured_by p1 c ∨ captured_by p2 c.
Proof. apply Exists_app. Qed.

Lemma captured_by_lit s c : ¬ captured_by (Re.lit s) c.
Proof.
  induction s as [|d s IH]; cbn; intros Hc; inversion Hc as [?? [? ?]|]; subst; [done|auto].
Qed.

Lemma group_floor_app p1 p2 : group_floor (p1 ++ p2) = (group_floor p1 + group_floor p2)%nat.
Proof. induction p1 as [|it p1 IH]; [done|]. cbn. rewrite IH. lia. Qed.

Lemma group_floor_lit s : group_floor (Re.lit s) = 0%nat.
Proof. by induction s. Qed.

Lemma length_nonempty s : (1 ≤ String.length s)%nat → s ≠ EmptyString.
Proof. destruct s; cbn; [lia|done]. Qed.

(** X1.  The three assignment patterns of [parse_game] (lines 208, 219 and
    223) never capture an empty value, nor one that holds a single or a
    double quote: the value ends at the first quote after the opening one,
    whichever kind opened it. *)
Theorem assignment_value_clean name text value :
  Re.search (Re.assignment name) text = Some value →
  value ≠ EmptyString ∧
  every_char (λ c, c ≠ "'"%char ∧ c ≠ Re.dquote) value.
Proof.
  intros [s E]%search_match_here. apply match_here_captures in E as [Hchars Hlen].
  unfold Re.assignment in *. rewrite group_floor_app, group_floor_lit in Hlen.
  split; [by apply length_nonempty|].
  eapply every_char_impl; [|exact Hchars]. intros c [Hc|Hc]%captured_by_app.
  { by apply captured_by_lit in Hc. }
  unfold captured_by in Hc. rewrite !Exists_cons, Exists_nil in Hc. cbn in Hc.
  destruct Hc as [[? _]|[[? _]|[[? _]|[[? _]|[[_ Hc]|[[? _]|[]]]]]]]; try done.
  apply negb_true_iff, bool_decide_eq_false in Hc. unfold Re.quotes in Hc.
  rewrite !elem_of_cons, elem_of_nil in Hc. naive_solver.
Qed.

(** The nonce captured by the [StartBoard] pattern of line 211 is not
    empty. *)
Lemma nonce_nonempty text nonce :
  Re.search Re.start_board text = Some nonce → nonce ≠ EmptyString.
Proof.
  intros [s E]%search_match_here. apply match_here_captures in E as [_ Hlen].
  unfold Re.start_board in Hlen. rewrite group_floor_app, group_floor_lit in Hlen.
  by apply length_nonempty.
Qed.

(** With the empty marker of line 213 a nonce of [k] characters goes in
    [n + 1] times, [n] being the length of the text. *)
Lemma length_interleave nonce s :
  String.length (Py.interleave nonce s)
    = (String.length s + (String.length s + 1) * String.length nonce)%nat.
Proof.
  induction s as [|c s IH]; cbn [Py.interleave String.length]; [lia|].
  rewrite length_append. cbn [String.length]. rewrite IH. lia.
Qed.

Lemma interleave_changes nonce s : nonce ≠ EmptyString → Py.interleave nonce s ≠ s.
Proof.
  intros Hne E. pose proof (length_interleave nonce s) as Hlen. rewrite E in Hlen.
  destruct nonce; [done|]. cbn in Hlen. lia.
Qed.


(** * The fields [parse_game] assigns *)

Section Fields.
Context `{Platform}.

(** With a frame that can be fetched, [parse_game] is [enrich] on the
    frame document. *)
Lemma parse_game_enrich html base_url game w frame src frame_html w1 :
  select_one "#game" (BeautifulSoup html) = Some frame →
  tag_get frame "src" = Some src →
  src ≠ EmptyString →
  fetch_html (urljoin base_url (Py.strip src)) w = (Ok frame_html, w1) →
  parse_game html base_url game w = enrich frame_html game w1 ∧
  game_heap w1 = game_heap w.
Proof.
  intros Hframe Hsrc Hne Hfetch. split.
  - unfold parse_game. rewrite Hframe. cbn [mbind option_bind]. rewrite Hsrc.
    destruct src as [|c src']; [done|]. by rewrite (run_bind _ _ _ _ _ Hfetch).
  - pose proof (fetch_html_game_heap (urljoin base_url (Py.strip src)) w) as E.
    by rewrite Hfetch in E.
Qed.

Lemma core_keeps_refl g : core g = core g.
Proof. done. Qed.

Lemma core_keeps_trans g1 g2 g3 : core g2 = core g1 → core g3 = core g2 → core g3 = core g1.
Proof. congruence. Qed.

(** The three fields of the game after [enrich], in terms of what the
    patterns find in the frame document. *)
Lemma enrich_fields frame_html game w g0 :
  game_heap w !! game = Some g0 →
  ∃ g', game_heap (enrich frame_html game w).2 !! game = Some g' ∧
    move_list g' =
      match Re.search (Re.assignment "strMoveList") frame_html with
      | Some group1 =>
          Some (Py.replace PLACEHOLDER
                  (default EmptyString (Re.search Re.start_board frame_html))
                  (Py.strip group1))
      | None => None
      end ∧
    begin_fen g' =
      match Re.search (Re.assignment "beginFEN") frame_html with
      | Some value => Some value
      | None => begin_fen g0
      end ∧
    start_color g' =
      match Re.search (Re.assignment "startColor") frame_html with
      | Some value => Some value
      | None => start_color g0
      end.
Proof.
  intros Hg0. unfold enrich.
  set (k := save_game game;; mret game).
  assert (steps (games_keep (λ g g', core g' = core g)) k) as Hk.
  { apply steps_bind;
      [apply games_keep_trans, core_keeps_trans
      |apply games_keep_save_game; [apply core_keeps_refl|apply core_keeps_trans|done..]
      |intros ?; apply steps_ret, games_keep_refl, core_keeps_refl]. }
  unfold extract_move_list, extract_begin_fen, extract_start_color.
  destruct (Re.search (Re.assignment "strMoveList") frame_html) as [group1|];
    destruct (Re.search (Re.assignment "beginFEN") frame_html) as [fen|];
    destruct (Re.search (Re.assignment "startColor") frame_html) as [color|];
    unfold mbind at 1 2 3, M_bind at 1 2 3; cbn [set_attr modify mret M_ret];
    match goal with
    | |- context [k ?w'] =>
        assert (∃ g3, game_heap w' !! game = Some g3) as [g3 Hg3]
          by (cbn [game_heap upd_game_heap]; rewrite ?list_lookup_alter_eq, Hg0; eauto);
        destruct (Hk w' game g3 Hg3) as (g' & Hg' & Hcore);
        exists g'; split; [exact Hg'|];
        unfold core in Hcore; injection Hcore as _ _ _ _ _ Hml Hfen Hcolor;
        cbn [game_heap upd_game_heap] in Hg3;
        rewrite ?list_lookup_alter_eq, Hg0 in Hg3;
        cbn [fmap option_fmap option_map] in Hg3; injection Hg3 as <-;
        by rewrite Hml, Hfen, Hcolor
    end.
Qed.

(** X2.  [parse_game] treats the three fields unevenly (lines 208-225).
    Without a move-list assignment in the frame document [move_list] is
    reset to [None], whatever it held; [begin_fen] and [start_color] take
    the value captured for them, as captured, and keep the value they had
    when the frame document has no assignment for them.  Saving, however
    it ends, changes none of the three. *)
Theorem parse_game_optional_fields html base_url game w g0 frame src frame_html w1 :
  select_one "#game" (BeautifulSoup html) = Some frame →
  tag_get frame "src" = Some src →
  src ≠ EmptyString →
  fetch_html (urljoin base_url (Py.strip src)) w = (Ok frame_html, w1) →
  game_heap w !! game = Some g0 →
  ∃ g', game_heap (parse_game html base_url game w).2 !! game = Some g' ∧
    (Re.search (Re.assignment "strMoveList") frame_html = None → move_list g' = None) ∧
    begin_fen g' =
      match Re.search (Re.assignment "beginFEN") frame_html with
      | Some value => Some value
      | None => begin_fen g0
      end ∧
    start_color g' =
      match Re.search (Re.assignment "startColor") frame_html with
      | Some value => Some value
      | None => start_color g0
      end.
Proof.
  intros Hframe Hsrc Hne Hfetch Hg0.
  destruct (parse_game_enrich html base_url game w _ _ _ _ Hframe Hsrc Hne Hfetch)
    as [-> Hheap].
  rewrite <- Hheap in Hg0.
  destruct (enrich_fields frame_html game w1 g0 Hg0) as (g' & Hg' & Hml & Hfen & Hcolor).
  exists g'. split; [exact Hg'|]. split; [|done].
  intros Hnone. by rewrite Hml, Hnone.
Qed.

(** X3.  Whenever the frame document holds both a move list and a
    [StartBoard] nonce, the move list [parse_game] stores is not the text
    that was extracted: the marker of line 213 is the empty string, so the
    nonce is put in front of every character and after the last, and the
    stored text is longer by (n + 1) times the length of the nonce. *)
Theorem parse_game_nonce_spread html base_url game w g0 frame src frame_html w1 group1 nonce :
  select_one "#game" (BeautifulSoup html) = Some frame →
  tag_get frame "src" = Some src →
  src ≠ EmptyString →
  fetch_html (urljoin base_url (Py.strip src)) w = (Ok frame_html, w1) →
  Re.search (Re.assignment "strMoveList") frame_html = Some group1 →
  Re.search Re.start_board frame_html = Some nonce →
  game_heap w !! game = Some g0 →
  let extracted := Py.strip group1 in
  ∃ g' stored, game_heap (parse_game html base_url game w).2 !! game = Some g' ∧
    move_list g' = Some stored ∧
    stored ≠ extracted ∧
    String.length stored
      = (String.length extracted + (String.length extracted + 1) * String.length nonce)%nat ∧
    (1 ≤ String.length nonce)%nat.
Proof.
  intros Hframe Hsrc Hne Hfetch Hmoves Hnonce Hg0 extracted.
  destruct (parse_game_enrich html base_url game w _ _ _ _ Hframe Hsrc Hne Hfetch)
    as [-> Hheap].
  rewrite <- Hheap in Hg0.
  destruct (enrich_fields frame_html game w1 g0 Hg0) as (g' & Hg' & Hml & _).
  rewrite Hmoves, Hnonce in Hml. cbn [default] in Hml.
  exists g', (Py.interleave nonce extracted). split; [exact Hg'|].
  split; [exact Hml|]. pose proof (nonce_nonempty _ _ Hnonce) as Hnz.
  split; [by apply interleave_changes|]. split; [apply length_interleave|].
  destruct nonce; [done|cbn; lia].
Qed.

End Fields.


(** * [fetch_html] on any network *)

Section Fetch.
Context `{Platform}.
Variables (u : string) (timeout retries : Z) (backoff : Q).

(** A text that one attempt returns is the body of a response that is not
    an error response, decoded with the declared encoding, or with the
    apparent one when none is declared. *)
Lemma attempt_get_sound w html :
  (attempt_get u timeout w).1 = Ok html →
  ∃ resp enc, session_get (trace w) u timeout = inr resp ∧ status_ok resp ∧
    html = text resp enc ∧
    match encoding resp with
    | None | Some EmptyString => enc = apparent_encoding resp
    | Some declared => enc = declared
    end.
Proof.
  unfold attempt_get. destruct (session_get _ _ _) as [e|resp]; [done|].
  destruct (_ && _) eqn:E; [done|]. cbn. intros [= <-]. eexists resp, _.
  split; [done|]. split; [unfold status_ok; lia|]. split; [done|].
  by destruct (encoding resp) as [[|]|].
Qed.

(** A text that the loop returns was returned by one of its attempts. *)
Lemma fetch_loop_sound range last_err w html :
  (fetch_loop u timeout retries backoff range last_err w).1 = Ok html →
  ∃ evs w0, trace w0 = evs ++ trace w ∧ (attempt_get u timeout w0).1 = Ok html.
Proof.
  revert last_err w. induction range as [|attempt range IH]; intros last_err w; [done|].
  cbn [fetch_loop]. unfold try_except.
  pose proof (attempt_get_trace u timeout w) as Ht.
  destruct (attempt_get u timeout w) as [[a|e] w'] eqn:E; cbn [fst snd] in *.
  { intros [= ->]. exists [], w. by rewrite E. }
  destruct (attempt <? retries); [|done].
  unfold mbind, M_bind. cbn [emit modify]. intros Hok.
  destruct (IH _ _ Hok) as (evs & w0 & Htr & Hget).
  exists (evs ++ [ESleep (Pow backoff (attempt - 1)); EGet u timeout]), w0.
  split; [|done]. rewrite Htr. cbn [trace upd_trace]. by rewrite Ht, <- app_assoc.
Qed.

Lemma filter_get_cons u' t l : filter is_get (EGet u' t :: l) = EGet u' t :: filter is_get l.
Proof. by rewrite filter_cons_True. Qed.

Lemma filter_get_sleep d l : filter is_get (ESleep d :: l) = filter is_get l.
Proof. rewrite filter_cons_False; [done|]. by intros []. Qed.

(** The loop over a range that ends with attempt number [retries]: at
    least one request, never more than the range is long, and one pause
    fewer than requests. *)
Lemma fetch_loop_budget early last_err w :
  Forall (λ attempt, 1 ≤ attempt < retries) early →
  ∃ evs, trace (fetch_loop u timeout retries backoff (early ++ [retries]) last_err w).2
           = evs ++ trace w ∧
    (1 ≤ length (filter is_get evs) ≤ length early + 1)%nat ∧
    (length (sleeps evs) + 1 = length (filter is_get evs))%nat ∧
    Forall (fetch_event u timeout retries backoff) evs.
Proof.
  intros Hearly. revert last_err w.
  induction Hearly as [|attempt early Hlt _ IH]; intros last_err w;
    cbn [app fetch_loop]; unfold try_except;
    pose proof (attempt_get_trace u timeout w) as Ht;
    destruct (attempt_get u timeout w) as [[a|e] w'] eqn:E; cbn [fst snd] in *.
  - exists [EGet u timeout]. rewrite Ht. split; [done|]. rewrite filter_get_cons. cbn.
    split; [lia|]. split; [done|]. repeat constructor.
  - rewrite Z.ltb_irrefl. exists [EGet u timeout]. cbn [raise snd]. rewrite Ht.
    split; [done|]. rewrite filter_get_cons. cbn.
    split; [lia|]. split; [done|]. repeat constructor.
  - exists [EGet u timeout]. rewrite Ht. split; [done|]. rewrite filter_get_cons. cbn.
    split; [lia|]. split; [done|]. repeat constructor.
  - assert ((attempt <? retries) = true) as -> by lia.
    unfold mbind, M_bind. cbn [emit modify].
    destruct (IH (Some e) (upd_trace (cons (ESleep (Pow backoff (attempt - 1)))) w'))
      as (evs & Htr & Hgets & Hsleeps & Hshape).
    exists (evs ++ [ESleep (Pow backoff (attempt - 1)); EGet u timeout]).
    split; [rewrite Htr; cbn [trace upd_trace]; by rewrite Ht, <- app_assoc|].
    unfold sleeps in *.
    rewrite filter_app, omap_app, !length_app, filter_get_sleep, filter_get_cons. cbn.
    split; [lia|]. split; [lia|]. apply Forall_app. split; [done|].
    constructor; [right; eauto|]. repeat constructor.
Qed.

End Fetch.

Lemma range_attempts (n : Z) : Forall (λ attempt, 1 ≤ attempt < n) (seqZ 1 (n - 1)).
Proof.
  apply Forall_forall. intros a Ha%list_elem_of_lookup. destruct Ha as [i Hi].
  apply lookup_seqZ in Hi. lia.
Qed.

Section FetchHtml.
Context `{Platform}.

(** X4.  Whatever the network does, one call of [fetch_html] with
    [retries = n] makes at most [n] requests, all for the URL it was given
    and with its timeout, pauses once after each request but the last one
    it makes, and does nothing else: it touches no registry, no object and
    not the database.  A text is returned only after at least one
    request. *)
Theorem fetch_html_budget (u : string) (timeout n : Z) (backoff : Q) (w : World) :
  let r := fetch_html_with u timeout n backoff w in
  ∃ evs, trace r.2 = evs ++ trace w ∧
    only_trace w r.2 ∧
    (length (filter is_get evs) ≤ Z.to_nat n)%nat ∧
    length (sleeps evs) = (length (filter is_get evs) - 1)%nat ∧
    Forall (fetch_event u timeout n backoff) evs ∧
    (∀ html, r.1 = Ok html → (1 ≤ length (filter is_get evs))%nat).
Proof.
  intros r. subst r.
  assert (only_trace w (fetch_html_with u timeout n backoff w).2) as Honly.
  { apply (steps_fetch_loop only_trace only_trace_refl only_trace_trans only_trace_upd). }
  destruct (decide (1 ≤ n)) as [Hn|Hn].
  - destruct (range_split n Hn) as [Hsplit _]. unfold fetch_html_with in *.
    rewrite Hsplit in *.
    destruct (fetch_loop_budget u timeout n backoff (seqZ 1 (n - 1)) None w
                (range_attempts n)) as (evs & Htr & Hgets & Hsleeps & Hshape).
    exists evs. rewrite length_seqZ in Hgets.
    split; [done|]. split; [done|]. split; [lia|]. split; [lia|]. split; [done|].
    intros _ _. lia.
  - rewrite fetch_html_no_attempt in * by lia. exists []. cbn.
    split; [done|]. split; [done|]. split; [lia|]. by repeat split.
Qed.

(** X5.  A text that [fetch_html] returns is the body of a response to a
    request of this very call whose status is outside 400..599, decoded
    with the encoding the response declares, or with the apparent encoding
    when it declares none (or an empty one): the body of an error response
    is never returned, and neither is a value made up after failures. *)
Theorem fetch_html_returns_response (u : string) (timeout n : Z) (backoff : Q)
    (w : World) (html : string) :
  (fetch_html_with u timeout n backoff w).1 = Ok html →
  ∃ evs resp enc,
    session_get (evs ++ trace w) u timeout = inr resp ∧
    status_ok resp ∧
    html = text resp enc ∧
    match encoding resp with
    | None | Some EmptyString => enc = apparent_encoding resp
    | Some declared => enc = declared
    end.
Proof.
  intros Hok. apply fetch_loop_sound in Hok as (evs & w0 & Htr & Hget).
  apply attempt_get_sound in Hget as (resp & enc & Hresp & ?).
  exists evs, resp, enc. by rewrite <- Htr.
Qed.

End FetchHtml.


(** * How [save_game] ends *)

Section Raises.
Context `{Platform}.
Variable P : exn → Prop.

Lemma raises_only_ret {A} (a : A) : raises_only P (mret a).
Proof. by intros w e. Qed.

Lemma raises_only_gets {A} (f : World → A) : raises_only P (gets f).
Proof. by intros w e. Qed.

Lemma raises_only_modify f : raises_only P (modify f).
Proof. by intros w e. Qed.

Lemma raises_only_bind {A B} (m : M A) (k : A → M B) :
  raises_only P m → (∀ a, raises_only P (k a)) → raises_only P (m ≫= k).
Proof.
  intros Hm Hk w e. unfold mbind, M_bind. specialize (Hm w).
  destruct (m w) as [[a|e'] w']; cbn [fst] in *.
  - apply Hk.
  - intros [= <-]. by apply Hm.
Qed.

Lemma raises_only_cache_event name v : raises_only P (cache_event name v).
Proof.
  apply raises_only_bind; [apply raises_only_gets|]. intros [|]; [apply raises_only_ret|].
  apply raises_only_bind; [by intros w e|]. intros a. apply raises_only_modify.
Qed.

End Raises.

Section SaveGameOutcome.
Context `{Platform}.

Local Abbreviation mongo_only := (raises_only (λ e, is_PyMongoError e = true)).

Lemma on_store_raises {A} c key (op : Store → A * Store) : mongo_only (on_store c key op).
Proof.
  apply raises_only_bind.
  - intros w e. unfold round_trip. destruct (mongo_fault _); [|done]. by intros [= <-].
  - intros _ w e. cbn. by destruct (op (store w)).
Qed.

(** Inside the [try] block only the round trips to the server can fail. *)
Lemma save_game_try_raises game : mongo_only (save_game_try game).
Proof.
  unfold save_game_try, upsert_player, upsert_event, upsert_game, update_caches.
  repeat first
    [ apply on_store_raises | apply raises_only_cache_event
    | apply raises_only_bind; [|intros ?]
    | apply raises_only_ret | apply raises_only_gets | apply raises_only_modify
    | lazymatch goal with |- raises_only _ (match ?x with _ => _ end) => destruct x end ].
Qed.

(** X6.  How [save_game] ends, whatever the server does.  Without pymongo
    it logs one warning and returns, having touched nothing else.  When
    the client cannot be built the exception of [MongoClient] leaves
    [save_game], which has done nothing.  Otherwise [save_game] returns
    normally: a failure of any of its round trips is caught and logged. *)
Theorem save_game_outcome game w :
  match pymongo_import, MongoClient with
  | Some e, _ =>
      save_game game w
        = (Ok tt, logged WARNING "pymongo not available; skipping saving game %s: %s"
                    [AStr (url (game_heap w !!! game)); AExn e] w)
  | None, Some e => save_game game w = (Raise e, w)
  | None, None => (save_game game w).1 = Ok tt
  end.
Proof.
  unfold save_game. destruct pymongo_import as [e|]; [done|].
  destruct MongoClient as [e|]; [done|].
  pose proof (save_game_try_raises game w) as Hraise.
  destruct (save_game_try game w) as [[[]|e] w']; [done|].
  by rewrite (Hraise e eq_refl).
Qed.

End SaveGameOutcome.


(** * What [save_game] leaves in the game object *)

(** The outcome of the game upsert and of the lookup that follows it when
    nothing was inserted: either way the document under the URL is
    [doc i] for the [_id] the script reads. *)
Lemma games_update_one_id u doc s :
  (∀ i, gd_url (doc i) = u) →
  let '(upserted, s') := games_update_one u doc s in
  players_col s' = players_col s ∧ events_col s' = events_col s ∧
  match upserted with
  | Some i => doc i ∈ games_col s'
  | None => ∃ i, games_find_one u s' = Some (doc i) ∧ doc i ∈ games_col s'
  end.
Proof.
  intros Hdoc. unfold games_update_one.
  destruct (list_find _ _) as [[i d]|] eqn:Hfind.
  - split; [done|]. split; [done|]. exists (gd_id d).
    apply list_find_Some in Hfind as (Hi & Hu & Hfirst).
    assert (<[i:=doc (gd_id d)]> (games_col s) !! i = Some (doc (gd_id d))) as Hi'.
    { apply list_lookup_insert_eq. by eapply lookup_lt_Some. }
    split; [|by eapply list_elem_of_lookup_2].
    unfold games_find_one. cbn [games_col set_games_col].
    assert (list_find (λ d0, gd_url d0 = u) (<[i:=doc (gd_id d)]> (games_col s))
            = Some (i, doc (gd_id d))) as ->; [|done].
    apply list_find_Some. split; [done|]. split; [apply Hdoc|].
    intros j y Hj Hlt. rewrite list_lookup_insert_ne in Hj by lia. by eapply Hfirst.
  - split; [done|]. split; [done|]. cbn. set_solver.
Qed.

Section SavedIds.
Context `{Platform}.
Hypothesis Hfault : ∀ tr, mongo_fault tr = None.

Lemma upsert_player_heap side set_side_id game w :
  let name := side (game_heap w !!! game) in
  let op := players_find_one_and_update name (registered_url name w) (store w) in
  ∃ w', upsert_player side set_side_id game w = (Ok op.1, w') ∧
        store w' = op.2 ∧
        game_heap w' = alter (set_side_id (Some (pd_id op.1))) game (game_heap w).
Proof.
  intros name op. unfold upsert_player.
  rewrite run_attr, run_gets, (run_on_store Hfault), run_set_attr. by eexists.
Qed.

Lemma upsert_event_heap game w :
  let op := events_find_one_and_update (event (game_heap w !!! game)) (store w) in
  ∃ w', upsert_event game w = (Ok op.1, w') ∧ store w' = op.2 ∧
        game_heap w' = alter (set_event_id (Some (ed_id op.1))) game (game_heap w).
Proof.
  intros op. unfold upsert_event.
  rewrite run_attr, (run_on_store Hfault), run_set_attr. by eexists.
Qed.

Lemma upsert_game_heap game red_doc black_doc event_doc w :
  let g := game_heap w !!! game in
  let game_doc := λ i,
    mkGameDoc i (pd_id red_doc) (pd_id black_doc) (ed_id event_doc)
      (url g) (result g) (move_list g) (begin_fen g) (start_color g) in
  ∃ w' i, upsert_game game red_doc black_doc event_doc w = (Ok tt, w') ∧
          players_col (store w') = players_col (store w) ∧
          events_col (store w') = events_col (store w) ∧
          game_doc i ∈ games_col (store w') ∧
          game_heap w' = alter (set_id (Some i)) game (game_heap w).
Proof.
  intros g game_doc. unfold upsert_game. rewrite run_attr. cbv zeta.
  rewrite (run_on_store Hfault). fold g. fold game_doc.
  pose proof (games_update_one_id (url g) game_doc (store w) (λ _, eq_refl)) as Hid.
  destruct (games_update_one (url g) game_doc (store w)) as [[i|] s']; cbn [fst snd].
  - destruct Hid as (Hp & He & Hin). by eexists _, i.
  - destruct Hid as (Hp & He & i & Hfound & Hin).
    rewrite (run_on_store Hfault). cbn [fst snd store upd_store upd_trace].
    rewrite Hfound. by eexists _, i.
Qed.

Lemma cache_player_id_heap {B} name v (k : unit → M B) w :
  ∃ w', (cache_player_id name v ≫= k) w = k tt w' ∧ store w' = store w ∧
        game_heap w' = game_heap w.
Proof.
  unfold cache_player_id. eexists. split; [done|]. by destruct (players w !! name).
Qed.

Lemma cache_event_heap name v w :
  ∃ w', cache_event name v w = (Ok tt, w') ∧ store w' = store w ∧
        game_heap w' = game_heap w.
Proof.
  unfold cache_event. rewrite run_gets. case_bool_decide; eexists; split; done.
Qed.

Lemma update_caches_heap game w :
  ∃ w', update_caches game w = (Ok tt, w') ∧ store w' = store w ∧
        game_heap w' = game_heap w.
Proof.
  unfold update_caches. rewrite !run_attr.
  destruct (cache_player_id_heap (red_player (game_heap w !!! game))
              (red_player_id (game_heap w !!! game))
              (λ _, black ← attr black_player game;
                    bid ← attr black_player_id game;
                    cache_player_id black bid;;
                    ev ← attr event game;
                    eid ← attr event_id game;
                    cache_event ev eid) w) as (w1 & -> & Hs1 & Hh1).
  rewrite !run_attr.
  destruct (cache_player_id_heap (black_player (game_heap w1 !!! game))
              (black_player_id (game_heap w1 !!! game))
              (λ _, ev ← attr event game;
                    eid ← attr event_id game;
                    cache_event ev eid) w1) as (w2 & -> & Hs2 & Hh2).
  rewrite !run_attr.
  destruct (cache_event_heap (event (game_heap w2 !!! game))
              (event_id (game_heap w2 !!! game)) w2) as (w3 & -> & Hs3 & Hh3).
  exists w3. split; [done|]. split; congruence.
Qed.

Lemma lookup_total_Some (heap : list PlayerGame) a g : heap !! a = Some g → heap !!! a = g.
Proof. intros Hg. by rewrite list_lookup_total_alt, Hg. Qed.

(** The [try] block with the server up: the game object ends up holding
    the [_id]s of the four documents that stand for it in the database. *)
Lemma save_game_try_ids game w g0 :
  game_heap w !! game = Some g0 →
  ∃ w' red_doc black_doc event_doc i,
    save_game_try game w = (Ok tt, w') ∧
    game_heap w' !! game
      = Some (set_id (Some i)
                (set_event_id (Some (ed_id event_doc))
                   (set_black_player_id (Some (pd_id black_doc))
                      (set_red_player_id (Some (pd_id red_doc)) g0)))) ∧
    red_doc ∈ players_col (store w') ∧ pd_name red_doc = red_player g0 ∧
    black_doc ∈ players_col (store w') ∧ pd_name black_doc = black_player g0 ∧
    event_doc ∈ events_col (store w') ∧ ed_name event_doc = event g0 ∧
    mkGameDoc i (pd_id red_doc) (pd_id black_doc) (ed_id event_doc)
      (url g0) (result g0) (move_list g0) (begin_fen g0) (start_color g0)
      ∈ games_col (store w').
Proof.
  intros Hg0. unfold save_game_try.
  destruct (upsert_player_heap red_player set_red_player_id game w) as (w1 & E1 & Hs1 & Hh1).
  rewrite (run_bind _ _ _ _ _ E1). clear E1.
  rewrite (lookup_total_Some _ _ _ Hg0) in *.
  pose proof (players_find_one_and_update_spec (red_player g0)
                (registered_url (red_player g0) w) (store w)) as Hred.
  destruct (players_find_one_and_update (red_player g0) _ (store w)) as [red_doc s1].
  cbn [fst snd] in *. destruct Hred as (Hn1 & Hin1 & _).
  assert (game_heap w1 !! game = Some (set_red_player_id (Some (pd_id red_doc)) g0)) as Hg1.
  { by rewrite Hh1, list_lookup_alter_eq, Hg0. }
  destruct (upsert_player_heap black_player set_black_player_id game w1)
    as (w2 & E2 & Hs2 & Hh2).
  rewrite (run_bind _ _ _ _ _ E2). clear E2.
  rewrite (lookup_total_Some _ _ _ Hg1) in *. cbn [black_player set_red_player_id] in *.
  pose proof (players_find_one_and_update_spec (black_player g0)
                (registered_url (black_player g0) w1) (store w1)) as Hblack.
  destruct (players_find_one_and_update (black_player g0) _ (store w1)) as [black_doc s2].
  cbn [fst snd] in *. destruct Hblack as (Hn2 & Hin2 & Hpre2 & _).
  assert (game_heap w2 !! game
          = Some (set_black_player_id (Some (pd_id black_doc))
                    (set_red_player_id (Some (pd_id red_doc)) g0))) as Hg2.
  { by rewrite Hh2, list_lookup_alter_eq, Hg1. }
  destruct (upsert_event_heap game w2) as (w3 & E3 & Hs3 & Hh3).
  rewrite (run_bind _ _ _ _ _ E3). clear E3.
  rewrite (lookup_total_Some _ _ _ Hg2) in *.
  cbn [event set_black_player_id set_red_player_id] in *.
  pose proof (events_find_one_and_update_spec (event g0) (store w2)) as Hevent.
  destruct (events_find_one_and_update (event g0) (store w2)) as [event_doc s3].
  cbn [fst snd] in *. destruct Hevent as (Hn3 & Hin3 & _ & _ & Hp3 & _).
  assert (game_heap w3 !! game
          = Some (set_event_id (Some (ed_id event_doc))
                    (set_black_player_id (Some (pd_id black_doc))
                       (set_red_player_id (Some (pd_id red_doc)) g0)))) as Hg3.
  { by rewrite Hh3, list_lookup_alter_eq, Hg2. }
  destruct (upsert_game_heap game red_doc black_doc event_doc w3)
    as (w4 & i & E4 & Hp4 & He4 & Hin4 & Hh4).
  rewrite (run_bind _ _ _ _ _ E4). clear E4.
  rewrite (lookup_total_Some _ _ _ Hg3) in Hin4.
  cbn [url result move_list begin_fen start_color
       set_event_id set_black_player_id set_red_player_id] in Hin4.
  destruct (update_caches_heap game w4) as (w5 & E5 & Hs5 & Hh5).
  rewrite (run_bind _ _ _ _ _ E5). clear E5. rewrite run_attr.
  eexists _, red_doc, black_doc, event_doc, i. split; [done|].
  cbn [logged store game_heap upd_trace]. rewrite Hs5, Hh5, Hh4, Hp4, He4, Hs3.
  split; [by rewrite list_lookup_alter_eq, Hg3|].
  rewrite Hp3, Hs2. subst s1.
  repeat split; try done.
  destruct Hpre2 as [k ->]. set_solver.
Qed.

End SavedIds.

(** X7.  With the server up, [save_game] leaves the game object and the
    database pointing at each other: [red_player_id], [black_player_id]
    and [event_id] of the object are the [_id]s of documents that are in
    the database under the names of the game, [id] is the [_id] of the
    game document under the URL of the game, whether it was inserted or
    already there, and that document refers to the same three documents
    and holds the fields of the game.  The other fields of the object are
    as before. *)
Theorem save_game_references `{Platform} game w g0 :
  mongo_up →
  game_heap w !! game = Some g0 →
  let w' := (save_game game w).2 in
  ∃ g' red_doc black_doc event_doc game_doc,
    game_heap w' !! game = Some g' ∧ core g' = core g0 ∧
    red_doc ∈ players_col (store w') ∧ pd_name red_doc = red_player g0 ∧
    red_player_id g' = Some (pd_id red_doc) ∧
    black_doc ∈ players_col (store w') ∧ pd_name black_doc = black_player g0 ∧
    black_player_id g' = Some (pd_id black_doc) ∧
    event_doc ∈ events_col (store w') ∧ ed_name event_doc = event g0 ∧
    event_id g' = Some (ed_id event_doc) ∧
    game_doc ∈ games_col (store w') ∧ id g' = Some (gd_id game_doc) ∧
    game_doc = mkGameDoc (gd_id game_doc) (pd_id red_doc) (pd_id black_doc)
                 (ed_id event_doc) (url g0) (result g0) (move_list g0)
                 (begin_fen g0) (start_color g0).
Proof.
  intros (Himport & Hclient & Hup) Hg0 w'. subst w'.
  unfold save_game. rewrite Himport, Hclient.
  destruct (save_game_try_ids Hup game w g0 Hg0)
    as (w' & red_doc & black_doc & event_doc & i & -> & Hg' & ? & ? & ? & ? & ? & ? & ?).
  eexists _, red_doc, black_doc, event_doc, _. cbn [snd].
  split; [exact Hg'|]. by repeat split.
Qed.


(** * Pagination walks on any site *)

Section Walks.
Context `{Platform}.

(** The loop yields no more pages than [max_pages] leaves room for. *)
Lemma pagination_loop_bounded base_url max_pages body soup pages_fetched seen w :
  (length (pagination_loop base_url max_pages body soup pages_fetched seen w).1.1
   ≤ Z.to_nat (max_pages - pages_fetched))%nat.
Proof.
  funelim (pagination_loop base_url max_pages body soup pages_fetched seen w).
  destruct (select_one _ soup) as [a|]; [|cbn; lia].
  destruct (Py.strip _) as [|c href']; [cbn; lia|].
  destruct (decide _) as [Hstop|Hgo]; [cbn; lia|].
  destruct (fetch_html _ w) as [[html|e] w1] eqn:Hfetch; [|cbn; lia].
  destruct (yield_then_yields body (mkGameList html (urljoin base_url (String c href')))
              (λ w2, pagination_loop base_url max_pages body (BeautifulSoup html)
                       (pages_fetched + 1) (seen ∪ {[urljoin base_url (String c href')]}) w2)
              w1) as (ys & -> & Hys).
  assert (length ys ≤ Z.to_nat (max_pages - (pages_fetched + 1)))%nat as Hlen.
  { destruct Hys as [->|[w' ->]]; [cbn; lia|].
    match goal with
    | IH : context [length] |- _ => apply (IH a c href' Hgo (Ok html) w1)
    end. }
  cbn [length]. lia.
Qed.

(** X8.  Whatever the site serves and whatever the consumer does, one call
    of [parse_pagination_links] yields at most [max_pages] pages, or one
    when [max_pages] is below one: the start page is yielded before the
    ceiling is looked at. *)
Theorem pagination_bounded base_url max_pages body w :
  (length (parse_pagination_links base_url max_pages body w).1.1
   ≤ Z.to_nat (Z.max 1 max_pages))%nat.
Proof.
  unfold parse_pagination_links, run_then.
  destruct (fetch_html base_url w) as [[html|e] w1]; [|cbn; lia].
  cbn zeta.
  destruct (yield_then_yields body (mkGameList html base_url)
              (pagination_loop base_url max_pages body (BeautifulSoup html) 1 {[base_url]})
              w1) as (ys & -> & Hys).
  cbn [length]. destruct Hys as [->|[w' ->]]; [cbn; lia|].
  pose proof (pagination_loop_bounded base_url max_pages body (BeautifulSoup html) 1
                {[base_url]} w'). lia.
Qed.

(** The pages the loop yields, put after the page it starts on, are linked
    by their pagers. *)
Lemma pagination_loop_linked base_url max_pages body soup pages_fetched seen w :
  ∀ p, soup = BeautifulSoup (gl_html p) →
    chain base_url
      (p :: (pagination_loop base_url max_pages body soup pages_fetched seen w).1.1).
Proof.
  funelim (pagination_loop base_url max_pages body soup pages_fetched seen w).
  intros p Hsoup.
  destruct (select_one _ soup) as [a|] eqn:Ha; [|done].
  destruct (Py.strip _) as [|c href'] eqn:Hhref; [done|].
  destruct (decide _) as [Hstop|Hgo]; [done|].
  destruct (fetch_html _ w) as [[html|e] w1] eqn:Hfetch; [|done].
  destruct (yield_then_yields body (mkGameList html (urljoin base_url (String c href')))
              (λ w2, pagination_loop base_url max_pages body (BeautifulSoup html)
                       (pages_fetched + 1) (seen ∪ {[urljoin base_url (String c href')]}) w2)
              w1) as (ys & -> & Hys).
  split.
  - unfold next_url. rewrite <- Hsoup, Ha. cbn. by rewrite Hhref.
  - destruct Hys as [->|[w' ->]]; [done|].
    match goal with
    | IH : context [chain] |- _ => by apply (IH a c href' Hgo (Ok html) w1)
    end.
Qed.

(** X9.  Whatever the site serves, the pages one walk yields are linked:
    the first is the start URL, and every other one is the page that the
    pager link of the page before it leads to, the link being resolved
    against the start URL of the walk, not against the page it is on. *)
Theorem pagination_linked base_url max_pages body w :
  let ys := (parse_pagination_links base_url max_pages body w).1.1 in
  chain base_url ys ∧ ∀ first, head ys = Some first → gl_url first = base_url.
Proof.
  unfold parse_pagination_links, run_then.
  destruct (fetch_html base_url w) as [[html|e] w1]; [|done].
  cbn zeta.
  destruct (yield_then_yields body (mkGameList html base_url)
              (pagination_loop base_url max_pages body (BeautifulSoup html) 1 {[base_url]})
              w1) as (ys & -> & Hys).
  split; [|by intros first [= <-]].
  destruct Hys as [->|[w' ->]]; [done|]. by apply pagination_loop_linked.
Qed.

(** The loop, started on page [p] of a chain whose pages can be fetched:
    it yields the pages after [p], and ends as it ends on the last one. *)
Lemma pagination_loop_along base_url max_pages body (Q : World → Prop) :
  never_raises body →
  ∀ rest p pages_fetched seen w final,
    chain base_url (p :: rest) →
    last (p :: rest) = Some final →
    Forall (λ q, serves (gl_url q) (gl_html q)) rest →
    NoDup (gl_url <$> rest) →
    (∀ q, q ∈ rest → gl_url q ∉ seen) →
    pages_fetched + Z.of_nat (length rest) ≤ max_pages ∨ rest = [] →
    (∀ w', ∃ w'',
       pagination_loop base_url max_pages body (BeautifulSoup (gl_html final))
         (pages_fetched + Z.of_nat (length rest))
         (seen ∪ list_to_set (gl_url <$> rest)) w' = ([], Ok tt, w'') ∧ Q w'') →
    ∃ w'', pagination_loop base_url max_pages body (BeautifulSoup (gl_html p))
             pages_fetched seen w = (rest, Ok tt, w'') ∧ Q w''.
Proof.
  intros Hbody rest. induction rest as [|q rest IH];
    intros p pages_fetched seen w final Hchain Hlast Hserves Hnd Hfresh Hroom Hend.
  - injection Hlast as <-. specialize (Hend w). cbn in Hend.
    by rewrite Z.add_0_r, union_empty_r_L in Hend.
  - rewrite pagination_loop_next.
    destruct Hchain as [-> Hchain]. destruct Hroom as [Hroom|?]; [|done].
    cbn [length] in Hroom.
    rewrite decide_False.
    2:{ intros [Hin|Hge]; [|lia]. apply (Hfresh q); [left|done]. }
    apply Forall_cons in Hserves as [Hq Hserves]. specialize (Hq w).
    destruct (fetch_html (gl_url q) w) as [[html'|e] w1]; cbn [fst] in Hq; [|done].
    injection Hq as ->. unfold yield_then.
    specialize (Hbody (mkGameList (gl_html q) (gl_url q)) w1).
    destruct (body _ w1) as [[[]|e] w2]; cbn [fst] in Hbody; [|done].
    rewrite fmap_cons in Hnd. apply NoDup_cons in Hnd as [Hq_fresh Hnd].
    rewrite last_cons_cons in Hlast.
    destruct (IH q (pages_fetched + 1) (seen ∪ {[gl_url q]}) w2 final Hchain Hlast
                Hserves Hnd) as (w'' & -> & HQ).
    + intros q' Hq'. specialize (Hfresh q' (list_elem_of_further _ _ _ Hq')).
      assert (gl_url q' ≠ gl_url q); [|set_solver].
      intros E. apply Hq_fresh. rewrite <- E. by apply list_elem_of_fmap_2.
    + destruct rest; [by right|left]. cbn [length] in *. lia.
    + intros w'.
      replace (pages_fetched + 1 + Z.of_nat (length rest))
        with (pages_fetched + Z.of_nat (S (length rest))) by lia.
      replace (seen ∪ {[gl_url q]} ∪ list_to_set (gl_url <$> rest))
        with (seen ∪ list_to_set (gl_url <$> q :: rest)) by set_solver.
      apply Hend.
    + exists w''. by destruct q.
Qed.


End Walks.


(** * Every step of a run

    A relation that each primitive step of the script respects is
    respected by the whole run.  The steps are: a line of the trace, one
    of the three upserts, an assignment to a field of a game, a cache
    update of [save_game], the construction of a game, a new entry of the
    dedup set, the registration of a player or an event, and the [pop] of
    the queue. *)

Lemma upd_store_same w : upd_store (λ _, store w) w = w.
Proof. by destruct w. Qed.

Section EveryStep.
Context `{Platform}.
Variable R : World → World → Prop.
Hypothesis R_refl : ∀ w, R w w.
Hypothesis R_trans : ∀ w1 w2 w3, R w1 w2 → R w2 w3 → R w1 w3.
Hypothesis R_trace : ∀ f w, R w (upd_trace f w).
Hypothesis R_players_upsert :
  ∀ n u w, R w (upd_store (λ _, (players_find_one_and_update n u (store w)).2) w).
Hypothesis R_events_upsert :
  ∀ n w, R w (upd_store (λ _, (events_find_one_and_update n (store w)).2) w).
Hypothesis R_games_upsert :
  ∀ u doc w, (∀ i, gd_url (doc i) = u ∧ gd_id (doc i) = i) →
    R w (upd_store (λ _, (games_update_one u doc (store w)).2) w).
Hypothesis R_assign :
  ∀ setter a w, assigns setter → R w (upd_game_heap (alter setter a) w).
Hypothesis R_cache_player_id : ∀ name v, steps R (cache_player_id name v).
Hypothesis R_cache_event : ∀ name v, steps R (cache_event name v).

Lemma every_on_store {A} c key (op : Store → A * Store) :
  (∀ w, R w (upd_store (λ _, (op (store w)).2) w)) → steps R (on_store c key op).
Proof.
  intros Hop. apply (steps_bind _ R_trans).
  - intros w. unfold round_trip. destruct (mongo_fault _); apply R_trace.
  - intros _ w. specialize (Hop w). cbn. by destruct (op (store w)) as [a s].
Qed.

(** One syntax-directed step of a proof that a computation respects [R]. *)
Ltac every_step :=
  lazymatch goal with
  | |- steps _ (on_store _ _ (players_find_one_and_update _ _)) =>
      apply every_on_store; intros; apply R_players_upsert
  | |- steps _ (on_store _ _ (events_find_one_and_update _)) =>
      apply every_on_store; intros; apply R_events_upsert
  | |- steps _ (on_store _ _ (games_update_one _ _)) =>
      apply every_on_store; intros; apply R_games_upsert; by intros
  | |- steps _ (on_store _ _ _) =>
      apply every_on_store; intros; cbn [snd]; rewrite upd_store_same; apply R_refl
  | |- steps _ (cache_player_id _ _) => apply R_cache_player_id
  | |- steps _ (cache_event _ _) => apply R_cache_event
  | |- steps _ (log _ _ _) => apply steps_log, R_trace
  | |- steps _ (set_attr _ _) =>
      apply steps_modify; intros; apply R_assign; constructor
  | |- steps _ (mbind _ _) => apply (steps_bind _ R_trans); [|intros ?]
  | |- steps _ (mret _) => apply steps_ret, R_refl
  | |- steps _ (raise _) => apply steps_raise, R_refl
  | |- steps _ (gets _) => apply steps_gets, R_refl
  | |- steps _ (attr _ _) => apply steps_attr, R_refl
  | |- steps _ (try_except _ _) => apply (steps_try _ R_trans); [|intros ?]
  | |- steps _ (fetch_html _) => apply steps_fetch_html; [exact R_refl|exact R_trans|exact R_trace]
  | |- steps _ (match ?x with _ => _ end) => destruct x
  end.

Lemma every_save_game game : steps R (save_game game).
Proof.
  unfold save_game. destruct pymongo_import; [repeat every_step|].
  destruct MongoClient; [every_step|].
  assert (steps R (save_game_try game)) as Htry.
  { unfold save_game_try, upsert_player, upsert_event, upsert_game, update_caches.
    repeat every_step. }
  intros w. specialize (Htry w).
  destruct (save_game_try game w) as [[a|e] w']; cbn [snd] in *; [done|].
  destruct (is_PyMongoError e); cbn; [|done].
  eapply R_trans; [exact Htry|]. apply R_trace.
Qed.

Lemma every_parse_game html base_url game : steps R (parse_game html base_url game).
Proof.
  unfold parse_game. destruct (_ ≫= _) as [[|c src]|]; [every_step| |every_step].
  every_step; [every_step|].
  unfold enrich, extract_move_list, extract_begin_fen, extract_start_color.
  repeat first [apply every_save_game | every_step].
Qed.

Hypothesis R_new_game : ∀ g w, R w (upd_game_heap (λ h, h ++ [g]) w).

Lemma every_game_entry base_url game_div : steps R (game_entry base_url game_div).
Proof.
  unfold game_entry.
  repeat first
    [ apply every_parse_game
    | lazymatch goal with
      | |- steps _ (new_game _) => intros w; apply R_new_game
      end
    | every_step ].
Qed.

Lemma every_game_links_loop base_url body divs :
  (∀ y, steps R (body y)) → gsteps R (game_links_loop base_url body divs).
Proof.
  intros Hbody. induction divs as [|game_div divs IH]; cbn [game_links_loop].
  - intros w. apply R_refl.
  - apply (gsteps_run_then _ R_trans); [apply every_game_entry|].
    intros [game|]; [|done]. by apply (gsteps_yield_then _ R_trans).
Qed.

Lemma every_parse_game_links base_url body :
  (∀ y, steps R (body y)) → gsteps R (parse_game_links base_url body).
Proof.
  intros Hbody. apply (gsteps_run_then _ R_trans); [every_step|].
  intros html. by apply every_game_links_loop.
Qed.

Hypothesis R_mark : ∀ k w, R w (upd_games (λ s, s ∪ {[k]}) w).
Hypothesis R_found_player : ∀ name, steps R (register_player name EmptyString).
Hypothesis R_found_event : ∀ name, steps R (register_event name).

Lemma every_game_body g : steps R (game_body g).
Proof.
  unfold game_body, announce.
  repeat first
    [ apply every_save_game | apply R_found_player | apply R_found_event
    | lazymatch goal with
      | |- steps _ (modify (upd_games _)) => apply steps_modify; intros; apply R_mark
      end
    | every_step ].
Qed.

Lemma every_visit_player player : steps R (visit_player player).
Proof.
  unfold visit_player. every_step; [every_step|]. every_step; [every_step|].
  every_step; [every_step|].
  apply steps_for_each.
  apply gsteps_parse_pagination_links; [exact R_refl|exact R_trans|exact R_trace|].
  intros page. apply steps_for_each, every_parse_game_links, every_game_body.
Qed.

Hypothesis R_pop :
  ∀ player queue' w, player_queue w = player :: queue' →
    R w (upd_player_queue (λ _, queue') w).

Lemma every_drain_queue fuel w : R w (drain_queue fuel w).2.
Proof.
  revert w. induction fuel as [|fuel IH]; intros w; cbn [drain_queue].
  - destruct (player_queue w); apply R_refl.
  - destruct (player_queue w) as [|player queue'] eqn:Hq; [apply R_refl|].
    pose proof (every_visit_player player (upd_player_queue (λ _, queue') w)) as Hvisit.
    pose proof (R_pop player queue' w Hq) as Hpop.
    destruct (visit_player player _) as [[[]|e] w']; cbn [snd] in *.
    + eapply R_trans; [|apply IH]. by eapply R_trans.
    + by eapply R_trans.
Qed.

Hypothesis R_seed_player : ∀ name u, steps R (register_player name u).

Lemma every_seed base_url : steps R (seed base_url).
Proof.
  unfold seed. every_step; [every_step|].
  induction (select "div.game" (BeautifulSoup a)) as [|game_div divs IH]; cbn [seed_loop].
  { every_step. }
  every_step; [|exact IH]. unfold seed_entry.
  repeat first [apply R_seed_player | every_step].
Qed.

Lemma every_parse_home_page fuel base_url w : R w (parse_home_page fuel base_url w).2.
Proof.
  unfold parse_home_page. pose proof (every_seed base_url w) as Hseed.
  destruct (seed base_url w) as [[[]|e] w']; cbn [snd] in *; [|done].
  eapply R_trans; [exact Hseed|apply every_drain_queue].
Qed.

End EveryStep.


(** * What a whole run never does *)

Section Database.
Context `{Platform}.

Lemma store_grows_refl s : store_grows s s.
Proof. by unfold store_grows. Qed.

Lemma store_grows_trans s1 s2 s3 : store_grows s1 s2 → store_grows s2 s3 → store_grows s1 s3.
Proof.
  intros (P1 & E1 & U1 & I1 & K1) (P2 & E2 & U2 & I2 & K2).
  unfold store_grows. split_and!; [by etrans..|auto].
Qed.

Lemma players_upsert_grows n u s : store_grows s (players_find_one_and_update n u s).2.
Proof.
  pose proof (players_find_one_and_update_spec n u s) as Hspec.
  destruct (players_find_one_and_update n u s) as [d s'].
  destruct Hspec as (_ & _ & Hpre & Hnd & He & Hg). cbn [snd].
  unfold store_grows, unique_keys. rewrite He, Hg. split_and!; try done.
  intros (? & ? & ?). auto.
Qed.

Lemma events_upsert_grows n s : store_grows s (events_find_one_and_update n s).2.
Proof.
  pose proof (events_find_one_and_update_spec n s) as Hspec.
  destruct (events_find_one_and_update n s) as [d s'].
  destruct Hspec as (_ & _ & Hpre & Hnd & Hp & Hg). cbn [snd].
  unfold store_grows, unique_keys. rewrite Hp, Hg. split_and!; try done.
  intros (? & ? & ?). auto.
Qed.

Lemma games_upsert_grows u doc s :
  (∀ i, gd_url (doc i) = u ∧ gd_id (doc i) = i) →
  store_grows s (games_update_one u doc s).2.
Proof.
  intros Hdoc.
  assert (unique_keys s → unique_keys (games_update_one u doc s).2) as Hkeys.
  { intros (Hp & He & Hg).
    destruct (games_update_one_spec u doc s (λ i, proj1 (Hdoc i)) Hg) as (? & _ & Ep & Ee).
    unfold unique_keys. by rewrite Ep, Ee. }
  revert Hkeys. unfold games_update_one.
  destruct (list_find _ _) as [[i d]|] eqn:Hfind; cbn [snd]; intros Hkeys;
    unfold store_grows; cbn [players_col events_col games_col set_games_col bump_oid].
  - apply list_find_Some in Hfind as (Hi & Hu & _).
    split_and!; [done|done| | |exact Hkeys].
    + rewrite list_fmap_insert, list_insert_id; [done|].
      rewrite list_lookup_fmap, Hi. cbn. f_equal. rewrite Hu. symmetry. apply Hdoc.
    + rewrite list_fmap_insert, list_insert_id; [done|].
      rewrite list_lookup_fmap, Hi. cbn. f_equal. symmetry. apply Hdoc.
  - rewrite !fmap_app. split_and!; try done; by apply prefix_app_r.
Qed.

Lemma grows_same_store w w' : store w' = store w → db_grows w w'.
Proof. unfold db_grows. intros ->. apply store_grows_refl. Qed.

Lemma cache_player_id_store name v w : store (cache_player_id name v w).2 = store w.
Proof. cbn. by destruct (players w !! name). Qed.

Lemma cache_event_store name v w : store (cache_event name v w).2 = store w.
Proof. unfold cache_event. rewrite run_gets. by case_bool_decide. Qed.

Lemma register_player_store name u w : store (register_player name u w).2 = store w.
Proof. unfold register_player, known. rewrite run_gets. by case_bool_decide. Qed.

Lemma register_event_store name w : store (register_event name w).2 = store w.
Proof. unfold register_event, known. rewrite run_gets. by case_bool_decide. Qed.

(** X11.  Whatever the site serves and whatever the server does, a run
    takes nothing out of the database: every player and event document it
    found is still there, unchanged and at its place; every game document
    it found is still there under its URL and its [_id]; and natural keys
    that were unique at the start are unique at the end.  The same holds
    from any state of the run on. *)
Theorem database_only_grows fuel base_url w :
  store_grows (store w) (store (parse_home_page fuel base_url w).2) ∧
  store_grows (store w) (store (drain_queue fuel w).2).
Proof.
  assert (∀ w1 w2 w3, db_grows w1 w2 → db_grows w2 w3 → db_grows w1 w3) as Htrans.
  { intros w1 w2 w3. apply store_grows_trans. }
  split;
    [apply (every_parse_home_page db_grows)|apply (every_drain_queue db_grows)];
    first
      [ exact Htrans
      | by (intros; apply grows_same_store)
      | intros; unfold db_grows; cbn [store upd_store];
        first [apply players_upsert_grows|apply events_upsert_grows|by apply games_upsert_grows]
      | intros ? ? ?; apply grows_same_store;
        first [apply cache_player_id_store|apply cache_event_store
              |apply register_player_store]
      | intros ? ?; apply grows_same_store;
        first [apply register_event_store|apply register_player_store] ].
Qed.

End Database.


Section Objects.
Context `{Platform}.

Lemma assigns_same_stub setter g : assigns setter → same_stub g (setter g).
Proof. intros []; by repeat split. Qed.

Lemma cache_player_id_game_heap name v w :
  game_heap (cache_player_id name v w).2 = game_heap w.
Proof. cbn. by destruct (players w !! name). Qed.

Lemma cache_event_game_heap name v w : game_heap (cache_event name v w).2 = game_heap w.
Proof. unfold cache_event. rewrite run_gets. by case_bool_decide. Qed.

Lemma register_player_game_heap name u w :
  game_heap (register_player name u w).2 = game_heap w.
Proof. unfold register_player, known. rewrite run_gets. by case_bool_decide. Qed.

Lemma register_event_game_heap name w : game_heap (register_event name w).2 = game_heap w.
Proof. unfold register_event, known. rewrite run_gets. by case_bool_decide. Qed.

(** X12.  Once a game object is built it stays, and its [red_player],
    [black_player], [event], [url] and [result] are never assigned again:
    through a whole run, and from any state of it on, every game object
    keeps the identity under which the dedup set knows it. *)
Theorem games_never_change fuel base_url w :
  games_keep same_stub w (parse_home_page fuel base_url w).2 ∧
  games_keep same_stub w (drain_queue fuel w).2.
Proof.
  pose proof (games_keep_refl same_stub same_stub_refl) as Hrefl.
  pose proof (games_keep_trans same_stub same_stub_trans) as Htrans.
  pose proof (games_keep_same_heap same_stub same_stub_refl) as Hsame.
  split;
    [apply (every_parse_home_page (games_keep same_stub))
    |apply (every_drain_queue (games_keep same_stub))];
    first
      [ exact Hrefl | exact Htrans
      | by (intros; apply Hsame)
      | by (intros setter a w' Hset; apply games_keep_alter;
              [exact same_stub_refl|intros; by apply assigns_same_stub])
      | intros g w' a g' Hg'; exists g'; split; [|apply same_stub_refl];
        cbn [game_heap upd_game_heap]; by apply lookup_app_l_Some
      | intros ? ? ?; apply Hsame;
        first [apply cache_player_id_game_heap|apply cache_event_game_heap
              |apply register_player_game_heap]
      | intros ? ?; apply Hsame;
        first [apply register_event_game_heap|apply register_player_game_heap] ].
Qed.

Lemma players_settled_refl w : players_settled w w.
Proof.
  split; [eauto|]. intros a p Hp%lookup_lt_Some Hge. lia.
Qed.

Lemma players_settled_trans w1 w2 w3 :
  players_settled w1 w2 → players_settled w2 w3 → players_settled w1 w3.
Proof.
  intros [K12 N12] [K23 N23]. split.
  - intros a p Hp. destruct (K12 a p Hp) as (p2 & Hp2 & ? & ?).
    destruct (K23 a p2 Hp2) as (p3 & Hp3 & ? & ?). exists p3. split_and!; congruence.
  - intros a p Hp Hge. destruct (player_heap w2 !! a) as [p2|] eqn:Hp2.
    + destruct (K23 a p2 Hp2) as (p3 & Hp3 & _ & Hurl).
      assert (p3 = p) as -> by congruence. rewrite Hurl. by eapply N12.
    + apply lookup_ge_None in Hp2. by eapply N23.
Qed.

Lemma players_settled_same_heap w w' :
  player_heap w' = player_heap w → players_settled w w'.
Proof.
  intros E. split; [intros a p Hp; rewrite E; eauto|].
  rewrite E. intros a p Hp%lookup_lt_Some Hge. lia.
Qed.

Lemma players_settled_cache name v : steps players_settled (cache_player_id name v).
Proof.
  intros w. cbn. destruct (players w !! name) as [a|]; [|apply players_settled_refl].
  split; cbn [player_heap upd_player_heap].
  - intros b p Hp. destruct (decide (a = b)) as [->|Hne].
    + exists (set_p_id v p). by rewrite list_lookup_alter_eq, Hp.
    + exists p. by rewrite list_lookup_alter_ne.
  - intros b p Hp%lookup_lt_Some Hge. rewrite length_alter in Hp. lia.
Qed.

Lemma cache_event_player_heap name v w :
  player_heap (cache_event name v w).2 = player_heap w.
Proof. unfold cache_event. rewrite run_gets. by case_bool_decide. Qed.

Lemma register_event_player_heap name w :
  player_heap (register_event name w).2 = player_heap w.
Proof. unfold register_event, known. rewrite run_gets. by case_bool_decide. Qed.

(** A player met in a game listing is registered without URL. *)
Lemma players_settled_found name : steps players_settled (register_player name EmptyString).
Proof.
  intros w. unfold register_player, known. rewrite run_gets.
  case_bool_decide; [apply players_settled_refl|].
  unfold mbind, M_bind, log, modify, new_player.
  cbn [snd player_heap upd_enqueued upd_player_queue upd_players upd_player_heap
       logged upd_trace].
  split.
  - intros a p Hp. exists p. split; [by apply lookup_app_l_Some|done].
  - intros a p Hp Hge. cbn in Hp, Hge.
    apply lookup_app_Some in Hp as [Hp%lookup_lt_Some|[_ Hp]]; [lia|].
    apply list_lookup_singleton_Some in Hp as [_ <-]. done.
Qed.

(** X13.  Only the players linked on the start page are ever walked.
    From the moment the queue is being drained, no [Player] object has its
    name or URL assigned again, and every player registered from then on,
    that is every player first met in a game listing, has an empty URL
    (lines 338 and 342); and a player without URL is popped and passed
    over: one log line, no request. *)
Theorem found_players_never_walked fuel w :
  players_settled w (drain_queue fuel w).2 ∧
  ∀ player p, player_heap w !! player = Some p → p_url p = EmptyString →
    visit_player player w
      = (Ok tt, logged INFO "Fetching player games %s" [AStr (p_name p)] w).
Proof.
  split.
  - apply (every_drain_queue players_settled);
      first
        [ exact players_settled_refl | exact players_settled_trans
        | exact players_settled_cache | exact players_settled_found
        | by (intros; apply players_settled_same_heap)
        | intros ? ? ?; apply players_settled_same_heap; apply cache_event_player_heap
        | intros ? ?; apply players_settled_same_heap; apply register_event_player_heap ].
  - intros player p Hp Hurl. unfold visit_player. rewrite run_gets.
    rewrite (list_lookup_total_correct _ _ _ Hp).
    unfold mbind, M_bind. cbn [log modify]. by rewrite Hurl.
Qed.

Lemma queue_pending_same w w' :
  player_queue w' = player_queue w → enqueued w' = enqueued w →
  queue_pending w → queue_pending w'.
Proof. unfold queue_pending. by intros -> ->. Qed.

Lemma queue_pending_register name u w :
  queue_pending w → queue_pending (register_player name u w).2.
Proof.
  unfold register_player, known. rewrite run_gets. case_bool_decide; [done|].
  intros [popped Hq]. exists popped.
  unfold mbind, M_bind, log, modify, new_player. cbn. by rewrite Hq, app_assoc.
Qed.

Lemma drain_queue_finished fuel w :
  (drain_queue fuel w).1 = Finished → player_queue (drain_queue fuel w).2 = [].
Proof.
  revert w. induction fuel as [|fuel IH]; intros w; cbn [drain_queue].
  - by destruct (player_queue w) eqn:Hq.
  - destruct (player_queue w) as [|player queue'] eqn:Hq; [done|].
    destruct (visit_player player _) as [[[]|e] w']; [apply IH|done].
Qed.

(** X14.  The queue is first in, first out, and holds every player not
    yet visited exactly once: in every state of a run it is the list of
    the addresses [k, k+1, ..] up to the last [Player] object created, in
    the order of creation, [k] being the number of players popped so far;
    and when [parse_home_page] has come to its end the queue is empty. *)
Theorem queue_first_in_first_out fuel base_url db :
  let r := parse_home_page fuel base_url (World_init db) in
  (∃ k, (k ≤ length (player_heap r.2))%nat ∧
        player_queue r.2 = seq k (length (player_heap r.2) - k)) ∧
  NoDup (player_queue r.2) ∧
  (r.1 = Finished → player_queue r.2 = []).
Proof.
  intros r.
  assert (queue_pending r.2) as [popped Hq].
  { apply (every_parse_home_page (λ w w', queue_pending w → queue_pending w'));
      first
        [ by (intros; apply queue_pending_register)
        | by (intros; eapply queue_pending_same; eauto)
        | by eauto
        | by exists []
        | idtac ].
    - intros name v w Hq. eapply queue_pending_same; [..|exact Hq];
        cbn; by destruct (players w !! name).
    - intros name v w Hq. eapply queue_pending_same; [..|exact Hq];
        unfold cache_event; rewrite run_gets; by case_bool_decide.
    - intros name w. apply queue_pending_register.
    - intros name w Hq. eapply queue_pending_same; [..|exact Hq];
        unfold register_event, known; rewrite run_gets; by case_bool_decide.
    - intros player queue' w Hpop [popped Hq]. exists (popped ++ [player]).
      cbn. by rewrite Hq, Hpop, <- app_assoc.
    - intros name u w. apply queue_pending_register. }
  destruct (parse_home_page_keeps fuel base_url (World_init db) (registry_ok_init db))
    as [(_ & _ & _ & Henq & _) _].
  fold r in Henq. rewrite Henq in Hq.
  assert (player_queue r.2
          = seq (length popped) (length (player_heap r.2) - length popped)) as Hseq.
  { pose proof (f_equal (drop (length popped)) Hq) as Hdrop.
    by rewrite drop_seq, drop_app_length in Hdrop. }
  split_and!.
  - exists (length popped). split; [|done].
    apply (f_equal length) in Hq. rewrite length_seq, length_app in Hq. lia.
  - rewrite Hseq. apply NoDup_seq.
  - unfold r, parse_home_page. destruct (seed base_url _) as [[[]|e] w']; [|done].
    apply drain_queue_finished.
Qed.

End Objects.


(** * The games of one listing page *)

Section PageGames.
Context `{Platform}.

Lemma same_game_count_refl w : same_game_count w w.
Proof. done. Qed.

Lemma same_game_count_trans w1 w2 w3 :
  same_game_count w1 w2 → same_game_count w2 w3 → same_game_count w1 w3.
Proof. unfold same_game_count. congruence. Qed.

Lemma same_game_count_heap w w' : game_heap w' = game_heap w → same_game_count w w'.
Proof. unfold same_game_count. by intros ->. Qed.

Lemma same_game_count_alter setter a w :
  same_game_count w (upd_game_heap (alter setter a) w).
Proof. unfold same_game_count. cbn. apply length_alter. Qed.

Lemma parse_game_count html base_url game :
  steps same_game_count (parse_game html base_url game).
Proof.
  apply every_parse_game;
    first
      [ exact same_game_count_refl | exact same_game_count_trans
      | by (intros; apply same_game_count_heap)
      | by (intros; apply same_game_count_alter)
      | intros ? ? ?; apply same_game_count_heap;
        first [apply cache_player_id_game_heap|apply cache_event_game_heap] ].
Qed.

Lemma game_body_count g : steps same_game_count (game_body g).
Proof.
  apply every_game_body;
    first
      [ exact same_game_count_refl | exact same_game_count_trans
      | by (intros; apply same_game_count_heap)
      | by (intros; apply same_game_count_alter)
      | intros ? ? ?; apply same_game_count_heap;
        first [apply cache_player_id_game_heap|apply cache_event_game_heap]
      | intros ? ?; apply same_game_count_heap;
        first [apply register_event_game_heap|apply register_player_game_heap] ].
Qed.

(** Line 334 catches whatever [save_game] raises: the loop body of
    [parse_home_page] raises nothing. *)
Lemma game_body_never_raises : never_raises game_body.
Proof. intros g w. by destruct (game_body_run g w) as (w' & -> & _). Qed.

Lemma well_formed_stub base_url game_div :
  well_formed game_div = bool_decide (is_Some (stub_of base_url game_div)).
Proof.
  unfold stub_of, well_formed, missing_link.
  destruct (select_one "div.red > a" game_div) as [a_red|]; [|done].
  destruct (select_one "div.black > a" game_div) as [a_black|]; [|done].
  destruct (select_one "div.result > a" game_div) as [a_result|]; [|done].
  destruct (select_one "div.event > a" game_div) as [a_event|]; [|done].
  cbn. by destruct (Py.strip _).
Qed.

(** One entry: a well-formed one puts one new object on the heap and
    comes back with its address, any other leaves the heap alone. *)
Lemma game_entry_alloc base_url game_div w :
  ∃ entry w', game_entry base_url game_div w = (Ok entry, w') ∧
    if well_formed game_div
    then entry = Some (length (game_heap w)) ∧
         length (game_heap w') = S (length (game_heap w))
    else entry = None ∧ game_heap w' = game_heap w.
Proof.
  rewrite (well_formed_stub base_url).
  destruct (stub_of base_url game_div) as [stub|] eqn:Hstub.
  - rewrite (game_entry_stub _ _ _ _ Hstub). cbn zeta.
    rewrite bool_decide_eq_true_2 by eauto.
    set (w1 := upd_game_heap _ w).
    assert (length (game_heap w1) = S (length (game_heap w))) as Hlen.
    { subst w1. cbn. rewrite length_app. cbn. lia. }
    pose proof (fetch_html_game_heap (url stub) w1) as Hfetch.
    destruct (fetch_html (url stub) w1) as [[game_html|e] w2]; cbn [snd] in Hfetch.
    2:{ eexists _, _. split; [done|]. split; [done|]. cbn. by rewrite Hfetch. }
    pose proof (parse_game_count game_html (url stub) (length (game_heap w)) w2) as Hparse.
    unfold same_game_count in Hparse. rewrite Hfetch in Hparse.
    destruct (parse_game _ _ _ w2) as [[?|e] w3]; cbn [snd] in Hparse;
      eexists _, _; (split; [done|]); (split; [done|]); cbn; congruence.
  - rewrite bool_decide_eq_false_2 by (by intros [? ?]).
    unfold stub_of in Hstub. unfold game_entry.
    destruct (select_one "div.red > a" game_div) as [a_red|]; [|cbn; eauto].
    destruct (select_one "div.black > a" game_div) as [a_black|]; [|cbn; eauto].
    destruct (select_one "div.result > a" game_div) as [a_result|]; [|cbn; eauto].
    destruct (select_one "div.event > a" game_div) as [a_event|]; [|cbn; eauto].
    cbn in *. destruct (Py.strip _); [cbn; eauto|done].
Qed.

Lemma game_links_loop_alloc base_url body divs w :
  never_raises body → (∀ y, steps same_game_count (body y)) →
  let r := game_links_loop base_url body divs w in
  let n := length (filter (λ d, well_formed d) divs) in
  r.1.2 = Ok tt ∧ r.1.1 = seq (length (game_heap w)) n ∧
  length (game_heap r.2) = (length (game_heap w) + n)%nat.
Proof.
  intros Hraise Hcount. cbv zeta. revert w.
  induction divs as [|game_div divs IH]; intros w.
  { cbn. split_and!; [done|done|lia]. }
  cbn [game_links_loop]. unfold run_then.
  destruct (game_entry_alloc base_url game_div w) as (entry & w' & -> & Hentry).
  rewrite filter_cons. destruct (well_formed game_div).
  - destruct Hentry as [-> Hlen]. rewrite decide_True by done. unfold yield_then.
    pose proof (Hraise (length (game_heap w)) w') as Hok.
    pose proof (Hcount (length (game_heap w)) w') as Hsame.
    destruct (body _ w') as [[[]|e] w'']; cbn [fst snd] in *; [|done].
    unfold same_game_count in Hsame.
    specialize (IH w''). destruct (game_links_loop _ _ _ w'') as [[ys r] w3].
    cbn [fst snd] in *. destruct IH as (-> & -> & Hlen3).
    rewrite Hsame, Hlen in *. cbn [length seq]. split_and!; [done|done|lia].
  - destruct Hentry as [-> Hheap]. rewrite decide_False by (by intros []).
    specialize (IH w'). rewrite Hheap in IH. exact IH.
Qed.


(** X16.  When the start page cannot be fetched the run is over at once:
    the exception leaves [parse_home_page], no player is registered or
    queued, nothing is written, and only the requests and pauses of that
    one [fetch_html] have been made. *)
Theorem start_page_failure fuel base_url w e :
  (fetch_html base_url w).1 = Raise e →
  let r := parse_home_page fuel base_url w in
  r.1 = Raised e ∧ r.2 = (fetch_html base_url w).2 ∧ only_trace w r.2.
Proof.
  intros Hfetch. cbv zeta. unfold parse_home_page, seed.
  pose proof (fetch_html_only_trace base_url w) as Honly.
  unfold mbind, M_bind. destruct (fetch_html base_url w) as [[html|e'] w1]; [done|].
  cbn [fst snd] in *. by injection Hfetch as ->.
Qed.

(** X17.  The page a walk starts on is fetched twice, by the walk and
    again by [parse_game_links] (line 326 passes the URL of the page, not
    its text), and nothing catches the second fetch: when it fails after
    the first has succeeded, the exception ends the whole run with the
    players still queued unvisited. *)
Theorem listing_failure_ends_run fuel w player queue' p html e w1 w2 :
  player_queue w = player :: queue' →
  player_heap w !! player = Some p →
  p_url p ≠ EmptyString →
  let w0 := logged INFO "Fetching player games %s" [AStr (p_name p)]
              (upd_player_queue (λ _, queue') w) in
  fetch_html (p_url p) w0 = (Ok html, w1) →
  fetch_html (p_url p) w1 = (Raise e, w2) →
  drain_queue (S fuel) w = (Raised e, w2) ∧ player_queue w2 = queue'.
Proof.
  intros Hq Hp Hurl w0 Hfirst Hsecond. cbn [drain_queue]. rewrite Hq.
  assert (visit_player player (upd_player_queue (λ _, queue') w) = (Raise e, w2)) as ->.
  { unfold visit_player. rewrite run_gets. cbn [player_heap upd_player_queue].
    rewrite (list_lookup_total_correct _ _ _ Hp).
    unfold mbind, M_bind. cbn [log modify]. fold w0.
    destruct (p_url p) as [|c u] eqn:Eu; [done|].
    unfold for_each, parse_pagination_links, run_then. rewrite Hfirst. cbn zeta.
    unfold yield_then, page_body, for_each, parse_game_links, run_then.
    cbn [gl_url]. by rewrite Hsecond. }
  split; [done|].
  pose proof (fetch_html_only_trace (p_url p) w0) as H1.
  pose proof (fetch_html_only_trace (p_url p) w1) as H2.
  rewrite Hfirst in H1. rewrite Hsecond in H2. cbn [snd] in *.
  rewrite H2, H1. done.
Qed.

End PageGames.


(** * A game outlives its enrichment *)

Section Survives.
Context `{Platform}.


End Survives.

(** * What the assignment patterns accept *)

Lemma fmap_keep_false c (x : option string) : Re.keep false c <$> x = x.
Proof. by destruct x. Qed.

(** A literal in front of a pattern takes the literal off the text. *)
Lemma match_here_lit s p rest :
  Re.match_here (Re.lit s ++ p) (s +:+ rest) = Re.match_here p rest.
Proof.
  induction s as [|c s IH]; [done|]. cbn [Re.lit app Re.match_here Re.match_once].
  change (String c s +:+ rest) with (String c (s +:+ rest)). cbn [Re.match_once].
  unfold Re.atom_matches. rewrite bool_decide_eq_true_2 by done.
  by rewrite fmap_keep_false, IH.
Qed.

(** A starred atom outside the group in front of a continuation that
    succeeds after the run: the run is taken whole. *)
Lemma match_star_run a k run rest r :
  every_char (λ c, Re.atom_matches a c = true) run →
  Re.match_star a false k rest = Some r →
  Re.match_star a false k (run +:+ rest) = Some r.
Proof.
  intros Hrun Hrest. induction run as [|c run IH]; [done|].
  destruct Hrun as [Hc Hrun]. change (String c run +:+ rest) with (String c (run +:+ rest)).
  cbn [Re.match_star]. by rewrite Hc, (IH Hrun).
Qed.

Lemma match_star_stop a g k c rest :
  Re.atom_matches a c = false →
  Re.match_star a g k (String c rest) = k (String c rest).
Proof. intros Hc. cbn [Re.match_star]. by rewrite Hc. Qed.

(** The grouped run of characters that are no quotes, up to a quote. *)
Lemma match_star_value body q post :
  every_char (λ c, c ∉ Re.quotes) body → q ∈ Re.quotes →
  Re.match_star (Re.NoneOf Re.quotes) true
    (Re.match_once (Re.OneOf Re.quotes) false (Re.match_here []))
    (body +:+ String q post) = Some body.
Proof.
  intros Hbody Hq. induction body as [|c body IH].
  - change (EmptyString +:+ String q post) with (String q post).
    rewrite match_star_stop by (cbn; by rewrite bool_decide_eq_true_2).
    cbn. by rewrite bool_decide_eq_true_2.
  - destruct Hbody as [Hc Hbody].
    change (String c body +:+ String q post) with (String c (body +:+ String q post)).
    cbn [Re.match_star]. unfold Re.atom_matches at 1.
    rewrite bool_decide_eq_false_2 by done. cbn [negb]. by rewrite (IH Hbody).
Qed.

(** X19.  What [parse_game] reads as an assignment (lines 208, 219 and
    223): the name, any white space, an equals sign, any white space, a
    single or double quote, a value of at least one character that holds
    no quote, and a single or double quote, which need not be of the kind
    that opened the value.  In a text that starts this way the value is
    what is captured, and wherever the text holds such an assignment the
    search finds one. *)
Theorem assignment_recognised name ws1 ws2 q c body q' post :
  every_char (λ c, Py.isspace c = true) ws1 →
  every_char (λ c, Py.isspace c = true) ws2 →
  q ∈ Re.quotes → q' ∈ Re.quotes →
  every_char (λ c, c ∉ Re.quotes) (String c body) →
  let text :=
    name +:+ ws1 +:+ String "="%char (ws2 +:+ String q (String c body +:+ String q' post)) in
  Re.search (Re.assignment name) text = Some (String c body) ∧
  ∀ before, is_Some (Re.search (Re.assignment name) (before +:+ text)).
Proof.
  intros Hws1 Hws2 Hq Hq' Hbody text.
  assert (Re.match_here (Re.assignment name) text = Some (String c body)) as Hhere.
  { subst text. unfold Re.assignment. rewrite match_here_lit.
    cbn [Re.match_here].
    apply match_star_run; [done|]. rewrite match_star_stop by done.
    cbn [Re.match_once]. unfold Re.atom_matches at 1.
    rewrite bool_decide_eq_true_2 by done. rewrite fmap_keep_false.
    apply match_star_run; [done|].
    assert (Py.isspace q = false) as Hspace.
    { unfold Re.quotes in Hq. rewrite !elem_of_cons, elem_of_nil in Hq.
      by destruct Hq as [->|[->|[]]]. }
    rewrite match_star_stop by done.
    cbn [Re.match_once]. unfold Re.atom_matches at 1.
    rewrite bool_decide_eq_true_2 by done. rewrite fmap_keep_false.
    change (String c body +:+ String q' post)
      with (String c (body +:+ String q' post)).
    destruct Hbody as [Hc Hbody]. cbn [Re.match_once]. unfold Re.atom_matches at 1.
    rewrite bool_decide_eq_false_2 by done. cbn [negb].
    by rewrite match_star_value. }
  split; [by rewrite search_unfold, Hhere|].
  intros before. induction before as [|d before IH]; rewrite search_unfold.
  - change (EmptyString +:+ text) with text. by rewrite Hhere.
  - destruct (Re.match_here _ (String d before +:+ text)); [by eexists|].
    change (String d before +:+ text) with (String d (before +:+ text)). exact IH.
Qed.


(** * What a run remembers *)

Section Remembers.
Context `{Platform}.

Lemma remembers_refl w : remembers w w.
Proof. by unfold remembers. Qed.

Lemma remembers_trans w1 w2 w3 : remembers w1 w2 → remembers w2 w3 → remembers w1 w3.
Proof. unfold remembers. set_solver. Qed.

Lemma quiet_remembers w w' : quiet w w' → remembers w w'.
Proof. intros (_ & Hp & He & Hg). unfold remembers. rewrite Hg. set_solver. Qed.

Lemma register_event_quiet name : steps quiet (register_event name).
Proof. intros w. by destruct (register_event_run name w) as (w' & -> & ? & _). Qed.

(** X20.  A run forgets nothing: a game identity that is in the dedup
    set stays there, and a name that is registered in [players] or in
    [events] stays registered, through the whole run and from any state of
    it on; nothing is ever removed from the three registries. *)
Theorem run_forgets_nothing fuel base_url w :
  remembers w (parse_home_page fuel base_url w).2 ∧
  remembers w (drain_queue fuel w).2.
Proof.
  split;
    [apply (every_parse_home_page remembers)|apply (every_drain_queue remembers)];
    first
      [ exact remembers_refl | exact remembers_trans
      | by (intros; apply quiet_remembers;
              first [apply quiet_trace|apply quiet_store|apply quiet_game_heap
                    |apply quiet_player_queue])
      | intros; unfold remembers; cbn; set_solver
      | intros ? ? ?; apply quiet_remembers;
        first [apply quiet_cache_player_id|apply quiet_cache_event
              |apply register_player_quiet]
      | intros ? ?; apply quiet_remembers;
        first [apply register_player_quiet|apply register_event_quiet] ].
Qed.

Lemma register_player_names name u w :
  (register_player name u w).1 = Ok tt ∧
  dom (players (register_player name u w).2) = dom (players w) ∪ {[name]}.
Proof.
  unfold register_player, known. rewrite run_gets. case_bool_decide as Hknown.
  - split; [done|]. cbn. apply elem_of_dom in Hknown. set_solver.
  - split; [done|]. unfold mbind, M_bind, log, modify, new_player. cbn.
    rewrite dom_insert_L. set_solver.
Qed.

Lemma seed_loop_names base_url divs w :
  (seed_loop base_url divs w).1 = Ok tt ∧
  dom (players (seed_loop base_url divs w).2) = dom (players w) ∪ seed_names divs.
Proof.
  revert w. induction divs as [|game_div divs IH]; intros w; cbn [seed_loop seed_names].
  { split; [done|]. cbn. set_solver. }
  assert (∃ w', seed_entry base_url game_div w = (Ok tt, w') ∧
                dom (players w') = dom (players w) ∪
                  match select_one "div.red > a" game_div,
                        select_one "div.black > a" game_div with
                  | Some a_red, Some a_black => {[get_text a_red; get_text a_black]}
                  | _, _ => ∅
                  end) as (w' & Hentry & Hdom).
  { unfold seed_entry.
    destruct (select_one "div.red > a" game_div) as [a_red|];
      [|eexists; split; [done|cbn; set_solver]].
    destruct (select_one "div.black > a" game_div) as [a_black|];
      [|eexists; split; [done|cbn; set_solver]].
    match goal with
    | |- context [register_player ?n ?u ≫= _] =>
        destruct (register_player_names n u w) as [Hok Hdom1];
        destruct (register_player n u w) as [[[]|e] w1] eqn:E1; [|done]
    end.
    rewrite (run_bind _ _ _ _ _ E1). cbn [snd] in Hdom1.
    match goal with
    | |- context [register_player ?n ?u w1] =>
        destruct (register_player_names n u w1) as [Hok2 Hdom2];
        destruct (register_player n u w1) as [[[]|e] w2] eqn:E2; [|done]
    end.
    exists w2. split; [done|]. cbn [snd] in Hdom2. rewrite Hdom2, Hdom1. set_solver. }
  rewrite (run_bind _ _ _ _ _ Hentry).
  destruct (IH w') as [-> ->]. split; [done|]. rewrite Hdom. set_solver.
Qed.


End Remembers.


(** * The statements at work on the toy site *)

Section OnTheSite.
Local Existing Instance Toy.site.

Lemma site_serves u body : Toy.assoc u Toy.web = Some body → serves u body.
Proof.
  intros E w. unfold fetch_html, fetch_html_with. rewrite seqZ_cons by lia.
  cbn [fetch_loop]. unfold try_except, attempt_get.
  cbn [session_get Toy.site Toy.platform]. unfold Toy.get. by rewrite E.
Qed.

Lemma quiet_never_raises {Y} : never_raises (λ _ : Y, mret tt).
Proof. by intros y w. Qed.


(** A ceiling of two pages on a chain of three. *)
Lemma pagination_ceiling_witness :
  let ys := (parse_pagination_links "/p1" 2 (λ _, mret tt) Toy.world0).1.1 in
  ys = [Toy.page1; Toy.page2] ∧ Z.of_nat (length ys) = 2 ∧
  gl_url <$> head ys = Some "/p1" ∧
  (parse_pagination_links "/p1" 2 (λ _, mret tt) Toy.world0).1.2 = Ok tt.
Proof.
  apply (pagination_ceiling "/p1" 2 (λ _, mret tt) Toy.world0 Toy.page1 [Toy.page2]).
  - apply quiet_never_raises.
  - lia.
  - reflexivity.
  - reflexivity.
  - repeat constructor; by apply site_serves.
  - by vm_compute.
  - compute_done.
Defined.

(** Page 3 links back to page 1: three pages. *)
Lemma pagination_cycle_witness :
  (parse_pagination_links "/p1" 100 (λ _, mret tt) Toy.world0).1
  = ([Toy.page1; Toy.page2; Toy.page3], Ok tt).
Proof.
  apply (pagination_cycle "/p1" 100 (λ _, mret tt) Toy.world0 Toy.page1 [Toy.page2; Toy.page3]
           Toy.page3 "/p1").
  - apply quiet_never_raises.
  - reflexivity.
  - repeat constructor; by apply site_serves.
  - by vm_compute.
  - compute_done.
  - cbn. lia.
  - reflexivity.
  - by vm_compute.
  - compute_done.
Defined.


(** The detail page of game 2 has no frame: the stub is yielded bare. *)
Lemma parse_game_no_frame_witness :
  let e := ValueError "No #game iframe with src found on /g2" in
  let w2 := (fetch_html "/g2" (upd_game_heap (λ h, h ++ [Toy.stub2]) Toy.world0)).2 in
  let w3 := logged WARNING "Failed to parse game %s: %s" [AStr "/g2"; AExn e] w2 in
  (∀ base_url' game' w',
     parse_game "<g2>" base_url' game' w'
       = (Raise (ValueError ("No #game iframe with src found on " +:+ base_url')), w')) ∧
  game_links_loop "/p2" (λ _, mret tt) [Toy.game_div "C" "D" "0-1" "/g2" "F" : @Tag Toy.site] Toy.world0
    = yield_then (λ _, mret tt) 0%nat (game_links_loop "/p2" (λ _, mret tt) []) w3 ∧
  game_heap w3 !! 0%nat = Some Toy.stub2 ∧
  move_list Toy.stub2 = None ∧ begin_fen Toy.stub2 = None ∧ start_color Toy.stub2 = None.
Proof.
  apply (parse_game_no_frame "<g2>" "/p2" (Toy.game_div "C" "D" "0-1" "/g2" "F" : @Tag Toy.site) []
           (λ _, mret tt) Toy.stub2 Toy.world0
           (fetch_html "/g2" (upd_game_heap (λ h, h ++ [Toy.stub2]) Toy.world0)).2).
  - reflexivity.
  - reflexivity.
  - by vm_compute.
Defined.


(** Two readings of game 1, saved one after the other into an empty
    database: one document, with the result and the moves of the second. *)
Lemma save_game_idempotent_witness :
  let w2 := (save_game 1%nat (save_game 0%nat Toy.world1).2).2 in
  ∃ d, filter (λ d, gd_url d = "/g1") (games_col (store w2)) = [d] ∧
       gd_result d = "0-1" ∧ gd_move_list d = Some "a1b2" ∧
       unique_keys (store w2).
Proof.
  destruct (save_game_idempotent 0%nat 1%nat Toy.world1)
    as ((d1 & d2 & _ & Hone & _ & Hresult & Hmoves & _) & _ & _ & _ & _ & _ & _ & Huniq).
  - repeat split.
  - repeat split; constructor.
  - by vm_compute.
  - exists d2. split; [exact Hone|]. split; [exact Hresult|]. split; [exact Hmoves|].
    exact Huniq.
Defined.

(** Enriching game 1 leaves what the listing said of it. *)
Lemma parse_game_frame_witness :
  ∃ g', game_heap (parse_game "<g1>" "/g1" 0%nat Toy.world1).2 !! 0%nat = Some g' ∧
        red_player g' = "A" ∧ black_player g' = "B" ∧ event g' = "E" ∧
        url g' = "/g1" ∧ result g' = "1-0" ∧
        ∀ a, (parse_game "<g1>" "/g1" 0%nat Toy.world1).1 = Ok a → a = 0%nat.
Proof.
  apply (parse_game_frame "<g1>" "/g1" 0%nat Toy.world1 Toy.stub1). reflexivity.
Defined.

(** A whole run over the site: players A and C both lead to the first
    listing page, so its games are met twice; the second time they are
    found seen, and the run ends with four players, each created once. *)
Lemma registry_unique_witness :
  let run := parse_home_page 10 "/p1" Toy.world0 in
  run.1 = Finished ∧
  p_name <$> player_heap run.2 = ["A"; "B"; "C"; "D"] ∧
  e_name <$> event_heap run.2 = ["E"; "F"] ∧
  length (game_heap run.2) = 4%nat ∧
  game_body 0%nat run.2 = (Ok tt, run.2).
Proof.
  split; [by vm_compute|]. split; [by vm_compute|]. split; [by vm_compute|].
  split; [by vm_compute|].
  destruct (registry_unique 10 "/p1" Toy.empty_db) as (_ & _ & _ & _ & _ & Hseen).
  apply Hseen. compute_done.
Defined.

(** The value of the start position in the frame of game 1. *)
Lemma assignment_value_clean_witness :
  "fen" ≠ EmptyString ∧ every_char (λ c, c ≠ "'"%char ∧ c ≠ Re.dquote) "fen".
Proof.
  apply (assignment_value_clean "beginFEN"
           "var strMoveList = ' abc'; StartBoard('N', 3); var beginFEN='fen';" "fen").
  by vm_compute.
Defined.

(** The frame of game 1 gives a start position and no start side. *)
Lemma parse_game_optional_fields_witness :
  ∃ g', game_heap (parse_game "<g1>" "/g1" 0%nat Toy.world1).2 !! 0%nat = Some g' ∧
        begin_fen g' = Some "fen" ∧ start_color g' = None.
Proof.
  destruct (parse_game_optional_fields "<g1>" "/g1" 0%nat Toy.world1 Toy.stub1
              (Toy.Node [("src", " /f1 ")] EmptyString [] : @Tag Toy.site) " /f1 "
              "var strMoveList = ' abc'; StartBoard('N', 3); var beginFEN='fen';"
              (fetch_html "/f1" Toy.world1).2)
    as (g' & Hg' & _ & Hfen & Hcolor).
  - reflexivity.
  - reflexivity.
  - discriminate.
  - by vm_compute.
  - reflexivity.
  - exists g'. split; [exact Hg'|]. split; [exact Hfen|exact Hcolor].
Defined.

(** The three moves abc and the nonce N: seven characters are stored. *)
Lemma parse_game_nonce_spread_witness :
  ∃ g' stored, game_heap (parse_game "<g1>" "/g1" 0%nat Toy.world1).2 !! 0%nat = Some g' ∧
    move_list g' = Some stored ∧ stored ≠ "abc" ∧ String.length stored = 7%nat.
Proof.
  destruct (parse_game_nonce_spread "<g1>" "/g1" 0%nat Toy.world1 Toy.stub1
              (Toy.Node [("src", " /f1 ")] EmptyString [] : @Tag Toy.site) " /f1 "
              "var strMoveList = ' abc'; StartBoard('N', 3); var beginFEN='fen';"
              (fetch_html "/f1" Toy.world1).2 " abc" "N")
    as (g' & stored & Hg' & Hmoves & Hne & Hlen & _).
  - reflexivity.
  - reflexivity.
  - discriminate.
  - by vm_compute.
  - by vm_compute.
  - by vm_compute.
  - reflexivity.
  - exists g', stored. split; [exact Hg'|]. split; [exact Hmoves|].
    split; [exact Hne|exact Hlen].
Defined.

(** Against a URL that is not served: no more than three requests. *)
Lemma fetch_html_budget_witness :
  let r := fetch_html_with "/nowhere" 20 3 (3 # 2)%Q Toy.world0 in
  ∃ evs, trace r.2 = evs ++ trace Toy.world0 ∧ (length (filter is_get evs) ≤ 3)%nat ∧
         ∀ html, r.1 ≠ Ok html.
Proof.
  destruct (fetch_html_budget "/nowhere" 20 3 (3 # 2)%Q Toy.world0)
    as (evs & Htr & _ & Hgets & _ & _ & Hok).
  exists evs. split; [exact Htr|]. split; [exact Hgets|]. intros html. by vm_compute.
Defined.

(** The first listing page comes from a response with status 200. *)
Lemma fetch_html_returns_response_witness :
  ∃ evs resp enc,
    session_get (evs ++ trace Toy.world0) "/p1" 20 = inr resp ∧ status_ok resp ∧
    "<p1>" = text resp enc.
Proof.
  destruct (fetch_html_returns_response "/p1" 20 3 (3 # 2)%Q Toy.world0 "<p1>")
    as (evs & resp & enc & Hresp & Hstatus & Htext & _).
  - by vm_compute.
  - exists evs, resp, enc. split; [exact Hresp|]. split; [exact Hstatus|exact Htext].
Defined.

(** Game 1 saved into the empty database: the object holds the [_id]s of
    the documents of A, B and E and of its own document. *)
Lemma save_game_references_witness :
  ∃ g' red_doc game_doc,
    game_heap (save_game 0%nat Toy.world1).2 !! 0%nat = Some g' ∧
    red_doc ∈ players_col (store (save_game 0%nat Toy.world1).2) ∧
    pd_name red_doc = "A" ∧ red_player_id g' = Some (pd_id red_doc) ∧
    game_doc ∈ games_col (store (save_game 0%nat Toy.world1).2) ∧
    id g' = Some (gd_id game_doc) ∧ gd_url game_doc = "/g1".
Proof.
  destruct (save_game_references 0%nat Toy.world1 Toy.stub1)
    as (g' & red_doc & black_doc & event_doc & game_doc & Hg' & _ & Hred & Hname & Hrid
        & _ & _ & _ & _ & _ & _ & Hdoc & Hid & Hfields).
  - repeat split.
  - reflexivity.
  - exists g', red_doc, game_doc. split; [exact Hg'|]. split; [exact Hred|].
    split; [exact Hname|]. split; [exact Hrid|]. split; [exact Hdoc|].
    split; [exact Hid|]. rewrite Hfields. reflexivity.
Defined.

(** The walk from the first listing page starts with that page. *)
Lemma pagination_linked_witness :
  chain "/p1" (parse_pagination_links "/p1" 2 (λ _, mret tt) Toy.world0).1.1 ∧
  gl_url Toy.page1 = "/p1".
Proof.
  destruct (pagination_linked "/p1" 2 (λ _, mret tt) Toy.world0) as [Hchain Hfirst].
  split; [exact Hchain|]. apply Hfirst. by vm_compute.
Defined.

(** A player that was found in a listing is passed over. *)
Lemma found_players_never_walked_witness :
  visit_player 0%nat Toy.world_found
    = (Ok tt, logged INFO "Fetching player games %s" [AStr "B"] Toy.world_found).
Proof.
  apply (proj2 (found_players_never_walked 0 Toy.world_found) 0%nat
           (mkPlayer "B" EmptyString None)); reflexivity.
Defined.

(** The run over the site comes to its end with an empty queue. *)
Lemma queue_first_in_first_out_witness :
  player_queue (parse_home_page 10 "/p1" Toy.world0).2 = [].
Proof.
  apply (queue_first_in_first_out 10 "/p1" Toy.empty_db). by vm_compute.
Defined.


(** A start page that is not served. *)
Lemma start_page_failure_witness :
  (parse_home_page 10 "/nowhere" Toy.world0).1 = Raised (RequestException 0) ∧
  only_trace Toy.world0 (parse_home_page 10 "/nowhere" Toy.world0).2.
Proof.
  destruct (start_page_failure 10 "/nowhere" Toy.world0 (RequestException 0))
    as (Hstatus & _ & Honly).
  - by vm_compute.
  - split; [exact Hstatus|exact Honly].
Defined.


(** A double-quoted value closed by a single quote. *)
Lemma assignment_recognised_witness :
  Re.search (Re.assignment "beginFEN")
    ("beginFEN" +:+ " " +:+ String "="%char (EmptyString +:+
       String Re.dquote (String "f"%char "en" +:+ String "'"%char ";")))
  = Some "fen".
Proof.
  apply (assignment_recognised "beginFEN" " " EmptyString Re.dquote "f"%char "en"
           "'"%char ";").
  - by vm_compute.
  - done.
  - compute_done.
  - compute_done.
  - repeat split; compute_done.
Defined.




End OnTheSite.

(** * The statements at work on other networks *)


(** The network answers the request of the walk and fails from then on:
    the second fetch of the listing page ends the run. *)
Lemma listing_failure_ends_run_witness :
  (drain_queue (H:=Toy.flaky) 1 Toy.world_queued).1 = Raised (RequestException 1).
Proof.
  destruct (listing_failure_ends_run (H:=Toy.flaky) 0 Toy.world_queued 0%nat []
              (mkPlayer "A" "/p1" None) "<p1>" (RequestException 1)
              (fetch_html (H:=Toy.flaky) "/p1"
                 (logged INFO "Fetching player games %s" [AStr "A"]
                    (upd_player_queue (λ _, []) Toy.world_queued))).2
              (fetch_html (H:=Toy.flaky) "/p1"
                 (fetch_html (H:=Toy.flaky) "/p1"
                    (logged INFO "Fetching player games %s" [AStr "A"]
                       (upd_player_queue (λ _, []) Toy.world_queued))).2).2)
    as [Hrun _].
  - reflexivity.
  - reflexivity.
  - discriminate.
  - by vm_compute.
  - by vm_compute.
  - by rewrite Hrun.
Defined.
